(** * BNF Lite (bnflite.h): a shallow embedding of the grammar interpreter

    The C++ header builds a grammar as a graph of [_Tie] nodes and runs it
    with the virtual method [_parse] against a parser context ([_Base] or
    [_Parser<U>]).  This file embeds the node classes as an inductive type,
    the context as a record, each [_parse] body as a function on that
    record, and proves properties of the interpreter.

    Conventions of the embedding
    - [int] statuses are signed integers in [Z]; the bit operations of the
      source are [Z.land], [Z.lor] and [Z.lnot] (two's complement), so
      [eError], the top bit of a 32-bit word, is [-2^31].
    - a [const char*] into the analysed text is the offset from the start
      of the text; reading at or after the end of the text gives the
      terminating NUL.
    - [unsigned] subtraction is written with its wrap-around; sizes of
      vectors and offsets are natural numbers.
    - where the source has no defined behaviour (reading [back()] of an
      empty vector, writing past its end) the embedding reads 0 and drops
      the write; the interpreter started by [_analyze] reaches neither.
    - named productions ([Lexem], [Rule]) refer to their body through a
      handle into an arena, which is how recursion enters the graph; the
      interpreter therefore takes fuel that bounds the nesting depth. *)

From Stdlib Require Import ZArith List String Ascii Bool Lia Arith.
Import ListNotations.

Local Open Scope Z_scope.

(** ** enum Status *)

Definition eNone : Z := 0.
Definition eErr : Z := 0.
Definition eOk : Z := 1.
Definition eRet : Z := 0x8.
Definition e1st : Z := 0x10.
Definition eSkip : Z := 0x20.
Definition eCatch : Z := 0x40.
Definition eTry : Z := 0x80.
Definition eRest : Z := 0x100.
Definition eNull : Z := 0x200.
Definition eOver : Z := 0x400.
Definition eEof : Z := 0x800.
Definition eBadRule : Z := 0x1000.
Definition eBadLexem : Z := 0x2000.
Definition eSyntax : Z := 0x4000.
Definition eError : Z := - 2147483648.

(** enum Limits *)
Definition maxCharNum : Z := 256.
Definition maxLexemLength : Z := 1024.
Definition maxIterate : Z := 0x4096.

(** [has s m]: the C test [s & m] used as a condition. *)
Definition has (s m : Z) : bool := negb (Z.land s m =? 0).

(** [s & ~m] *)
Definition clr (s m : Z) : Z := Z.land s (Z.lnot m).

Infix "|||" := Z.lor (at level 50, left associativity) : Z_scope.

(** The markers that the loop of [_Cycle::_parse] clears, with [eOk],
    between two iterations. *)
Definition transient : Z := e1st ||| eTry ||| eSkip ||| eRet.

(** ** The analysed text *)

(** [deref text ptr] is [*ptr]: the byte at offset [ptr], NUL from the end
    of the text on. *)
Definition deref (text : string) (ptr : nat) : N :=
  match String.get ptr text with
  | Some c => N_of_ascii c
  | None => 0%N
  end.

(** The suffix of the text from offset [ptr]. *)
Fixpoint tail_from (text : string) (ptr : nat) : string :=
  match ptr, text with
  | O, _ => text
  | S n, String _ rest => tail_from rest n
  | S _, EmptyString => EmptyString
  end.

(** C's [strlen]: the offset of the first NUL. *)
Fixpoint strlen (text : string) : nat :=
  match text with
  | EmptyString => O
  | String c rest => if (N_of_ascii c =? 0)%N then O else S (strlen rest)
  end.

Definition is_blank (cc : N) : bool :=
  ((cc =? 32) || (cc =? 9) || (cc =? 10) || (cc =? 13))%N.

(** The loop of [_Base::zero_parse], run on the suffix that starts at
    [ptr]. *)
Fixpoint skip_blank (rest : string) (ptr : nat) : nat :=
  match rest with
  | EmptyString => ptr
  | String c rest' =>
      let cc := N_of_ascii c in
      if (cc =? 0)%N then ptr
      else if is_blank cc then skip_blank rest' (S ptr)
      else ptr
  end.

(** [_Base::zero_parse], the default procedure that skips special
    symbols. *)
Definition zero_parse_default (text : string) (ptr : nat) : nat :=
  skip_blank (tail_from text ptr) ptr.

(** The loop of [ini_parser::zero_parse] (ini.cpp): after a leading [;] or
    [#], skip to just after the next newline. *)
Fixpoint skip_line (rest : string) (ptr : nat) : nat :=
  match rest with
  | EmptyString => ptr
  | String c rest' =>
      let cc := N_of_ascii c in
      if (cc =? 0)%N then ptr
      else if (cc =? 10)%N then S ptr
      else skip_line rest' (S ptr)
  end.

Definition zero_parse_ini (text : string) (ptr : nat) : nat :=
  let cc := deref text ptr in
  if ((cc =? 59) || (cc =? 35))%N then skip_line (tail_from text ptr) ptr
  else ptr.

(** ** Interface<bool>, the default semantic record *)

Module Ifc.

Record Interface := mkInterface {
  data : bool;
  text : nat;
  length : Z;
  name : string
}.

End Ifc.

#[warnings="-notation-for-abbreviation"]
Notation Interface := Ifc.Interface.
#[warnings="-notation-for-abbreviation"]
Notation mkInterface := Ifc.mkInterface.

(** [Interface(const Interface& ifc, text, length, name)] *)
Definition Interface_copy (ifc : Interface) (t : nat) (l : Z) (nm : string) :=
  mkInterface (Ifc.data ifc) t l nm.

(** [Interface(text, length, name)] *)
Definition Interface_stub (t : nat) (l : Z) (nm : string) :=
  mkInterface false t l nm.

(** [Interface()] *)
Definition Interface_empty := mkInterface false 0%nat 0 "".

(** [Interface::ByPass] *)
Definition ByPass (res : list Interface) : Interface :=
  match res with
  | r :: _ => r
  | [] => Interface_empty
  end.

(** ** The grammar nodes *)

Definition bitset := N -> bool.

#[warnings="-register-all"]
Inductive Tie : Type :=
| Token (match_ : bitset) (name : string)
| Action (action : string -> nat -> Z -> bool)
| _Ctrl (flg : Z)
| _And (use : list Tie)
| _Or (use : list Tie)
| _Cycle (min max : Z) (flag : Z) (body : Tie)
| Lexem (name : string) (use : option nat)
| Rule (name : string) (callback : option (list Interface -> Interface))
       (use : option nat).

Definition Null := _Ctrl eOk.
Definition Return := _Ctrl (eOk ||| eRet).
Definition AcceptFirst := _Ctrl e1st.
Definition Try := _Ctrl (eOk ||| eTry).
Definition Skip := _Ctrl (eOk ||| eSkip).

(** [Token::Add(const char* sample)] on an empty bitset: the class of the
    bytes of [sample]. *)
Fixpoint sample_set (sample : string) : bitset :=
  match sample with
  | EmptyString => fun _ => false
  | String c rest =>
      if (N_of_ascii c =? 0)%N then fun _ => false
      else fun b => (b =? N_of_ascii c)%N || sample_set rest b
  end.

(** [Token(const char* s)] *)
Definition Token_s (s : string) : Tie := Token (sample_set s) s.

(** The constructor [_Cycle(at_least, link, total, limit)]: the bounds
    are stored in [unsigned int] fields. *)
Definition mk_Cycle (at_least : Z) (link : Tie) (total limit : Z) : Tie :=
  _Cycle (at_least mod 2 ^ 32) (total mod 2 ^ 32)
         (if total <? limit then eNone else eOver) link.

(** [Series], [Iterate] and [Repeat] with their default arguments are
    [mk_Cycle at_least link maxLexemLength maxLexemLength]; [operator*] is
    the following. *)
Definition Star (link : Tie) : Tie := mk_Cycle 0 link maxIterate maxIterate.

(** ** The parser context *)

(** The class of the context object: [_Base], whose callback hooks do
    nothing, or [_Parser<U>]. *)
Variant ParserClass := BaseClass | ParserU.

(** The virtual members a host can override, and the grammar arena. *)
Record Host := mkHost {
  text : string;
  klass : ParserClass;
  zero_parse : string -> nat -> nat;
  Catch : Z;
  defs : nat -> Tie
}.

Record Parser := mkParser {
  cntxV : list nat;
  level : Z;
  cntxU : option (list Interface);
  off : Z
}.

Definition set_cntxV (p : Parser) (v : list nat) : Parser :=
  mkParser v (level p) (cntxU p) (off p).

Definition set_level (p : Parser) (l : Z) : Parser :=
  mkParser (cntxV p) l (cntxU p) (off p).

Definition set_frame (p : Parser) (u : option (list Interface)) (o : Z) :=
  mkParser (cntxV p) (level p) u o.

(** [cntxV.back()] *)
Definition back (p : Parser) : nat := last (cntxV p) 0%nat.

(** [cntxV.push_back(ptr)] *)
Definition push (p : Parser) (ptr : nat) : Parser :=
  set_cntxV p (cntxV p ++ [ptr]).

(** [std::vector::resize(n)]: truncate, or pad with null entries. *)
Definition vresize (v : list nat) (n : nat) : list nat :=
  firstn n v ++ repeat 0%nat (n - List.length v).

Definition resize (p : Parser) (n : nat) : Parser :=
  set_cntxV p (vresize (cntxV p) n).

(** [v.erase(v.begin() + lo, v.end())] and
    [v.erase(v.begin() + lo, v.begin() + hi)].  The source never erases a
    range with [hi < lo] or past the end, which [std::vector] leaves
    undefined. *)
Definition erase_tail {A} (v : list A) (lo : nat) : list A := firstn lo v.

Definition erase_range {A} (v : list A) (lo hi : nat) : list A :=
  firstn lo v ++ skipn hi v.

(** [v.erase(v.begin() + low, up ? v.begin() + up : v.end())] *)
Definition verase {A} (v : list A) (low up : nat) : list A :=
  if (up =? 0)%nat then erase_tail v low else erase_range v low up.

(** [(x - off) / 2] in [unsigned int] arithmetic. *)
Definition uidx (x : nat) (o : Z) : nat :=
  Z.to_nat (((Z.of_nat x - o) mod 2 ^ 32) / 2).

(** ** The interpreter *)

Section Interpreter.

Variable H : Host.

(** [_erase]: [_Base] erases cursors only; [_Parser<U>] also erases the
    semantic values that the erased cursors stand for. *)
Definition _erase (p : Parser) (low up : nat) : Parser :=
  let v := verase (cntxV p) low up in
  match klass H with
  | BaseClass => set_cntxV p v
  | ParserU =>
      match cntxU p with
      | Some u =>
          if level p =? 0 then set_cntxV p v
          else mkParser v (level p)
                 (Some (if (up =? 0)%nat
                        then erase_tail u (uidx low (off p))
                        else erase_range u (uidx low (off p))
                                           (uidx up (off p))))
                 (off p)
      | None => set_cntxV p v
      end
  end.

(** [_stub_call(begin, end, name)] *)
Definition _stub_call (p : Parser) (b e : nat) (nm : string) : Parser :=
  match klass H with
  | BaseClass => p
  | ParserU =>
      match cntxU p with
      | Some u =>
          set_frame p
            (Some (u ++ [Interface_stub b (Z.of_nat e - Z.of_nat b) nm]))
            (off p)
      | None => p
      end
  end.

(** [_pre_call(callback)]: returns the saved frame [up] and the context
    with the frame of the production being entered. *)
Definition _pre_call (p : Parser)
    (callback : option (list Interface -> Interface))
    : (option (list Interface) * Z) * Parser :=
  match klass H with
  | BaseClass => ((None, 0), p)
  | ParserU =>
      ((cntxU p, off p),
       match callback with
       | Some _ => set_frame p (Some []) (Z.of_nat (List.length (cntxV p)))
       | None => set_frame p None 0
       end)
  end.

(** [_do_call(up, callback, begin, end, name)]: the value of the
    production goes to the frame saved in [up]. *)
Definition _do_call (p : Parser) (up : option (list Interface) * Z)
    (callback : option (list Interface -> Interface))
    (b e : nat) (nm : string) : option (list Interface) * Z :=
  match klass H with
  | BaseClass => up
  | ParserU =>
      let len := Z.of_nat e - Z.of_nat b in
      match callback, fst up with
      | Some cb, Some parent =>
          let res := match cntxU p with Some u => u | None => [] end in
          (Some (parent ++ [Interface_copy (cb res) b len nm]), snd up)
      | Some _, None => up
      | None, Some parent =>
          (Some (parent ++ [Interface_stub b len nm]), snd up)
      | None, None => up
      end
  end.

(** [_post_call(up)] *)
Definition _post_call (p : Parser) (up : option (list Interface) * Z)
    : Parser :=
  match klass H with
  | BaseClass => p
  | ParserU => set_frame p (fst up) (snd up)
  end.

(** [Token::_parse] *)
Definition Token_parse (match_ : bitset) (nm : string) (p : Parser)
    : Z * Parser :=
  let cc := back p in
  let cc := if level p =? 0 then cc else zero_parse H (text H) cc in
  if match_ (deref (text H) cc) then
    let p := if level p =? 0 then p
             else push (_stub_call p cc (S cc) nm) cc in
    let p := push p (S cc) in
    ((if (deref (text H) (S cc) =? 0)%N then eOk ||| eEof else eOk), p)
  else (0, p).

(** [Action::_parse]: the callback sees the span between the last two
    cursors. *)
Definition Action_parse (action : string -> nat -> Z -> bool) (p : Parser)
    : Z * Parser :=
  let itr := nth 1 (rev (cntxV p)) 0%nat in
  ((if action (text H) itr
         ((Z.of_nat (back p) - Z.of_nat itr) mod 2 ^ 64)
    then 1 else 0), p).

Definition result := option (Z * Parser).

(** The loop of [_And::_parse]; [rec] evaluates a child. *)
Definition and_loop (rec : Tie -> Parser -> result) (size : nat) :=
  fix loop (use : list Tie) (stat : Z) (save : nat) (p : Parser) : result :=
    match use with
    | [] =>
        Some ((if has stat eTry then eRet else eNone) ||| eOk
              ||| clr stat (eTry ||| eSkip), p)
    | t :: rest =>
        match rec t p with
        | None => None
        | Some (r, p) =>
            let stat := stat ||| r in
            if Z.land stat (eOk ||| eError) =? eOk then
              let p := if (save =? 0)%nat then p else resize p save in
              let save :=
                if has stat eSkip then List.length (cntxV p) else 0%nat in
              loop rest (clr stat (eSkip ||| eRet ||| eOk)) save p
            else
              let stat :=
                if negb (level p =? 0) && has stat eTry
                   && negb (has stat eError) && (save =? 0)%nat
                then stat ||| Catch H else stat in
              Some ((if has stat (eEof ||| eOver) then eError else eErr)
                    ||| clr stat (eTry ||| eSkip ||| eOk),
                    _erase p size 0)
        end
    end.

(** The value returned after the loop of [_Or::_parse]. *)
Definition or_ret (stat max tmp : Z) : Z :=
  clr (if negb (max =? 0) || (tmp >=? 0) then stat ||| eOk else clr stat eOk)
      (e1st ||| eRet).

(** The loop of [_Or::_parse]. *)
Definition or_loop (rec : Tie -> Parser -> result) (org size : nat) :=
  fix loop (use : list Tie) (stat max tmp : Z) (p : Parser) : result :=
    match use with
    | [] => Some (or_ret stat max tmp, p)
    | t :: rest =>
        let msize := List.length (cntxV p) in
        let p := if (size <? msize)%nat then push p org else p in
        match rec t p with
        | None => None
        | Some (r, p) =>
            let stat := stat ||| r in
            let next := clr stat (eOk ||| eRet ||| eError) in
            let tmp' := if has stat (eOk ||| eError)
                        then Z.of_nat (back p) - Z.of_nat org else tmp in
            if has stat (eOk ||| eError)
               && ((tmp' >? max)
                   || ((tmp' >? 0) && has stat (eRet ||| e1st ||| eError)))
            then
              let p := if (size <? msize)%nat
                       then _erase p size (S msize) else p in
              if has stat (eRet ||| e1st ||| eError)
              then Some (or_ret stat tmp' tmp', p)
              else loop rest next tmp' tmp' p
            else
              let p := if (msize <? List.length (cntxV p))%nat
                       then _erase p msize 0 else p in
              loop rest next max tmp' p
        end
    end.

(** The loop of [_Cycle::_parse]; [n] counts the iterations left, [i] the
    iterations done.  The result carries the final value of the loop
    counter [i] next to the returned status. *)
Definition cycle_loop (rec : Tie -> Parser -> result) (body : Tie)
    (min flag : Z) :=
  fix loop (n : nat) (i : Z) (stat : Z) (p : Parser)
      : option (Z * (Z * Parser)) :=
    match n with
    | O => Some (i, (stat ||| flag ||| eOk, p))
    | S n' =>
        match rec body p with
        | None => None
        | Some (r, p) =>
            let stat := stat ||| r in
            if Z.land stat (eOk ||| eError) =? eOk then
              loop n' (i + 1)
                   (clr stat (e1st ||| eTry ||| eSkip ||| eRet ||| eOk)) p
            else
              Some (i, ((if i <? min then clr stat eOk else stat ||| eOk), p))
        end
    end.

(** [dynamic_cast<const Action*>(use[0])] *)
Definition is_Action (t : Tie) : bool :=
  match t with Action _ => true | _ => false end.

(** [cntxV.size() - size > 1], a comparison of [size_t] values. *)
Definition grew (p : Parser) (size : nat) : bool :=
  (Z.of_nat (List.length (cntxV p)) - Z.of_nat size) mod 2 ^ 64 >? 1.

(** [cntxV[(++size)++] = cntxV.back(); cntxV.resize(size)]: the span of
    the production is left as a pair of cursors.  A write past the end of
    the vector has no defined behaviour in the source; here it is
    dropped. *)
Definition collapse (p : Parser) (size : nat) : Parser :=
  let v := cntxV p in
  let v := if (S size <? List.length v)%nat
           then firstn (S size) v ++ back p :: skipn (S (S size)) v
           else v in
  set_cntxV p (vresize v (S (S size))).

(** The interpreter: [fuel] bounds the depth of nested [_parse] calls. *)
Fixpoint parse (fuel : nat) (t : Tie) (p : Parser) {struct fuel} : result :=
  match fuel with
  | O => None
  | S f =>
      match t with
      | Token m nm => Some (Token_parse m nm p)
      | Action a => Some (Action_parse a p)
      | _Ctrl flg => Some (flg, p)
      | _And use => and_loop (parse f) (List.length (cntxV p)) use 0 0%nat p
      | _Or use =>
          or_loop (parse f) (back p) (List.length (cntxV p)) use 0 0 (-1) p
      | _Cycle min max flag body =>
          option_map snd
            (cycle_loop (parse f) body min flag (Z.to_nat max) 0 0 p)
      | Lexem nm use =>
          match use with
          | None => Some (eError ||| eBadLexem, p)
          | Some h =>
              if (level p =? 0) || is_Action (defs H h)
              then parse f (defs H h) p
              else
                let size := List.length (cntxV p) in
                let org := zero_parse H (text H) (back p) in
                let p := set_level (push p org) (level p - 1) in
                match parse f (defs H h) p with
                | None => None
                | Some (stat, p) =>
                    let p := set_level p (level p + 1) in
                    if has stat eOk && grew p size
                    then Some (stat,
                               collapse (_stub_call p org (back p) nm) size)
                    else Some (stat, resize p size)
                end
          end
      | Rule nm callback use =>
          match use with
          | None => Some (eError ||| eBadRule, p)
          | Some h =>
              if level p =? 0 then Some (eError ||| eBadRule, p)
              else if is_Action (defs H h) then parse f (defs H h) p
              else
                let size := List.length (cntxV p) in
                let '(up, p) := _pre_call p callback in
                match parse f (defs H h) p with
                | None => None
                | Some (stat, p) =>
                    if has stat eOk && grew p size
                    then
                      let up := _do_call p up callback
                                  (nth size (cntxV p) 0%nat) (back p) nm in
                      Some (stat, _post_call (collapse p size) up)
                    else Some (stat, _post_call (resize p size) up)
                end
          end
      end
  end.

(** [_Base::_analyze] *)
Definition _analyze (fuel : nat) (root : Tie) (p : Parser) : result :=
  parse fuel root (push (push p 0%nat) 0%nat).

(** [_Base::Get_tail]: the pointer stored through [pstop] and the
    returned status. *)
Definition Get_tail (p : Parser) : nat * Z :=
  let ptr := zero_parse H (text H) (back p) in
  (ptr, if (deref (text H) ptr =? 0)%N then 0 else eError ||| eRest).

(** The context as its constructor leaves it: [_Base()], and
    [_Parser(res)] with [res] the vector of [Analyze]. *)
Definition new_parser : Parser :=
  mkParser [] 1 (match klass H with BaseClass => None | ParserU => Some [] end)
           0.

(** [Analyze(root, text, pstop)] and [Analyze(root, text, pstop, u)]:
    status, stop pointer and final context. *)
Definition Analyze (fuel : nat) (root : Tie) : option (Z * nat * Parser) :=
  match _analyze fuel root new_parser with
  | None => None
  | Some (stat, p) =>
      let '(ptr, st) := Get_tail p in Some (stat ||| st, ptr, p)
  end.

End Interpreter.

(** ** Predicates on grammars and contexts *)

(** No terminal of the node has the NUL byte in its class. *)
Fixpoint nul_free (t : Tie) : bool :=
  match t with
  | Token m _ => negb (m 0%N)
  | _And use => forallb nul_free use
  | _Or use => forallb nul_free use
  | _Cycle _ _ _ body => nul_free body
  | _ => true
  end.

(** Every cursor of the stack is within the text, the sentinel
    included. *)
Definition bounded (H : Host) (p : Parser) : Prop :=
  Forall (fun c => (c <= strlen (text H))%nat) (cntxV p).

(** The context [q] is the context [p] with cursors pushed, none before
    the cursor of [p], at the same mode level. *)
Definition extends_from (p q : Parser) : Prop :=
  exists suf, cntxV q = cntxV p ++ suf /\
              Forall (fun c => (back p <= c)%nat) suf /\
              level q = level p.

(** The evaluation [rec] of the node [t] keeps contexts bounded. *)
Definition keeps_bounded (H : Host) (rec : Tie -> Parser -> result)
    (t : Tie) : Prop :=
  forall p s q, bounded H p -> rec t p = Some (s, q) -> bounded H q.

(** ** Summaries of the children of an alternation *)

(** The advance of the cursor from [org] when the cursors [suf] have been
    pushed: [cntxV.back() - org]. *)
Definition adv (org : nat) (suf : list nat) : Z :=
  Z.of_nat (last suf org) - Z.of_nat org.

(** The child [t] has the summary [(r, suf)] at the cursor [org] and the
    mode level [L]: from every context with that cursor and level its
    evaluation returns the status [r] and pushes the cursors [suf]. *)
Definition child_at (rec : Tie -> Parser -> result) (org : nat) (L : Z)
    (t : Tie) (spec : Z * list nat) : Prop :=
  forall p, back p = org -> level p = L ->
  exists q, rec t p = Some (fst spec, q) /\
            cntxV q = cntxV p ++ snd spec /\ level q = L.

(** The loop of [_Or::_parse] on the summaries of the children: the
    returned status and the cursors that stay pushed. *)
Fixpoint or_abs (org : nat) (specs : list (Z * list nat))
    (stat max tmp : Z) (best : list nat) : Z * list nat :=
  match specs with
  | [] => (or_ret stat max tmp, best)
  | (r, suf) :: rest =>
      let stat := stat ||| r in
      let next := clr stat (eOk ||| eRet ||| eError) in
      let tmp' := if has stat (eOk ||| eError) then adv org suf else tmp in
      if has stat (eOk ||| eError)
         && ((tmp' >? max)
             || ((tmp' >? 0) && has stat (eRet ||| e1st ||| eError)))
      then
        if has stat (eRet ||| e1st ||| eError)
        then (or_ret stat tmp' tmp', suf)
        else or_abs org rest next tmp' tmp' suf
      else or_abs org rest next max tmp' best
  end.

(** ** Hosts used in the examples *)

(** A [_Base] context with the default hooks; the arena is empty. *)
Definition host_base (t : string) : Host :=
  mkHost t BaseClass zero_parse_default 0 (fun _ => Null).

(** A [_Parser<Interface<> >] context with the default hooks over the
    arena [d]. *)
Definition host_U (t : string) (d : nat -> Tie) : Host :=
  mkHost t ParserU zero_parse_default 0 d.

(** The context at the start of [_analyze]. *)
Definition start (H : Host) : Parser :=
  push (push (new_parser H) 0%nat) 0%nat.

(** A reducer that tells, in the payload of its result, whether it was
    handed a child value named [nm]. *)
Definition saw (nm : string) (res : list Interface) : Interface :=
  mkInterface (existsb (fun i => String.eqb (Ifc.name i) nm) res) 0%nat 0 "".

(** The body [A | (B | ((C + E) | D))]: [A], [B], [C] and [D] accept the
    byte [a], [E] accepts the byte [b]. *)
Definition nested_alternatives : Tie :=
  _Or [Token (sample_set "a") "A";
       _Or [Token (sample_set "a") "B";
            _Or [_And [Token (sample_set "a") "C";
                       Token (sample_set "b") "E"];
                 Token (sample_set "a") "D"]]].

(** ** The byte-class of a Token *)

(** [match[i] = v] *)
Definition bs_set (m : bitset) (i : N) (v : bool) : bitset :=
  fun b => if (b =? i)%N then v else m b.

(** [(unsigned char)i] of an [int]. *)
Definition uchar (i : Z) : N := Z.to_N (i mod 256).

(** The loop [for (int i = fst; i <= lst; i++) match[(unsigned char)i] = v],
    [n] counting the iterations left. *)
Fixpoint fill_loop (n : nat) (i : Z) (v : bool) (m : bitset) : bitset :=
  match n with
  | O => m
  | S n' => fill_loop n' (i + 1) v (bs_set m (uchar i) v)
  end.

(** [Token::Add(int fst, int lst)]: [lst] 0 adds one character, [lst] 1
    adds it with its other case, anything else adds the range. *)
Definition Add (m : bitset) (fst lst : Z) : bitset :=
  if lst =? 1 then
    let m := if (65 <=? fst) && (fst <=? 90)
             then bs_set m (Z.to_N (fst - 65 + 97)) true
             else if (97 <=? fst) && (fst <=? 122)
                  then bs_set m (Z.to_N (fst - 97 + 65)) true
                  else m in
    bs_set m (uchar fst) true
  else if lst =? 0 then bs_set m (uchar fst) true
  else fill_loop (Z.to_nat (lst - fst + 1)) fst true m.

(** [Token::Add(const char* sample)] *)
Fixpoint Add_sample (m : bitset) (sample : string) : bitset :=
  match sample with
  | EmptyString => m
  | String c rest =>
      if (N_of_ascii c =? 0)%N then m
      else Add_sample (bs_set m (N_of_ascii c) true) rest
  end.

(** [Token::Remove(int fst, int lst)] *)
Definition Remove (m : bitset) (fst lst : Z) : bitset :=
  let last := if lst =? 0 then fst else lst in
  fill_loop (Z.to_nat (last - fst + 1)) fst false m.

(** [Token::Remove(const char* sample)] *)
Fixpoint Remove_sample (m : bitset) (sample : string) : bitset :=
  match sample with
  | EmptyString => m
  | String c rest =>
      if (N_of_ascii c =? 0)%N then m
      else Remove_sample (bs_set m (N_of_ascii c) false) rest
  end.

(** The loop of [Token::GetSymbol], [n] counting the indices left below
    [match.size()]. *)
Fixpoint symbol_loop (n : nat) (i : N) (m : bitset) : Z :=
  match n with
  | O => 0
  | S n' => if m i then Z.of_N i else symbol_loop n' (i + 1) m
  end.

(** [Token::GetSymbol(int next)]: [next] is converted to [unsigned]. *)
Definition GetSymbol (m : bitset) (next : Z) : Z :=
  let i := next mod 2 ^ 32 in
  symbol_loop (Z.to_nat (maxCharNum - i)) (Z.to_N i) m.

(** The bytes of a C string, up to its NUL. *)
Fixpoint occurs (b : N) (sample : string) : bool :=
  match sample with
  | EmptyString => false
  | String c rest =>
      if (N_of_ascii c =? 0)%N then false
      else (b =? N_of_ascii c)%N || occurs b rest
  end.

(** [_Parser::Get_result]: the value written through [u], if any. *)
Definition Get_result (p : Parser) : option Interface :=
  match cntxU p with
  | Some (r :: _) => Some r
  | _ => None
  end.

(** ** Grammars of bounded depth *)

(** [fits H d t]: the calls of [_parse] that the node [t] can nest, its
    own included and those of the bodies it refers to, are at most [d]
    deep.  A production that refers to itself fits no depth. *)
Fixpoint fits (H : Host) (d : nat) (t : Tie) : bool :=
  match d with
  | O => false
  | S d' =>
      match t with
      | Token _ _ | Action _ | _Ctrl _ => true
      | _And use | _Or use => forallb (fits H d') use
      | _Cycle _ _ _ body => fits H d' body
      | Lexem _ use | Rule _ _ use =>
          match use with
          | None => true
          | Some h => fits H d' (defs H h)
          end
      end
  end.

(** The grammar of ini.cpp.  The productions are, by handle: 0 [Name],
    1 [Value], 2 [Equal], 3 [Left], 4 [Right], 5 [Delimiter], 6 [Item],
    7 [Section], 8 [Inidata].  ini.cpp leaves their names to [_setname],
    which builds them from the compiler's [typeid]; the names of the
    variables stand for them here. *)
Definition str_space_tab : string := String " " (String "009" "").
Definition str_newline : string := String "010" "".
Definition str_blanks : string :=
  String " " (String "009" (String "010" (String "013" ""))).

Definition ini_space : Tie := Token_s str_space_tab.
Definition ini_delimiter : Tie := Token_s str_blanks.
Definition ini_name : Tie :=
  Token (Add (Add (Add (Add_sample (fun _ => false) "_.,:(){}-#@&*|")
                        48 57) 97 122) 65 90)
        "_.,:(){}-#@&*|".
Definition ini_value : Tie :=
  Token (Remove_sample (Add (fun _ => false) 1 255) str_newline)
        (String "001" (String "-" (String "255" ""))).

Definition ini_Name := Lexem "Name" (Some 0%nat).
Definition ini_Value := Lexem "Value" (Some 1%nat).
Definition ini_Equal := Lexem "Equal" (Some 2%nat).
Definition ini_Left := Lexem "Left" (Some 3%nat).
Definition ini_Right := Lexem "Right" (Some 4%nat).
Definition ini_Delimiter := Lexem "Delimiter" (Some 5%nat).

Definition ini_Item (DoValue : list Interface -> Interface) :=
  Rule "Item" (Some DoValue) (Some 6%nat).
Definition ini_Section (DoSection : list Interface -> Interface) :=
  Rule "Section" (Some DoSection) (Some 7%nat).
Definition ini_Inidata := Rule "Inidata" None (Some 8%nat).

Definition ini_defs (DoSection DoValue : list Interface -> Interface)
    (h : nat) : Tie :=
  match h with
  | 0%nat => mk_Cycle 1 ini_name maxIterate maxIterate
  | 1%nat => Star ini_value
  | 2%nat => _And [Star ini_space; Token_s "="; Star ini_space]
  | 3%nat => _And [Star ini_space; Token_s "["; Star ini_space]
  | 4%nat => _And [Star ini_space; Token_s "]"; Star ini_space]
  | 5%nat => Star ini_delimiter
  | 6%nat => _And [ini_Name; ini_Equal; ini_Value; Token_s str_newline]
  | 7%nat => _And [ini_Left; ini_Name; ini_Right; Token_s str_newline]
  | 8%nat =>
      _And [ini_Delimiter;
            Star (_And [ini_Section DoSection; ini_Delimiter;
                        Star (_And [ini_Item DoValue; ini_Delimiter])])]
  | _ => Null
  end.

(** The context of ini.cpp: an [ini_parser], which is a [_Parser<Gen>]
    with its own [zero_parse]. *)
Definition host_ini (t : string)
    (DoSection DoValue : list Interface -> Interface) : Host :=
  mkHost t ParserU zero_parse_ini 0 (ini_defs DoSection DoValue).

(** A [_Base] context with the default hooks over the arena [d]. *)
Definition host_base_with (d : nat -> Tie) (t : string) : Host :=
  mkHost t BaseClass zero_parse_default 0 d.

(** ** The syntactic part of a grammar and of a context *)

(** The grammar with the reducers taken off its rules. *)
Fixpoint unbind (t : Tie) : Tie :=
  match t with
  | _And use => _And (map unbind use)
  | _Or use => _Or (map unbind use)
  | _Cycle min max flag body => _Cycle min max flag (unbind body)
  | Rule nm _ use => Rule nm None use
  | _ => t
  end.

(** Two contexts with the same cursor stack and mode level. *)
Definition same_syntax (p p' : Parser) : Prop :=
  cntxV p = cntxV p' /\ level p = level p'.

(** Two evaluations that both run on, or return the same status and
    contexts with the same cursor stack and mode level. *)
Definition same_result (r r' : result) : Prop :=
  match r, r' with
  | Some (s, q), Some (s', q') => s = s' /\ same_syntax q q'
  | None, None => True
  | _, _ => False
  end.

(** ** The frame of semantic values *)

(** The context [q] has the frame of values, the offset and the mode
    level of the context [p]. *)
Definition same_frame (p q : Parser) : Prop :=
  cntxU q = cntxU p /\ off q = off p /\ level q = level p.

(** What [_stub_call] appends to the frame, if the context has one. *)
Definition with_stub (H : Host) (u : option (list Interface))
    (b e : nat) (nm : string) : option (list Interface) :=
  match klass H, u with
  | ParserU, Some u =>
      Some (u ++ [Interface_stub b (Z.of_nat e - Z.of_nat b) nm])
  | _, _ => u
  end.

(** ** Literal lexems *)

(** A [char] passed for an [int]; plain [char] is signed here. *)
Definition char_int (c : ascii) : Z :=
  let n := Z.of_N (N_of_ascii c) in if n <? 128 then n else n - 256.

(** [Token(int fst, int lst)]: its name is [fst], a dash and [lst], each
    as a character. *)
Definition Token_range (fst lst : Z) : Tie :=
  Token (Add (fun _ => false) fst lst)
        (String (ascii_of_N (uchar fst))
           (String "-" (String (ascii_of_N (uchar lst)) ""))).

(** The characters of a C string: those before its first NUL. *)
Fixpoint c_chars (s : string) : list ascii :=
  match s with
  | EmptyString => []
  | String c rest =>
      if (N_of_ascii c =? 0)%N then [] else c :: c_chars rest
  end.

Definition c_str (s : string) : string := string_of_list_ascii (c_chars s).

(** [Token(literal[i], cs)], the [bool] passed for [lst]. *)
Definition Token_c (cs : bool) (c : ascii) : Tie :=
  Token_range (char_int c) (if cs then 1 else 0).

(** The body that [Lexem(const char* literal, bool cs)] is left with:
    none for the empty literal, the token of a single character, the
    sequence of the tokens of two characters or more. *)
Definition literal_body (literal : string) (cs : bool) : option Tie :=
  match c_chars literal with
  | [] => None
  | [c] => Some (Token_c cs c)
  | l => Some (_And (map (Token_c cs) l))
  end.

(** [Lexem(literal, cs)], its body held at the handle [h]. *)
Definition Lexem_literal (literal : string) (cs : bool) (h : nat) : Tie :=
  Lexem (c_str literal)
        (match literal_body literal cs with
         | Some _ => Some h
         | None => None
         end).

(** The byte [b] is the character [c] or, with [cs], the same letter in
    the other case. *)
Definition same_char (cs : bool) (c : ascii) (b : N) : bool :=
  let n := Z.of_N (N_of_ascii c) in
  let z := Z.of_N b in
  (z =? n)
  || cs && (((65 <=? n) && (n <=? 90) && (z =? n + 32))
            || ((97 <=? n) && (n <=? 122) && (z =? n - 32))).

(** How many leading characters of [l] the text has from [ptr] on. *)
Fixpoint matched (cs : bool) (l : list ascii) (t : string) (ptr : nat)
    : nat :=
  match l with
  | [] => O
  | c :: rest =>
      if same_char cs c (deref t ptr) then S (matched cs rest t (S ptr))
      else O
  end.

(** [eEof] when the byte at [ptr] is the sentinel. *)
Definition eof_at (t : string) (ptr : nat) : Z :=
  if (deref t ptr =? 0)%N then eEof else 0.

(** The bytes of the class [m] that the text has in a row from [ptr] on,
    counted up to [n]. *)
Fixpoint run (m : bitset) (t : string) (ptr : nat) (n : nat) : nat :=
  match n with
  | O => O
  | S n' => if m (deref t ptr) then S (run m t (S ptr) n') else O
  end.

(** ** The order of the cursors *)

(** The cursors [l] are in non-decreasing order, none before [a]. *)
Fixpoint ascending (a : nat) (l : list nat) : Prop :=
  match l with
  | [] => True
  | x :: rest => (a <= x)%nat /\ ascending x rest
  end.

(** The context [q] is the context [p] with cursors pushed in
    non-decreasing order from the cursor of [p], at the same mode
    level. *)
Definition pushes_in_order (p q : Parser) : Prop :=
  exists suf, cntxV q = cntxV p ++ suf /\
              ascending (back p) suf /\
              level q = level p.

(** Every value of the frame has a length that is not negative. *)
Definition spans_ok (p : Parser) : Prop :=
  match cntxU p with
  | Some u => Forall (fun v => 0 <= Ifc.length v) u
  | None => True
  end.

(** ** Rules over a sequence of elements *)

(** The elements that push at most one value each: terminals, callbacks,
    control statements and named productions. *)
Definition atom (t : Tie) : bool :=
  match t with
  | Token _ _ | Action _ | _Ctrl _ | Lexem _ _ | Rule _ _ _ => true
  | _ => false
  end.

Definition atom_name (t : Tie) : string :=
  match t with
  | Token _ nm | Lexem nm _ | Rule nm _ _ => nm
  | _ => EmptyString
  end.

(** The end of the span of a value. *)
Definition span_end (v : Interface) : nat :=
  Z.to_nat (Z.of_nat (Ifc.text v) + Ifc.length v).

(** The cursors that stand for the values [vals]: the begin and the end
    of each. *)
Definition cursors_of (vals : list Interface) : list nat :=
  flat_map (fun v => [Ifc.text v; span_end v]) vals.

(** The values follow one another in the text, none before [a], none of
    a negative length. *)
Fixpoint chain (a : nat) (vals : list Interface) : Prop :=
  match vals with
  | [] => True
  | v :: rest =>
      (a <= Ifc.text v)%nat /\ 0 <= Ifc.length v /\ chain (span_end v) rest
  end.

(** [l] is [l'] with some elements left out. *)
Inductive subseq {A : Type} : list A -> list A -> Prop :=
| subseq_nil : subseq [] []
| subseq_skip x l l' : subseq l l' -> subseq l (x :: l')
| subseq_take x l l' : subseq l l' -> subseq (x :: l) (x :: l').

(** No control statement of the node, and no repetition flag, carries
    [eSkip]. *)
Fixpoint skipless (t : Tie) : bool :=
  match t with
  | _Ctrl flg => negb (has flg eSkip)
  | _And use | _Or use => forallb skipless use
  | _Cycle _ _ flag body => negb (has flag eSkip) && skipless body
  | _ => true
  end.

(** The first section of the configuration text of ini.cpp. *)
Definition ini_owner : string :=
  " [ owner ]" ++ str_newline ++ "name=John Doe" ++ str_newline.

(** ** Default names *)

(** The loop of [_Tie::_setname]: it appends the decimal digits of the
    counter, the least significant first; an [int] has at most ten. *)
Fixpoint digits_loop (n : nat) (i : Z) : string :=
  match n with
  | O => EmptyString
  | S n' =>
      if i =? 0 then EmptyString
      else String (ascii_of_N (uchar (48 + i - Z.quot i 10 * 10)))
                  (digits_loop n' (Z.quot i 10))
  end.

(** [_setname(t, name)]: the name given to the node and the new value of
    the counter [cnt] of its class; [tid] is the [typeid] name of the
    class. *)
Definition _setname (tid : string) (cnt : Z) (name : option string)
    : string * Z :=
  match name with
  | Some nm => (c_str nm, cnt)
  | None => ((tid ++ digits_loop 10 (cnt + 1))%string, cnt + 1)
  end.

(** The number that a string of digits, the least significant first,
    stands for. *)
Fixpoint undigits (s : string) : Z :=
  match s with
  | EmptyString => 0
  | String c rest => Z.of_N (N_of_ascii c) - 48 + 10 * undigits rest
  end.

(** [Interface(const Interface& front, const Interface& back, name)]: the
    value that spans from [front] to [back]; [length] is a [size_t]. *)
Definition Interface_join (front back : Interface) (nm : string)
    : Interface :=
  mkInterface false (Ifc.text front)
    ((Z.of_nat (Ifc.text back) - Z.of_nat (Ifc.text front)
      + Ifc.length back) mod 2 ^ 64)
    nm.

(** * Properties *)

#[local] Arguments Z.lor : simpl never.
#[local] Arguments Z.land : simpl never.
#[local] Arguments Z.lnot : simpl never.
#[local] Arguments Z.eqb : simpl never.
#[local] Arguments Z.ltb : simpl never.
#[local] Arguments Z.gtb : simpl never.
#[local] Arguments Z.geb : simpl never.
#[local] Arguments Z.of_nat : simpl never.
#[local] Arguments Z.sub : simpl never.
#[local] Arguments Z.add : simpl never.

(** ** Status bits *)

Lemma has_true_iff s m : has s m = true <-> Z.land s m <> 0.
Proof.
  unfold has. rewrite negb_true_iff, Z.eqb_neq. tauto.
Qed.

Lemma has_false_iff s m : has s m = false <-> Z.land s m = 0.
Proof.
  unfold has. rewrite negb_false_iff, Z.eqb_eq. tauto.
Qed.

Lemma has_lor a b m : has (a ||| b) m = has a m || has b m.
Proof.
  unfold has. rewrite Z.land_lor_distr_l.
  destruct (Z.land a m =? 0) eqn:Ea, (Z.land b m =? 0) eqn:Eb; simpl;
    rewrite ?negb_true_iff, ?negb_false_iff, ?Z.eqb_eq, ?Z.eqb_neq in *;
    rewrite ?Z.lor_eq_0_iff; tauto.
Qed.

Lemma clr_same s m : has (clr s m) m = false.
Proof.
  apply has_false_iff. unfold clr.
  rewrite <- Z.land_assoc, (Z.land_comm (Z.lnot m)), Z.land_lnot_diag.
  apply Z.land_0_r.
Qed.

Lemma land_lnot_disjoint m k : Z.land m k = 0 -> Z.land (Z.lnot m) k = k.
Proof.
  intros D. apply Z.bits_inj'. intros n Hn.
  rewrite Z.land_spec, Z.lnot_spec by assumption.
  assert (B : Z.testbit (Z.land m k) n = false) by (rewrite D; apply Z.bits_0).
  rewrite Z.land_spec in B.
  destruct (Z.testbit m n), (Z.testbit k n); simpl in *; congruence.
Qed.

Lemma clr_other s m k : Z.land m k = 0 -> has (clr s m) k = has s k.
Proof.
  intros D. unfold has, clr.
  now rewrite <- Z.land_assoc, (land_lnot_disjoint _ _ D).
Qed.

(** A mask inside the cleared one is cleared too. *)
Lemma clr_sub s m k : Z.land (Z.lnot m) k = 0 -> has (clr s m) k = false.
Proof.
  intros D. apply has_false_iff. unfold clr.
  rewrite <- Z.land_assoc, D. apply Z.land_0_r.
Qed.

Lemma land_eOk s : Z.land s eOk = 0 \/ Z.land s eOk = 1.
Proof.
  unfold eOk. change 1 with (Z.ones 1) at 1 2.
  rewrite Z.land_ones by lia.
  change (2 ^ 1) with 2. pose proof (Z.mod_pos_bound s 2). lia.
Qed.

Lemma land_eError_low s n : 0 <= n < 31 -> Z.testbit (Z.land s eError) n = false.
Proof.
  intros Hn. rewrite Z.land_spec.
  replace (Z.testbit eError n) with false; [apply andb_false_r|].
  change eError with (- 2 ^ 31). rewrite Z.bits_opp by lia.
  change (Z.pred (2 ^ 31)) with (Z.ones 31).
  now rewrite Z.ones_spec_low by lia.
Qed.

(** The success test of the loops, [(stat & (eOk|eError)) == eOk]. *)
Lemma ok_test s :
  (Z.land s (eOk ||| eError) =? eOk) = has s eOk && negb (has s eError).
Proof.
  rewrite Z.land_lor_distr_r.
  destruct (has s eError) eqn:E.
  - rewrite andb_false_r. apply Z.eqb_neq. intros C.
    apply has_true_iff in E. apply E.
    apply Z.bits_inj'. intros n Hn. rewrite Z.bits_0.
    destruct (Z.ltb_spec n 31); [apply land_eError_low; lia|].
    assert (B : Z.testbit (Z.land s eOk ||| Z.land s eError) n = false).
    { rewrite C. unfold eOk. change 1 with (Z.ones 1).
      apply Z.ones_spec_high. lia. }
    rewrite Z.lor_spec in B. now apply orb_false_iff in B.
  - apply has_false_iff in E. rewrite E, Z.lor_0_r, andb_true_r.
    unfold has. destruct (land_eOk s) as [->| ->]; reflexivity.
Qed.

Lemma ok_test_true s :
  (Z.land s (eOk ||| eError) =? eOk) = true ->
  has s eOk = true /\ has s eError = false.
Proof.
  rewrite ok_test, andb_true_iff, negb_true_iff. tauto.
Qed.

(** ** The text and the default skipper *)

Lemma deref_nil k : deref "" k = 0%N.
Proof. now destruct k. Qed.

Lemma deref_tail t ptr k : deref (tail_from t ptr) k = deref t (ptr + k).
Proof.
  revert t. induction ptr as [|n IH]; intros t; [now destruct t|].
  destruct t as [|c t]; simpl.
  - now rewrite deref_nil.
  - apply IH.
Qed.

Lemma is_blank_0 : is_blank 0 = false.
Proof. reflexivity. Qed.

Lemma skip_blank_spec rest ptr :
  (ptr <= skip_blank rest ptr)%nat /\
  (forall k, (k < skip_blank rest ptr - ptr)%nat ->
             is_blank (deref rest k) = true) /\
  is_blank (deref rest (skip_blank rest ptr - ptr)) = false.
Proof.
  revert ptr. induction rest as [|c rest IH]; intros ptr; simpl.
  - rewrite Nat.sub_diag. repeat split; [lia | intros k; lia].
  - destruct (N_of_ascii c =? 0)%N eqn:E0.
    + rewrite Nat.sub_diag. repeat split; [lia | intros k; lia |].
      apply N.eqb_eq in E0. unfold deref. simpl. now rewrite E0.
    + destruct (is_blank (N_of_ascii c)) eqn:Eb.
      * destruct (IH (S ptr)) as (L & B & E).
        replace (skip_blank rest (S ptr) - ptr)%nat
          with (S (skip_blank rest (S ptr) - S ptr)) by lia.
        repeat split; [lia | | exact E].
        intros [|k] Hk; [exact Eb|]. apply B. lia.
      * rewrite Nat.sub_diag. repeat split; [lia | intros k; lia | exact Eb].
Qed.

Lemma zero_parse_default_spec t ptr :
  (ptr <= zero_parse_default t ptr)%nat /\
  (forall i, (ptr <= i < zero_parse_default t ptr)%nat ->
             is_blank (deref t i) = true) /\
  is_blank (deref t (zero_parse_default t ptr)) = false.
Proof.
  unfold zero_parse_default.
  destruct (skip_blank_spec (tail_from t ptr) ptr) as (L & B & E).
  set (q := skip_blank (tail_from t ptr) ptr) in *.
  repeat split; [exact L | |].
  - intros i Hi. specialize (B (i - ptr)%nat).
    rewrite deref_tail in B. replace (ptr + (i - ptr))%nat with i in B by lia.
    apply B. lia.
  - rewrite deref_tail in E. now replace (ptr + (q - ptr))%nat with q in E by lia.
Qed.

(** At the sentinel the default skipper stays where it is. *)
Lemma zero_parse_default_at_nul t ptr :
  deref t ptr = 0%N -> zero_parse_default t ptr = ptr.
Proof.
  intros Z0. destruct (zero_parse_default_spec t ptr) as (L & B & _).
  destruct (Nat.eq_dec (zero_parse_default t ptr) ptr) as [E|NE]; [exact E|].
  specialize (B ptr). rewrite Z0, is_blank_0 in B.
  assert (false = true) by (apply B; lia). discriminate.
Qed.

(** ** The context *)

Lemma back_push p x : back (push p x) = x.
Proof. unfold back, push. simpl. apply last_last. Qed.

Lemma cntxV_push p x : cntxV (push p x) = cntxV p ++ [x].
Proof. reflexivity. Qed.

Lemma cntxV_stub H p b e nm : cntxV (_stub_call H p b e nm) = cntxV p.
Proof.
  unfold _stub_call. destruct (klass H); [reflexivity|].
  now destruct (cntxU p).
Qed.

Lemma level_stub H p b e nm : level (_stub_call H p b e nm) = level p.
Proof.
  unfold _stub_call. destruct (klass H); [reflexivity|].
  now destruct (cntxU p).
Qed.

(** ** Terminals *)

(** C3.  [Token::_parse] always returns.  With the mode level not 0 it
    looks at the byte that [zero_parse] reaches from the current cursor,
    otherwise at the byte under the cursor.  If the byte is not in the
    class, the status is 0 and the context is unchanged.  If it is, the
    status is [eOk], with [eEof] added exactly when the next byte is the
    sentinel and no other bit; the new cursor is one byte after the
    matched byte; in syntactic mode the start of the span is pushed too and
    [_stub_call] records the one-byte span on the semantic stack, in
    lexical mode the semantic stack is untouched. *)
Theorem Token_parse_correct (H : Host) (f : nat) (m : bitset) (nm : string)
    (p : Parser) :
  let cc := if level p =? 0 then back p
            else zero_parse H (text H) (back p) in
  exists s q,
    parse H (S f) (Token m nm) p = Some (s, q) /\
    (m (deref (text H) cc) = false -> s = 0 /\ q = p) /\
    (m (deref (text H) cc) = true ->
       has s eOk = true /\
       (has s eEof = true <-> deref (text H) (S cc) = 0%N) /\
       clr s (eOk ||| eEof) = 0 /\
       back q = S cc /\
       level q = level p /\
       cntxV q = cntxV p ++ (if level p =? 0 then [S cc] else [cc; S cc]) /\
       cntxU q = (if level p =? 0 then cntxU p
                  else cntxU (_stub_call H p cc (S cc) nm)) /\
       (klass H = ParserU -> level p <> 0 ->
        forall u, cntxU p = Some u ->
                  cntxU q = Some (u ++ [Interface_stub cc 1 nm]))).
Proof.
  intros cc. simpl. unfold Token_parse. fold cc.
  destruct (m (deref (text H) cc)) eqn:M.
  - eexists _, _. split; [reflexivity|]. split; [discriminate|]. intros _.
    split; [destruct (deref (text H) (S cc) =? 0)%N; reflexivity|].
    split.
    { destruct (deref (text H) (S cc) =? 0)%N eqn:E.
      - apply N.eqb_eq in E. now rewrite E.
      - apply N.eqb_neq in E. split; [discriminate | tauto]. }
    split; [destruct (deref (text H) (S cc) =? 0)%N; reflexivity|].
    split; [apply back_push|].
    destruct (level p =? 0) eqn:L.
    + repeat split; try reflexivity.
      intros _ NZ. apply Z.eqb_eq in L. contradiction.
    + repeat split.
      * simpl. now rewrite level_stub.
      * simpl. now rewrite cntxV_stub, <- app_assoc.
      * intros K _ u U. unfold _stub_call. rewrite K, U.
        cbn [cntxU push set_cntxV set_frame].
        replace (Z.of_nat (S cc) - Z.of_nat cc) with 1 by lia. reflexivity.
  - eexists _, _. split; [reflexivity|]. split; [tauto | discriminate].
Qed.

Lemma Token_parse_correct_witness :
  exists q,
    parse (host_U " a" (fun _ => Null)) 1 (Token_s "a")
      (start (host_U " a" (fun _ => Null))) = Some (eOk ||| eEof, q) /\
    back q = 2%nat /\
    cntxU q = Some [Interface_stub 1 1 "a"].
Proof.
  destruct (Token_parse_correct (host_U " a" (fun _ => Null)) 0
              (sample_set "a") "a" (start (host_U " a" (fun _ => Null))))
    as (s & q & E & _ & M).
  destruct M as (_ & _ & _ & B & _ & _ & _ & U); [reflexivity|].
  exists q. split; [|split].
  - unfold Token_s. rewrite E. vm_compute in E. injection E as <- _.
    reflexivity.
  - exact B.
  - exact (U eq_refl ltac:(discriminate) [] eq_refl).
Defined.

(** ** Named productions without a body *)

(** C8.  A [Rule] without body, or evaluated at mode level 0, returns
    [eError|eBadRule] and leaves the context as it was; a [Lexem] without
    body returns [eError|eBadLexem] likewise.  The result is there with
    any fuel, the least included, so neither a body nor a reducer is
    evaluated. *)
Theorem named_production_without_body (H : Host) (f : nat) (nm : string)
    (cb : option (list Interface -> Interface)) (use : option nat)
    (p : Parser) (Hbad : use = None \/ level p = 0) :
  parse H (S f) (Rule nm cb use) p = Some (eError ||| eBadRule, p) /\
  parse H (S f) (Lexem nm None) p = Some (eError ||| eBadLexem, p) /\
  has (eError ||| eBadRule) eError = true /\
  has (eError ||| eBadRule) eBadRule = true /\
  has (eError ||| eBadLexem) eError = true /\
  has (eError ||| eBadLexem) eBadLexem = true /\
  has (eError ||| eBadRule) eOk = false /\
  has (eError ||| eBadLexem) eOk = false.
Proof.
  repeat split; try reflexivity.
  simpl. destruct Hbad as [-> | L]; [reflexivity|].
  destruct use; [|reflexivity]. now rewrite L.
Qed.

Lemma named_production_without_body_witness :
  parse (host_base "a") 1 (Rule "R" (Some ByPass) None) (start (host_base "a"))
  = Some (eError ||| eBadRule, start (host_base "a")).
Proof.
  apply (named_production_without_body (host_base "a") 0 "R" (Some ByPass)
           None (start (host_base "a"))).
  left. reflexivity.
Defined.

(** ** The tail of the text *)



(** ** Sequences *)

Lemma clr_lor a b m : clr (a ||| b) m = clr a m ||| clr b m.
Proof. unfold clr. apply Z.land_lor_distr_l. Qed.

Lemma clr_idem a m : clr (clr a m) m = clr a m.
Proof. unfold clr. now rewrite <- Z.land_assoc, Z.land_diag. Qed.

Lemma vresize_length v : vresize v (List.length v) = v.
Proof.
  unfold vresize. rewrite firstn_all, Nat.sub_diag. apply app_nil_r.
Qed.

Lemma length_vresize v n : List.length (vresize v n) = n.
Proof.
  unfold vresize. rewrite length_app, length_firstn, repeat_length. lia.
Qed.

Lemma vresize_idem v n : vresize (vresize v n) n = vresize v n.
Proof.
  rewrite <- (length_vresize v n) at 2. apply vresize_length.
Qed.

Lemma resize_length p : resize p (List.length (cntxV p)) = p.
Proof.
  unfold resize. rewrite vresize_length. now destruct p.
Qed.

(** A sequence passes on no [eRet] of its children: when no child returns
    [eTry], the status of a sequence that succeeds is without [eRet]. *)
Lemma And_never_forwards_Ret H rec size use :
  (forall t, In t use ->
     forall p r q, rec t p = Some (r, q) -> has r eTry = false) ->
  forall stat save p s q,
    has stat eTry = false -> has stat eRet = false ->
    and_loop H rec size use stat save p = Some (s, q) ->
    has s eOk = true ->
    has s eRet = false.
Proof.
  induction use as [|t use IH]; intros K stat save p s q T R; cbn [and_loop].
  - intros [= <- _] _. rewrite T, !has_lor, clr_other by reflexivity.
    now rewrite R.
  - destruct (rec t p) as [[r p1]|] eqn:E; [|discriminate].
    pose proof (K t (or_introl eq_refl) _ _ _ E) as Tr.
    destruct (Z.land (stat ||| r) (eOk ||| eError) =? eOk).
    + apply IH.
      * intros t' I. apply K. now right.
      * rewrite clr_other by reflexivity. now rewrite has_lor, T, Tr.
      * now apply clr_sub.
    + intros [= <- _] Ok. exfalso. revert Ok.
      rewrite has_lor, clr_sub by reflexivity.
      match goal with |- context [if ?c then eError else eErr] =>
        destruct c end; discriminate.
Qed.

(** C6 at concrete inputs.  [Return] returns a status with [eRet].  As
    first child of a sequence it does not end the sequence: on the text
    ["b"] the next child is evaluated, fails, and the sequence returns 0,
    with neither [eRet] nor [eOk]; on the text ["a"] the next child
    consumes the byte and the sequence returns [eOk] without [eRet].  As
    last child it fares no better: the increment of the loop clears
    [eRet] before the loop is left, and the sequence returns [eOk] without
    [eRet]. *)
Theorem And_drops_Ret :
  parse (host_base "b") 1 Return (start (host_base "b"))
  = Some (eOk ||| eRet, start (host_base "b")) /\
  has (eOk ||| eRet) eRet = true /\
  parse (host_base "b") 2 (_And [Return; Token_s "a"]) (start (host_base "b"))
  = Some (0, start (host_base "b")) /\
  has 0 eRet = false /\ has 0 eOk = false /\
  parse (host_base "a") 2 (_And [Return; Token_s "a"]) (start (host_base "a"))
  = Some (eOk ||| eEof, mkParser [0; 0; 0; 1]%nat 1 None 0) /\
  parse (host_base "a") 2 (_And [Token_s "a"; Return]) (start (host_base "a"))
  = Some (eOk ||| eEof, mkParser [0; 0; 0; 1]%nat 1 None 0) /\
  has (eOk ||| eEof) eRet = false.
Proof.
  repeat split.
Qed.

(** C5 fails as stated: on the text ["ab"] both sequences succeed, and
    the one with [Skip] ends with the cursor after ["a"], the other after
    ["ab"]. *)
Lemma Skip_changes_the_final_cursor :
  exists s1 q1 s2 q2,
    parse (host_base "ab") 2 (_And [Token_s "a"; Skip; Token_s "b"])
      (start (host_base "ab")) = Some (s1, q1) /\
    parse (host_base "ab") 2 (_And [Token_s "a"; Token_s "b"])
      (start (host_base "ab")) = Some (s2, q2) /\
    has s1 eOk = true /\ has s2 eOk = true /\
    back q1 = 1%nat /\ back q2 = 2%nat /\ back q1 <> back q2.
Proof.
  eexists _, _, _, _. repeat split. vm_compute. discriminate.
Qed.

Lemma parse_And H f use p :
  parse H (S f) (_And use) p
  = and_loop H (parse H f) (List.length (cntxV p)) use 0 0%nat p.
Proof. reflexivity. Qed.

Lemma parse_Ctrl H f flg p : parse H (S f) (_Ctrl flg) p = Some (flg, p).
Proof. reflexivity. Qed.

(** The sequences [x + y] and [x + Skip() + y] side by side: [x] and [y]
    are evaluated on the same contexts in both. *)
Lemma and_skip_compare (H : Host) (f : nat) (x y : Tie) (p : Parser) :
  match parse H (S f) (_And [x; y]) p,
        parse H (S f) (_And [x; Skip; y]) p with
  | Some (s2, q2), Some (s1, q1) =>
      has s1 eOk = has s2 eOk /\
      (has s2 eOk = true ->
         s1 = s2 /\ level q1 = level q2 /\ cntxU q1 = cntxU q2 /\
         exists sx px sy py,
           parse H f x p = Some (sx, px) /\
           parse H f y px = Some (sy, py) /\
           cntxV q1 = (if (List.length (cntxV px) =? 0)%nat then cntxV py
                       else vresize (cntxV py) (List.length (cntxV px))) /\
           cntxV q1 = if (List.length (cntxV px) =? 0)%nat then cntxV q2
                      else vresize (cntxV q2) (List.length (cntxV px))) /\
      (has s2 eOk = false -> q1 = q2)
  | None, None => True
  | _, _ => False
  end.
Proof.
  destruct f as [|f]; [exact I|].
  rewrite !parse_And. cbn [and_loop]. unfold Skip.
  destruct (parse H (S f) x p) as [[sx px]|] eqn:X; [|exact I].
  rewrite Z.lor_0_l.
  destruct (Z.land sx (eOk ||| eError) =? eOk) eqn:T.
  - (* x succeeded *)
    rewrite Nat.eqb_refl.
    set (sv := if has sx eSkip then List.length (cntxV px) else 0%nat).
    set (st := clr sx (eSkip ||| eRet ||| eOk)).
    apply ok_test_true in T. destruct T as [_ NE].
    assert (NEst : has st eError = false)
      by (unfold st; now rewrite clr_other).
    rewrite parse_Ctrl.
    assert (Tk : (Z.land (st ||| (eOk ||| eSkip)) (eOk ||| eError) =? eOk)
                 = true).
    { rewrite ok_test, !has_lor, NEst.
      replace (has eOk eOk) with true by reflexivity.
      replace (has eOk eError) with false by reflexivity.
      replace (has eSkip eError) with false by reflexivity.
      now rewrite orb_true_r. }
    rewrite Tk.
    assert (Pk : (if (sv =? 0)%nat then px else resize px sv) = px).
    { unfold sv. destruct (has sx eSkip); [|reflexivity].
      destruct (List.length (cntxV px) =? 0)%nat; [reflexivity|].
      apply resize_length. }
    rewrite Pk.
    assert (Sk : has (st ||| (eOk ||| eSkip)) eSkip = true).
    { rewrite !has_lor.
      replace (has eSkip eSkip) with true by reflexivity.
      now rewrite !orb_true_r. }
    rewrite Sk.
    assert (Ck : clr (st ||| (eOk ||| eSkip)) (eSkip ||| eRet ||| eOk) = st).
    { rewrite clr_lor. unfold st at 1. rewrite clr_idem.
      replace (clr (eOk ||| eSkip) (eSkip ||| eRet ||| eOk)) with 0
        by reflexivity.
      apply Z.lor_0_r. }
    rewrite Ck.
    destruct (parse H (S f) y px) as [[sy py]|] eqn:Y; [|exact I].
    destruct (Z.land (st ||| sy) (eOk ||| eError) =? eOk) eqn:Ty.
    + (* y succeeded *)
      split; [reflexivity|]. split.
      * intros _. split; [reflexivity|].
        assert (Lk : forall n, level (if (n =? 0)%nat then py else resize py n)
                               = level py)
          by (intros n; now destruct (n =? 0)%nat).
        assert (Uk : forall n, cntxU (if (n =? 0)%nat then py else resize py n)
                               = cntxU py)
          by (intros n; now destruct (n =? 0)%nat).
        rewrite !Lk, !Uk. split; [reflexivity|]. split; [reflexivity|].
        exists sx, px, sy, py. split; [reflexivity|]. split; [exact Y|].
        split; [now destruct (List.length (cntxV px) =? 0)%nat|].
        unfold sv. destruct (has sx eSkip).
        -- destruct (List.length (cntxV px) =? 0)%nat; [reflexivity|].
           cbn [resize cntxV set_cntxV]. now rewrite vresize_idem.
        -- simpl (0 =? 0)%nat. cbv iota.
           now destruct (List.length (cntxV px) =? 0)%nat.
      * assert (K : has ((if has (clr (st ||| sy) (eSkip ||| eRet ||| eOk))
                               eTry then eRet else eNone) ||| eOk
                         ||| clr (clr (st ||| sy) (eSkip ||| eRet ||| eOk))
                               (eTry ||| eSkip)) eOk = true).
        { rewrite !has_lor. replace (has eOk eOk) with true by reflexivity.
          now rewrite orb_true_r. }
        rewrite K. discriminate.
    + (* y failed *)
      assert (K : forall s, has ((if has s (eEof ||| eOver) then eError
                                  else eErr)
                                 ||| clr s (eTry ||| eSkip ||| eOk)) eOk
                            = false).
      { intros s. rewrite has_lor, clr_sub by reflexivity.
        now destruct (has s (eEof ||| eOver)). }
      rewrite !K. split; [reflexivity|]. split; [discriminate|].
      reflexivity.
  - (* x failed *)
    split; [reflexivity|]. split; [|reflexivity].
    intros K. exfalso. revert K.
    rewrite has_lor, clr_sub by reflexivity.
    match goal with |- context [if ?c then eError else eErr] =>
      destruct c end; discriminate.
Qed.

(** ** Repetitions *)

Lemma has_lor_r s a b : has s (a ||| b) = has s a || has s b.
Proof.
  unfold has. rewrite Z.land_lor_distr_r.
  destruct (Z.land s a =? 0) eqn:Ea, (Z.land s b =? 0) eqn:Eb; simpl;
    rewrite ?negb_true_iff, ?negb_false_iff, ?Z.eqb_eq, ?Z.eqb_neq in *;
    rewrite ?Z.lor_eq_0_iff; tauto.
Qed.

Lemma has_0 m : has 0 m = false.
Proof. unfold has. now rewrite Z.land_0_l. Qed.

Lemma has_eOk_lor s : has (s ||| eOk) eOk = true.
Proof. rewrite has_lor. apply orb_true_r. Qed.

Lemma cycle_loop_correct rec body min flag
    (total : forall p, rec body p <> None) :
  forall n i stat p,
  exists j s q,
    cycle_loop rec body min flag n i stat p = Some (j, (s, q)) /\
    i <= j <= i + Z.of_nat n /\
    (j < i + Z.of_nat n -> j < min -> has s eOk = false) /\
    (j < i + Z.of_nat n -> min <= j -> has s eOk = true) /\
    (j = i + Z.of_nat n ->
       has s eOk = true /\
       (has flag eOver = true -> has s eOver = true) /\
       (has stat transient = false ->
        has s transient = has flag transient)) /\
    ((forall p' r q', rec body p' = Some (r, q') -> has r eOver = false) ->
     has stat eOver = false ->
     (has s eOver = true <-> j = i + Z.of_nat n /\ has flag eOver = true)).
Proof.
  induction n as [|n IH]; intros i stat p; cbn [cycle_loop].
  - eexists _, _, _. split; [reflexivity|].
    rewrite Z.add_0_r. split; [lia|]. split; [lia|]. split; [lia|]. split.
    + intros _. split; [apply has_eOk_lor|]. split.
      * intros F. now rewrite !has_lor, F, orb_true_r.
      * intros T. rewrite !has_lor, T. simpl.
        replace (has eOk transient) with false by reflexivity.
        apply orb_false_r.
    + intros _ S0. rewrite !has_lor, S0. simpl.
      replace (has eOk eOver) with false by reflexivity.
      rewrite orb_false_r. intuition.
  - destruct (rec body p) as [[r p1]|] eqn:B; [|now destruct (total p)].
    destruct (Z.land (stat ||| r) (eOk ||| eError) =? eOk) eqn:T.
    + destruct (IH (i + 1)
                  (clr (stat ||| r) (e1st ||| eTry ||| eSkip ||| eRet ||| eOk))
                  p1)
        as (j & s & q & E & R & Lo & Hi & Full & Ov).
      exists j, s, q. split; [exact E|].
      split; [lia|]. split; [intros; apply Lo; lia|].
      split; [intros; apply Hi; lia|]. split.
      * intros J. destruct Full as (A & B' & C); [lia|].
        split; [exact A|]. split; [exact B'|]. intros _. apply C.
        now apply clr_sub.
      * intros NoOv S0. destruct Ov as [O1 O2]; [exact NoOv | |].
        { rewrite clr_other by reflexivity.
          now rewrite has_lor, S0, (NoOv _ _ _ B). }
        split.
        -- intros O. destruct (O1 O). split; [lia | assumption].
        -- intros [J F]. apply O2. split; [lia | assumption].
    + exists i. eexists _, _. split; [reflexivity|].
      split; [lia|]. split; [|split; [|split]].
      * intros _ L. apply Z.ltb_lt in L. rewrite L. apply clr_same.
      * intros _ L. apply Z.ltb_ge in L. rewrite L. apply has_eOk_lor.
      * lia.
      * intros NoOv S0. split; [|lia]. intros O. exfalso. revert O.
        destruct (i <? min).
        -- rewrite clr_other by reflexivity.
           now rewrite has_lor, S0, (NoOv _ _ _ B).
        -- rewrite !has_lor, S0, (NoOv _ _ _ B). discriminate.
Qed.




(** ** Cursors stay within the text *)

Lemma strlen_spec t :
  deref t (strlen t) = 0%N /\
  forall i, (i < strlen t)%nat -> deref t i <> 0%N.
Proof.
  induction t as [|c t [IH1 IH2]]; simpl.
  - split; [reflexivity | intros i; lia].
  - destruct (N_of_ascii c =? 0)%N eqn:E.
    + apply N.eqb_eq in E. split; [exact E | intros i; lia].
    + apply N.eqb_neq in E. split; [exact IH1|].
      intros [|i] Hi; [exact E|]. apply IH2. lia.
Qed.

Lemma zero_parse_default_bounded t ptr :
  (ptr <= strlen t)%nat -> (zero_parse_default t ptr <= strlen t)%nat.
Proof.
  intros L. destruct (zero_parse_default_spec t ptr) as (_ & B & _).
  destruct (le_lt_dec (zero_parse_default t ptr) (strlen t)) as [K|K];
    [exact K|].
  specialize (B (strlen t)). destruct (strlen_spec t) as [Z0 _].
  rewrite Z0, is_blank_0 in B.
  assert (false = true) by (apply B; lia). discriminate.
Qed.

Lemma bounded_back H p : bounded H p -> (back p <= strlen (text H))%nat.
Proof.
  unfold bounded, back. intros B.
  destruct (cntxV p) as [|c v] eqn:E; [simpl; lia|].
  rewrite <- E in *. rewrite Forall_forall in B. apply B.
  rewrite E. destruct (exists_last (l := c :: v)) as (v' & x & ->);
    [discriminate|].
  rewrite last_last. apply in_or_app. right. now left.
Qed.

Lemma bounded_push H p c :
  bounded H p -> (c <= strlen (text H))%nat -> bounded H (push p c).
Proof.
  unfold bounded, push. simpl. intros B L.
  apply Forall_app. split; [exact B|]. now constructor.
Qed.

Lemma Forall_cut {A} (P : A -> Prop) (n : nat) (l : list A) (F : Forall P l) :
  Forall P (firstn n l) /\ Forall P (skipn n l).
Proof.
  rewrite <- (firstn_skipn n l) in F. now apply Forall_app in F.
Qed.

Lemma Forall_firstn {A} (P : A -> Prop) n l (F : Forall P l) :
  Forall P (firstn n l).
Proof. apply (Forall_cut P n l F). Qed.

Lemma Forall_skipn {A} (P : A -> Prop) n l (F : Forall P l) :
  Forall P (skipn n l).
Proof. apply (Forall_cut P n l F). Qed.

Lemma bounded_resize H p n : bounded H p -> bounded H (resize p n).
Proof.
  unfold bounded, resize, vresize. simpl. intros B.
  apply Forall_app. split; [now apply Forall_firstn|].
  apply Forall_forall. intros x I. apply repeat_spec in I. subst. lia.
Qed.

Lemma cntxV_erase H p low up :
  cntxV (_erase H p low up) = verase (cntxV p) low up.
Proof.
  unfold _erase. destruct (klass H); [reflexivity|].
  destruct (cntxU p); [|reflexivity].
  now destruct (level p =? 0).
Qed.

Lemma level_erase H p low up : level (_erase H p low up) = level p.
Proof.
  unfold _erase. destruct (klass H); [reflexivity|].
  destruct (cntxU p); [|reflexivity].
  now destruct (level p =? 0).
Qed.

Lemma bounded_erase H p low up : bounded H p -> bounded H (_erase H p low up).
Proof.
  unfold bounded. rewrite cntxV_erase. intros B.
  unfold verase, erase_tail, erase_range.
  destruct (up =? 0)%nat; [now apply Forall_firstn|].
  apply Forall_app. split; [now apply Forall_firstn | now apply Forall_skipn].
Qed.

Lemma bounded_collapse H p n : bounded H p -> bounded H (collapse p n).
Proof.
  intros B. pose proof (bounded_back _ _ B) as K.
  unfold bounded, collapse, vresize in *. cbn [cntxV set_cntxV].
  apply Forall_app. split.
  - apply Forall_firstn.
    destruct (S n <? List.length (cntxV p))%nat; [|exact B].
    apply Forall_app. split; [now apply Forall_firstn|].
    constructor; [exact K | now apply Forall_skipn].
  - apply Forall_forall. intros x I. apply repeat_spec in I. subst. lia.
Qed.

Section Bounded.

Variable H : Host.
Hypothesis Hzp : zero_parse H = zero_parse_default.
Hypothesis Hdefs : forall h, nul_free (defs H h) = true.

Lemma bounded_set_level p l : bounded H p -> bounded H (set_level p l).
Proof. exact (fun B => B). Qed.

Lemma bounded_set_frame p u o : bounded H p -> bounded H (set_frame p u o).
Proof. exact (fun B => B). Qed.

Lemma bounded_stub p b e nm : bounded H p -> bounded H (_stub_call H p b e nm).
Proof. unfold bounded. now rewrite cntxV_stub. Qed.

Lemma bounded_pre_call p cb : bounded H p -> bounded H (snd (_pre_call H p cb)).
Proof.
  unfold _pre_call. destruct (klass H); [trivial|]. now destruct cb.
Qed.

Lemma bounded_post_call p up : bounded H p -> bounded H (_post_call H p up).
Proof. unfold _post_call. now destruct (klass H). Qed.

Lemma bounded_zero_parse p :
  bounded H p -> (zero_parse H (text H) (back p) <= strlen (text H))%nat.
Proof.
  intros B. rewrite Hzp. apply zero_parse_default_bounded.
  now apply bounded_back.
Qed.

Lemma Token_bounded m nm p :
  m 0%N = false -> bounded H p -> bounded H (snd (Token_parse H m nm p)).
Proof.
  intros M0 B. unfold Token_parse.
  set (cc := if level p =? 0 then back p else zero_parse H (text H) (back p)).
  assert (Lcc : (cc <= strlen (text H))%nat).
  { unfold cc. destruct (level p =? 0);
      [now apply bounded_back | now apply bounded_zero_parse]. }
  destruct (m (deref (text H) cc)) eqn:M; [|exact B].
  assert (NZ : deref (text H) cc <> 0%N) by (intros Z0; congruence).
  assert (cc <> strlen (text H))
    by (intros ->; now destruct (strlen_spec (text H))).
  cbn [snd]. apply bounded_push; [|lia].
  destruct (level p =? 0); [exact B|].
  apply bounded_push; [now apply bounded_stub | exact Lcc].
Qed.

Lemma and_loop_bounded rec size use :
  (forall t, In t use -> keeps_bounded H rec t) ->
  forall stat save p s q,
    bounded H p -> and_loop H rec size use stat save p = Some (s, q) ->
    bounded H q.
Proof.
  induction use as [|t use IH]; intros K stat save p s q B; cbn [and_loop].
  - now intros [= _ <-].
  - destruct (rec t p) as [[r p1]|] eqn:R; [|discriminate].
    assert (B1 : bounded H p1) by (eapply (K t); [now left | exact B | exact R]).
    destruct (Z.land (stat ||| r) (eOk ||| eError) =? eOk).
    + apply IH; [intros; apply K; now right|].
      destruct (save =? 0)%nat; [exact B1 | now apply bounded_resize].
    + intros [= _ <-]. now apply bounded_erase.
Qed.

Lemma or_loop_bounded rec org size use :
  (org <= strlen (text H))%nat ->
  (forall t, In t use -> keeps_bounded H rec t) ->
  forall stat max tmp p s q,
    bounded H p -> or_loop H rec org size use stat max tmp p = Some (s, q) ->
    bounded H q.
Proof.
  intros Lo.
  induction use as [|t use IH]; intros K stat max tmp p s q B; cbn [or_loop].
  - now intros [= _ <-].
  - set (p0 := if (size <? List.length (cntxV p))%nat then push p org else p).
    assert (B0 : bounded H p0)
      by (unfold p0; destruct (size <? _)%nat;
          [now apply bounded_push | exact B]).
    destruct (rec t p0) as [[r p1]|] eqn:R; [|discriminate].
    assert (B1 : bounded H p1)
      by (eapply (K t); [now left | exact B0 | exact R]).
    assert (K' : forall t, In t use -> keeps_bounded H rec t)
      by (intros; apply K; now right).
    match goal with |- (if ?c then _ else _) = _ -> _ => destruct c end.
    + set (p2 := if (size <? List.length (cntxV p))%nat
                 then _erase H p1 size (S (List.length (cntxV p))) else p1).
      assert (B2 : bounded H p2)
        by (unfold p2; destruct (size <? _)%nat;
            [now apply bounded_erase | exact B1]).
      destruct (has (stat ||| r) (eRet ||| e1st ||| eError)).
      * now intros [= _ <-].
      * now apply IH.
    + apply IH; [exact K'|].
      destruct (List.length (cntxV p) <? List.length (cntxV p1))%nat;
        [now apply bounded_erase | exact B1].
Qed.

Lemma cycle_loop_bounded rec body min flag :
  keeps_bounded H rec body ->
  forall n i stat p j s q,
    bounded H p ->
    cycle_loop rec body min flag n i stat p = Some (j, (s, q)) ->
    bounded H q.
Proof.
  intros K. induction n as [|n IH]; intros i stat p j s q B; cbn [cycle_loop].
  - intros E. inversion E. now subst.
  - destruct (rec body p) as [[r p1]|] eqn:R; [|discriminate].
    assert (B1 : bounded H p1) by (eapply K; [exact B | exact R]).
    destruct (Z.land (stat ||| r) (eOk ||| eError) =? eOk).
    + now apply IH.
    + intros E. inversion E. now subst.
Qed.

(** The invariant of the interpreter: over a grammar whose terminals do
    not accept NUL, with the default skipper, no cursor is ever pushed
    past the sentinel. *)
Lemma parse_bounded f :
  forall t, nul_free t = true -> keeps_bounded H (parse H f) t.
Proof.
  induction f as [|f IH]; intros t NF p s q B; [discriminate|].
  destruct t as [m nm|a|flg|use|use|mn mx flag body|nm use|nm cb use];
    cbn [parse].
  - intros [= E]. apply (f_equal snd) in E. cbn [snd] in E. rewrite <- E.
    apply Token_bounded; [|exact B].
    simpl in NF. now apply negb_true_iff in NF.
  - unfold Action_parse. now intros [= _ <-].
  - now intros [= _ <-].
  - apply and_loop_bounded; [|exact B].
    intros t I. apply IH. simpl in NF. rewrite forallb_forall in NF. auto.
  - apply or_loop_bounded; [now apply bounded_back | | exact B].
    intros t I. apply IH. simpl in NF. rewrite forallb_forall in NF. auto.
  - destruct (cycle_loop (parse H f) body mn flag (Z.to_nat mx) 0 0 p)
      as [[j [s' q']]|] eqn:C; [|discriminate].
    intros [= <- <-]. eapply cycle_loop_bounded; [|exact B | exact C].
    apply IH. exact NF.
  - destruct use as [h|]; [|now intros [= _ <-]].
    destruct ((level p =? 0) || is_Action (defs H h)).
    + intros E. eapply (IH (defs H h)); [apply Hdefs | exact B | exact E].
    + match goal with |- match parse H f _ ?p0 with _ => _ end = _ -> _ =>
        assert (B0 : bounded H p0)
          by (apply bounded_set_level, bounded_push;
              [exact B | now apply bounded_zero_parse]);
        destruct (parse H f (defs H h) p0) as [[st p1]|] eqn:E;
          [|discriminate]
      end.
      assert (B1 : bounded H p1)
        by (eapply (IH (defs H h)); [apply Hdefs | exact B0 | exact E]).
      match goal with |- (if ?c then _ else _) = _ -> _ => destruct c end;
        intros [= _ <-].
      * now apply bounded_collapse, bounded_stub, bounded_set_level.
      * now apply bounded_resize, bounded_set_level.
  - destruct use as [h|]; [|now intros [= _ <-]].
    destruct (level p =? 0); [now intros [= _ <-]|].
    destruct (is_Action (defs H h)).
    + intros E. eapply (IH (defs H h)); [apply Hdefs | exact B | exact E].
    + pose proof (bounded_pre_call p cb B) as B0.
      destruct (_pre_call H p cb) as [up p0]. cbn [snd] in B0.
      destruct (parse H f (defs H h) p0) as [[st p1]|] eqn:E; [|discriminate].
      assert (B1 : bounded H p1)
        by (eapply (IH (defs H h)); [apply Hdefs | exact B0 | exact E]).
      match goal with |- (if ?c then _ else _) = _ -> _ => destruct c end;
        intros [= _ <-].
      * now apply bounded_post_call, bounded_collapse.
      * now apply bounded_post_call, bounded_resize.
Qed.

End Bounded.

(** C10.  A terminal whose class does not contain NUL, evaluated with the
    cursor, after the skipping of syntactic mode, on the sentinel, returns
    0 and leaves the context, cursor stack and semantic stack, as it was.
    So over a grammar all of whose terminals are such, with the default
    skipper, which stops at the sentinel, evaluation keeps every cursor
    within the text, and the cursor after [_analyze] is not past the
    sentinel. *)
Theorem Token_stops_at_sentinel (H : Host)
    (Hzp : zero_parse H = zero_parse_default)
    (Hdefs : forall h, nul_free (defs H h) = true) :
  (forall f m nm p,
     m 0%N = false ->
     deref (text H) (if level p =? 0 then back p
                     else zero_parse H (text H) (back p)) = 0%N ->
     parse H (S f) (Token m nm) p = Some (0, p)) /\
  (forall f t p s q,
     nul_free t = true -> bounded H p -> parse H f t p = Some (s, q) ->
     bounded H q /\ (back q <= strlen (text H))%nat) /\
  (forall f root s q,
     nul_free root = true ->
     _analyze H f root (new_parser H) = Some (s, q) ->
     (back q <= strlen (text H))%nat).
Proof.
  split; [|split].
  - intros f m nm p M0 Z0. cbn [parse]. unfold Token_parse.
    now rewrite Z0, M0.
  - intros f t p s q NF B E.
    assert (bounded H q) by (eapply parse_bounded; eassumption).
    split; [assumption | now apply bounded_back].
  - intros f root s q NF E. apply bounded_back.
    eapply parse_bounded; try eassumption.
    repeat apply bounded_push; try lia.
    unfold bounded, new_parser. simpl. constructor.
Qed.

Lemma Token_stops_at_sentinel_witness :
  parse (host_base "ab") 1 (Token_s "ab") (push (start (host_base "ab")) 2%nat)
  = Some (0, push (start (host_base "ab")) 2%nat) /\
  exists s q,
    _analyze (host_base "ab") 2 (mk_Cycle 0 (Token_s "ab") 10 10)
      (new_parser (host_base "ab")) = Some (s, q) /\
    (back q <= strlen "ab")%nat.
Proof.
  destruct (Token_stops_at_sentinel (host_base "ab") eq_refl
              (fun _ => eq_refl)) as (T & _ & A).
  split.
  - apply T; reflexivity.
  - eexists _, _. split; [reflexivity|].
    eapply (A 2%nat (mk_Cycle 0 (Token_s "ab") 10 10)); reflexivity.
Defined.

(** ** Alternations *)

Lemma last_app_r {A} (l l' : list A) d : last (l ++ l') d = last l' (last l d).
Proof.
  induction l' as [|x l' IH] using rev_ind.
  - now rewrite app_nil_r.
  - now rewrite app_assoc, !last_last.
Qed.

Lemma firstn_exact {A} (l l' : list A) : firstn (List.length l) (l ++ l') = l.
Proof.
  rewrite <- (Nat.add_0_r (List.length l)), firstn_app_2.
  simpl. apply app_nil_r.
Qed.

Lemma skipn_exact {A} (l l' : list A) : skipn (List.length l) (l ++ l') = l'.
Proof.
  rewrite skipn_app, skipn_all, Nat.sub_diag. reflexivity.
Qed.

(** The loop of [_Or::_parse] computes what [or_abs] computes from the
    summaries of the children, and leaves the cursor stack of the entry
    extended with the cursors that [or_abs] keeps. *)
Lemma or_loop_abs H rec org L V use specs :
  last V 0%nat = org ->
  Forall2 (child_at rec org L) use specs ->
  forall stat max tmp p best,
    cntxV p = V ++ best -> level p = L ->
    exists q,
      or_loop H rec org (List.length V) use stat max tmp p
      = Some (fst (or_abs org specs stat max tmp best), q) /\
      cntxV q = V ++ snd (or_abs org specs stat max tmp best) /\
      level q = L.
Proof.
  intros LV F. induction F as [|t [r suf] use specs C F IH];
    intros stat max tmp p best CV LP; cbn [or_loop or_abs].
  - exists p. auto.
  - set (grown := (List.length V <? List.length (cntxV p))%nat).
    set (p0 := if grown then push p org else p).
    assert (B0 : back p0 = org).
    { unfold p0. destruct grown eqn:G; [apply back_push|].
      unfold grown in G. apply Nat.ltb_ge in G.
      rewrite CV, length_app in G.
      assert (best = []) by (destruct best; [reflexivity | simpl in G; lia]).
      subst best. unfold back. now rewrite CV, app_nil_r. }
    assert (L0 : level p0 = L) by (unfold p0; now destruct grown).
    destruct (C p0 B0 L0) as (q1 & R & CV1 & L1). cbn [fst snd] in R, CV1.
    rewrite R.
    assert (Bq : Z.of_nat (back q1) - Z.of_nat org = adv org suf).
    { unfold adv, back. rewrite CV1, last_app_r. now fold (back p0); rewrite B0. }
    rewrite Bq.
    match goal with |- context [if ?c then _ else _] =>
      match c with has _ _ && _ => destruct c eqn:Acc end end.
    + (* the child is taken *)
      set (p2 := if grown
                 then _erase H q1 (List.length V) (S (List.length (cntxV p)))
                 else q1).
      assert (CV2 : cntxV p2 = V ++ suf).
      { unfold p2, p0 in *. destruct grown eqn:G.
        - rewrite cntxV_erase, CV1, cntxV_push, CV. unfold verase, erase_range.
          cbn [Nat.eqb]. rewrite <- !app_assoc, firstn_exact. f_equal.
          replace (S (List.length (V ++ best)))
            with (List.length ((V ++ best) ++ [org]))
            by (rewrite !length_app; simpl; lia).
          rewrite !app_assoc, skipn_exact. reflexivity.
        - unfold grown in G. apply Nat.ltb_ge in G.
          rewrite CV, length_app in G.
          assert (best = []) by (destruct best; [reflexivity | simpl in G; lia]).
          subst best. now rewrite CV1, CV, app_nil_r. }
      assert (L2 : level p2 = L)
        by (unfold p2; destruct grown; cbv iota;
            [now rewrite level_erase | exact L1]).
      destruct (has (stat ||| r) (eRet ||| e1st ||| eError)).
      * exists p2. auto.
      * apply IH; assumption.
    + (* the child is dropped *)
      set (p2 := if (List.length (cntxV p) <? List.length (cntxV q1))%nat
                 then _erase H q1 (List.length (cntxV p)) 0 else q1).
      assert (CV2 : cntxV p2 = V ++ best).
      { unfold p2, p0 in *.
        destruct (List.length (cntxV p) <? List.length (cntxV q1))%nat eqn:G.
        - rewrite cntxV_erase, CV1. unfold verase, erase_tail. cbn [Nat.eqb].
          destruct grown.
          + rewrite cntxV_push, <- !app_assoc, <- CV. apply firstn_exact.
          + rewrite <- CV. apply firstn_exact.
        - apply Nat.ltb_ge in G. rewrite CV1 in G.
          destruct grown.
          + rewrite cntxV_push, !length_app in G. simpl in G. lia.
          + rewrite length_app in G.
            assert (suf = [])
              by (destruct suf; [reflexivity | simpl in G; lia]).
            subst suf. now rewrite CV1, app_nil_r. }
      assert (L2 : level p2 = L)
        by (unfold p2;
            destruct (List.length (cntxV p) <? List.length (cntxV q1))%nat;
            [now rewrite level_erase | exact L1]).
      apply IH; assumption.
Qed.

Lemma last_Forall_le org suf :
  Forall (fun c => (org <= c)%nat) suf -> (org <= last suf org)%nat.
Proof.
  intros F. destruct suf as [|c suf] using rev_ind; [simpl; lia|].
  rewrite last_last. apply Forall_app in F. destruct F as [_ F].
  now inversion F.
Qed.

Lemma or_ret_Ok stat max tmp :
  max <> 0 \/ 0 <= tmp -> has (or_ret stat max tmp) eOk = true.
Proof.
  intros C. unfold or_ret.
  replace (negb (max =? 0) || (tmp >=? 0)) with true.
  - rewrite clr_other by reflexivity. apply has_eOk_lor.
  - symmetry. apply orb_true_iff. destruct C as [C|C].
    + left. now apply negb_true_iff, Z.eqb_neq.
    + right. apply Z.geb_le. lia.
Qed.

Lemma has_Ok_or_Error s :
  has s (eOk ||| eError) = false -> has s eOk = false.
Proof.
  rewrite has_lor_r. now intros [? _]%orb_false_iff.
Qed.

(** Under the default policy no child returns [eRet], [e1st] or
    [eError]; the loop then only compares advances. *)
Lemma or_abs_step_default org r suf rest stat max tmp best :
  has stat (eRet ||| e1st ||| eError) = false ->
  has stat eOk = false ->
  has r (eRet ||| e1st ||| eError) = false ->
  or_abs org ((r, suf) :: rest) stat max tmp best
  = if has r eOk && (adv org suf >? max)
    then or_abs org rest (clr (stat ||| r) (eOk ||| eRet ||| eError))
           (adv org suf) (adv org suf) suf
    else or_abs org rest (clr (stat ||| r) (eOk ||| eRet ||| eError))
           max (if has r eOk then adv org suf else tmp) best.
Proof.
  intros S1 S2 R1. cbn [or_abs].
  assert (F : has (stat ||| r) (eRet ||| e1st ||| eError) = false)
    by now rewrite has_lor, S1, R1.
  assert (E : has (stat ||| r) (eOk ||| eError) = has r eOk).
  { rewrite has_lor_r, has_lor, S2. simpl.
    rewrite !has_lor_r in F. apply orb_false_iff in F. destruct F as [_ F].
    rewrite F. apply orb_false_r. }
  rewrite F, E, andb_false_r, orb_false_r.
  destruct (has r eOk); [|reflexivity]. cbn [andb].
  now destruct (adv org suf >? max).
Qed.

Lemma next_default stat r :
  has stat (eRet ||| e1st ||| eError) = false ->
  has r (eRet ||| e1st ||| eError) = false ->
  has (clr (stat ||| r) (eOk ||| eRet ||| eError)) (eRet ||| e1st ||| eError)
  = false /\
  has (clr (stat ||| r) (eOk ||| eRet ||| eError)) eOk = false.
Proof.
  intros S1 R1. split; [|now apply clr_sub].
  rewrite !has_lor_r in *.
  rewrite (clr_sub _ _ eRet), (clr_sub _ _ eError) by reflexivity.
  rewrite clr_other by reflexivity.
  rewrite has_lor.
  apply orb_false_iff in S1. destruct S1 as [S1 _].
  apply orb_false_iff in S1. destruct S1 as [_ S1].
  apply orb_false_iff in R1. destruct R1 as [R1 _].
  apply orb_false_iff in R1. destruct R1 as [_ R1].
  now rewrite S1, R1.
Qed.

(** Which child's cursors stay pushed: the first among those that
    returned [eOk] with the greatest advance, when that advance exceeds
    [max]. *)
Lemma or_abs_pick org specs :
  Forall (fun spec => has (fst spec) (eRet ||| e1st ||| eError) = false)
         specs ->
  forall stat max tmp best,
    has stat (eRet ||| e1st ||| eError) = false ->
    has stat eOk = false ->
    let best' := snd (or_abs org specs stat max tmp best) in
    (best' = best /\
     forall r suf, In (r, suf) specs -> has r eOk = true ->
                   adv org suf <= max) \/
    (exists pre r post,
        specs = pre ++ (r, best') :: post /\
        has r eOk = true /\
        max < adv org best' /\
        (forall r' suf', In (r', suf') pre -> has r' eOk = true ->
                         adv org suf' < adv org best') /\
        (forall r' suf', In (r', suf') post -> has r' eOk = true ->
                         adv org suf' <= adv org best')).
Proof.
  induction 1 as [|[r suf] specs D _ IH]; intros stat max tmp best S1 S2.
  - left. split; [reflexivity | intros ? ? []].
  - cbn [fst] in D. cbv zeta.
    rewrite or_abs_step_default by assumption.
    destruct (next_default stat r S1 D) as [N1 N2].
    destruct (has r eOk && (adv org suf >? max)) eqn:T.
    + apply andb_true_iff in T. destruct T as [Tok Tgt].
      apply Z.gtb_lt in Tgt.
      destruct (IH _ (adv org suf) (adv org suf) suf N1 N2)
        as [[E Hle] | (pre & r2 & post & E & Ok2 & Gt & Hpre & Hpost)].
      * right. exists [], r, specs. rewrite E.
        split; [reflexivity|]. split; [exact Tok|]. split; [lia|].
        split; [intros ? ? [] | exact Hle].
      * right. exists ((r, suf) :: pre), r2, post.
        split; [now rewrite E at 1|]. split; [exact Ok2|]. split; [lia|].
        split; [|exact Hpost].
        intros r' suf' [[= <- <-] | I] K; [lia | now apply (Hpre r')].
    + assert (Hd : has r eOk = true -> adv org suf <= max).
      { intros K. rewrite K in T. cbn [andb] in T.
        destruct (Z.gtb_spec (adv org suf) max); [discriminate | lia]. }
      destruct (IH (clr (stat ||| r) (eOk ||| eRet ||| eError)) max
                   (if has r eOk then adv org suf else tmp) best N1 N2)
        as [[E Hle] | (pre & r2 & post & E & Ok2 & Gt & Hpre & Hpost)].
      * left. split; [exact E|].
        intros r' suf' [[= <- <-] | I] K; [now apply Hd | now apply (Hle r')].
      * right. exists ((r, suf) :: pre), r2, post.
        split; [now rewrite E at 1|]. split; [exact Ok2|]. split; [exact Gt|].
        split; [|exact Hpost].
        intros r' suf' [[= <- <-] | I] K;
          [specialize (Hd K); lia | now apply (Hpre r')].
Qed.

Lemma land_lor_0 a b m : Z.land (a ||| b) m = 0 -> Z.land a m = 0 /\ Z.land b m = 0.
Proof.
  rewrite Z.land_lor_distr_l. apply Z.lor_eq_0_iff.
Qed.

(** The bits other than [eOk], [eRet], [eError] and [e1st] accumulate
    over all the children. *)
Lemma or_abs_sticky org specs :
  Forall (fun spec => has (fst spec) (eRet ||| e1st ||| eError) = false)
         specs ->
  forall stat max tmp best m,
    has stat (eRet ||| e1st ||| eError) = false ->
    has stat eOk = false ->
    Z.land (eOk ||| eRet ||| eError ||| e1st) m = 0 ->
    has (fst (or_abs org specs stat max tmp best)) m
    = has stat m || existsb (fun spec => has (fst spec) m) specs.
Proof.
  intros D stat max tmp best m S1 S2 M.
  destruct (land_lor_0 _ _ _ M) as [M3 M1st].
  destruct (land_lor_0 _ _ _ M3) as [M2 Merr].
  destruct (land_lor_0 _ _ _ M2) as [Mok Mret].
  revert stat max tmp best S1 S2.
  induction D as [|[r suf] specs D _ IH]; intros stat max tmp best S1 S2.
  - cbn [or_abs fst existsb]. rewrite orb_false_r. unfold or_ret.
    rewrite clr_other
      by (rewrite Z.land_lor_distr_l, M1st, Mret; reflexivity).
    destruct (negb (max =? 0) || (tmp >=? 0)).
    + rewrite has_lor.
      replace (has eOk m) with false
        by (symmetry; now apply has_false_iff).
      apply orb_false_r.
    + now apply clr_other.
  - cbn [fst] in D. rewrite or_abs_step_default by assumption.
    destruct (next_default stat r S1 D) as [N1 N2].
    assert (N : has (clr (stat ||| r) (eOk ||| eRet ||| eError)) m
                = has stat m || has r m)
      by (rewrite clr_other, has_lor; [reflexivity | exact M3]).
    cbn [existsb fst]. rewrite orb_assoc, <- N.
    destruct (has r eOk && (adv org suf >? max)); now apply IH.
Qed.

(** Under the default policy a child that returned [eOk] with a positive
    advance makes the alternation return [eOk]. *)
Lemma or_abs_default_Ok org specs :
  Forall (fun spec => has (fst spec) (eRet ||| e1st ||| eError) = false)
         specs ->
  forall stat max tmp best,
    has stat (eRet ||| e1st ||| eError) = false ->
    has stat eOk = false ->
    0 <= max ->
    0 < max \/
    (exists r suf, In (r, suf) specs /\ has r eOk = true /\ 0 < adv org suf) ->
    has (fst (or_abs org specs stat max tmp best)) eOk = true.
Proof.
  induction 1 as [|[r suf] specs D _ IH]; intros stat max tmp best S1 S2 M C.
  - cbn [or_abs fst]. apply or_ret_Ok.
    destruct C as [C|(? & ? & [] & _)]. lia.
  - cbn [fst] in D. rewrite or_abs_step_default by assumption.
    destruct (next_default stat r S1 D) as [N1 N2].
    destruct (has r eOk && (adv org suf >? max)) eqn:T.
    + apply andb_true_iff in T. destruct T as [_ T]. apply Z.gtb_lt in T.
      apply IH; try assumption; lia.
    + apply IH; try assumption.
      destruct C as [C|(r' & suf' & [[= <- <-] | I] & K & P)].
      * now left.
      * left. rewrite K in T. cbn [andb] in T.
        destruct (Z.gtb_spec (adv org suf) max); [discriminate | lia].
      * right. now exists r', suf'.
Qed.

Lemma adv_nil org : adv org [] = 0.
Proof. unfold adv. simpl. lia. Qed.




(** ** Backtracking and the semantic stack *)

(** C2 at concrete inputs, with a [_Parser<U>] context.

    The sequence ["a" + "b"] evaluated as root on the text ["ac"] fails
    and returns 0 with the cursor stack as at its entry, but the value
    recorded for ["a"] stays on the semantic stack, which was empty at the
    entry: [_erase] erases from index [(2 - 0) / 2 = 1].

    The rule [R] with a reducer and the body [A | (B | ((C + E) | D))] on
    the text ["ab"]: inside the rule the frame is empty and [off] is 2;
    the alternative [C + E] is accepted with an advance of 2 and [D],
    with an advance of 1, is rejected; the frame handed to the reducer
    holds the value of [E] and the value of [D], not that of [C]. *)
Theorem Erase_misses_semantic_values :
  cntxU (start (host_U "ac" (fun _ => Null))) = Some [] /\
  parse (host_U "ac" (fun _ => Null)) 2 (_And [Token_s "a"; Token_s "b"])
    (start (host_U "ac" (fun _ => Null)))
  = Some (0, mkParser [0; 0]%nat 1 (Some [Interface_stub 0 1 "a"]) 0) /\
  _pre_call (host_U "ab" (fun _ => nested_alternatives))
    (start (host_U "ab" (fun _ => nested_alternatives))) (Some (saw "D"))
  = ((Some [], 0), mkParser [0; 0]%nat 1 (Some []) 2) /\
  parse (host_U "ab" (fun _ => nested_alternatives)) 5 nested_alternatives
    (mkParser [0; 0]%nat 1 (Some []) 2)
  = Some (eOk ||| eEof,
          mkParser [0; 0; 0; 1; 1; 2]%nat 1
            (Some [Interface_stub 1 1 "E"; Interface_stub 0 1 "D"]) 2) /\
  Analyze (host_U "ab" (fun _ => nested_alternatives)) 6
    (Rule "R" (Some (saw "D")) (Some 0%nat))
  = Some (eOk ||| eEof, 2%nat,
          mkParser [0; 0; 0; 2]%nat 1 (Some [mkInterface true 0 2 "R"]) 0) /\
  Analyze (host_U "ab" (fun _ => nested_alternatives)) 6
    (Rule "R" (Some (saw "C")) (Some 0%nat))
  = Some (eOk ||| eEof, 2%nat,
          mkParser [0; 0; 0; 2]%nat 1 (Some [mkInterface false 0 2 "R"]) 0).
Proof.
  repeat split; vm_compute; reflexivity.
Qed.

(** The cursor half of C2 does hold: when the children only push, a
    sequence that fails leaves the cursor stack as it was at its entry. *)
Lemma and_loop_failure_cursors H rec V use :
  (forall t p r q, In t use -> rec t p = Some (r, q) ->
                   exists suf, cntxV q = cntxV p ++ suf) ->
  forall stat save p X s q,
    cntxV p = V ++ X ->
    (save = 0%nat \/ (List.length V <= save <= List.length (V ++ X))%nat) ->
    and_loop H rec (List.length V) use stat save p = Some (s, q) ->
    has s eOk = false ->
    cntxV q = V.
Proof.
  induction use as [|t use IH]; intros Ext stat save p X s q CV SV;
    cbn [and_loop].
  - intros [= <- _] K. rewrite !has_lor in K.
    replace (has eOk eOk) with true in K by reflexivity.
    rewrite orb_true_r in K. discriminate.
  - destruct (rec t p) as [[r p1]|] eqn:R; [|discriminate].
    destruct (Ext t p r p1 (or_introl eq_refl) R) as [suf CV1].
    destruct (Z.land (stat ||| r) (eOk ||| eError) =? eOk).
    + set (p2 := if (save =? 0)%nat then p1 else resize p1 save).
      assert (CV2 : exists X', cntxV p2 = V ++ X').
      { unfold p2. destruct (save =? 0)%nat eqn:S0.
        - exists (X ++ suf). now rewrite CV1, CV, app_assoc.
        - apply Nat.eqb_neq in S0. destruct SV as [SV|SV]; [contradiction|].
          exists (firstn (save - List.length V) (X ++ suf)).
          cbn [resize cntxV set_cntxV]. unfold vresize.
          rewrite CV1, CV, <- app_assoc.
          assert (Z0 : (save - List.length (V ++ X ++ suf) = 0)%nat)
            by (rewrite !length_app in *; lia).
          rewrite Z0, firstn_app, firstn_all2 by lia.
          simpl. now rewrite app_nil_r. }
      destruct CV2 as [X' CV2].
      apply (IH (fun t' p' r' q' I => Ext t' p' r' q' (or_intror I)) _ _ p2 X');
        [exact CV2|].
      destruct (has (stat ||| r) eSkip); [right | now left].
      rewrite CV2, length_app. lia.
    + intros [= _ <-] _. rewrite cntxV_erase, CV1, CV, <- app_assoc.
      unfold verase, erase_tail. cbn [Nat.eqb]. apply firstn_exact.
Qed.

(** ** Evaluation only pushes cursors, and never before the current one *)

Lemma extends_refl p : extends_from p p.
Proof. exists []. now rewrite app_nil_r. Qed.

Lemma back_extends p q : extends_from p q -> (back p <= back q)%nat.
Proof.
  intros (suf & CV & F & _). unfold back at 2. rewrite CV, last_app_r.
  fold (back p). now apply last_Forall_le.
Qed.

Lemma extends_trans p q r :
  extends_from p q -> extends_from q r -> extends_from p r.
Proof.
  intros E1 E2. pose proof (back_extends _ _ E1) as B.
  destruct E1 as (s1 & CV1 & F1 & L1), E2 as (s2 & CV2 & F2 & L2).
  exists (s1 ++ s2). split; [now rewrite CV2, CV1, app_assoc|].
  split; [|congruence].
  apply Forall_app. split; [exact F1|].
  eapply Forall_impl; [|exact F2]. intros c Hc. cbv beta in *. lia.
Qed.

(** Cutting the stack back to a length not below that of [p]. *)
Lemma extends_resize p q n :
  extends_from p q ->
  (List.length (cntxV p) <= n <= List.length (cntxV q))%nat ->
  extends_from p (resize q n).
Proof.
  intros (suf & CV & F & L) N.
  exists (firstn (n - List.length (cntxV p)) suf).
  split; [|split; [now apply Forall_firstn | exact L]].
  cbn [resize cntxV set_cntxV]. unfold vresize.
  replace (n - List.length (cntxV q))%nat with 0%nat by lia.
  rewrite CV, firstn_app, firstn_all2 by lia.
  simpl. now rewrite app_nil_r.
Qed.

Lemma extends_erase_tail H p q :
  extends_from p q -> extends_from p (_erase H q (List.length (cntxV p)) 0).
Proof.
  intros (suf & CV & F & L). exists [].
  rewrite cntxV_erase, level_erase, CV, app_nil_r.
  unfold verase, erase_tail. cbn [Nat.eqb].
  split; [apply firstn_exact|]. split; [constructor | exact L].
Qed.

Lemma extends_length p q :
  extends_from p q -> (List.length (cntxV p) <= List.length (cntxV q))%nat.
Proof.
  intros (suf & CV & _). rewrite CV, length_app. lia.
Qed.

Section Extends.

Variable H : Host.
Hypothesis Hmono : forall t ptr, (ptr <= zero_parse H t ptr)%nat.

Lemma Token_extends m nm p : extends_from p (snd (Token_parse H m nm p)).
Proof.
  unfold Token_parse.
  set (cc := if level p =? 0 then back p else zero_parse H (text H) (back p)).
  assert (Lcc : (back p <= cc)%nat)
    by (unfold cc; destruct (level p =? 0); [lia | apply Hmono]).
  destruct (m (deref (text H) cc)); cbn [snd]; [|apply extends_refl].
  destruct (level p =? 0).
  - exists [S cc]. repeat split. constructor; [lia | constructor].
  - exists [cc; S cc]. split; [|split].
    + cbn [push cntxV set_cntxV]. now rewrite cntxV_stub, <- app_assoc.
    + repeat constructor; lia.
    + cbn [push level set_cntxV]. apply level_stub.
Qed.

Lemma and_loop_extends rec p0 use :
  (forall t, In t use ->
     forall p r q, rec t p = Some (r, q) -> extends_from p q) ->
  forall stat save p s q,
    extends_from p0 p ->
    (save = 0%nat \/
     (List.length (cntxV p0) <= save <= List.length (cntxV p))%nat) ->
    and_loop H rec (List.length (cntxV p0)) use stat save p = Some (s, q) ->
    extends_from p0 q.
Proof.
  induction use as [|t use IH]; intros K stat save p s q E SV; cbn [and_loop].
  - now intros [= _ <-].
  - destruct (rec t p) as [[r p1]|] eqn:R; [|discriminate].
    assert (E1 : extends_from p0 p1)
      by (eapply extends_trans; [exact E | eapply (K t); [now left | exact R]]).
    assert (L1 : (List.length (cntxV p) <= List.length (cntxV p1))%nat)
      by (eapply extends_length, (K t); [now left | exact R]).
    destruct (Z.land (stat ||| r) (eOk ||| eError) =? eOk).
    + set (p2 := if (save =? 0)%nat then p1 else resize p1 save).
      assert (E2 : extends_from p0 p2).
      { unfold p2. destruct (save =? 0)%nat eqn:S0; [exact E1|].
        apply Nat.eqb_neq in S0. apply extends_resize; [exact E1 | lia]. }
      apply (IH (fun t' I => K t' (or_intror I)) _ _ p2); [exact E2|].
      destruct (has (stat ||| r) eSkip); [right | now left].
      split; [now apply extends_length | lia].
    + intros [= _ <-]. now apply extends_erase_tail.
Qed.

Lemma cycle_loop_extends rec body min flag :
  (forall p r q, rec body p = Some (r, q) -> extends_from p q) ->
  forall n i stat p j s q,
    cycle_loop rec body min flag n i stat p = Some (j, (s, q)) ->
    extends_from p q.
Proof.
  intros K. induction n as [|n IH]; intros i stat p j s q; cbn [cycle_loop].
  - intros E. inversion E. subst. apply extends_refl.
  - destruct (rec body p) as [[r p1]|] eqn:R; [|discriminate].
    pose proof (K _ _ _ R) as E1.
    destruct (Z.land (stat ||| r) (eOk ||| eError) =? eOk).
    + intros E. eapply extends_trans; [exact E1 | eapply IH, E].
    + intros E. inversion E. now subst.
Qed.

(** One iteration of the loop of [_Or::_parse]: the child starts at the
    cursor of the entry, and both ways of ending the iteration leave an
    extension of the entry context. *)
Lemma or_step_extends p0 p :
  extends_from p0 p ->
  let grown := (List.length (cntxV p0) <? List.length (cntxV p))%nat in
  let p' := if grown then push p (back p0) else p in
  (back p' = back p0 /\ level p' = level p0) /\
  (forall q1, extends_from p' q1 ->
   0 <= Z.of_nat (back q1) - Z.of_nat (back p0) /\
   extends_from p0
     (if grown
      then _erase H q1 (List.length (cntxV p0)) (S (List.length (cntxV p)))
      else q1) /\
   extends_from p0
     (if (List.length (cntxV p) <? List.length (cntxV q1))%nat
      then _erase H q1 (List.length (cntxV p)) 0 else q1)).
Proof.
  intros (best & CV & F & L) grown p'.
  assert (G : grown = false -> best = []).
  { unfold grown. intros G. apply Nat.ltb_ge in G.
    rewrite CV, length_app in G.
    destruct best; [reflexivity | simpl in G; lia]. }
  assert (B' : back p' = back p0).
  { unfold p'. destruct grown; [apply back_push|].
    rewrite (G eq_refl), app_nil_r in CV. unfold back. now rewrite CV. }
  assert (L' : level p' = level p0) by (unfold p'; now destruct grown).
  split; [now split|].
  intros q1 E1. pose proof (back_extends _ _ E1) as Bq. rewrite B' in Bq.
  destruct E1 as (suf & CV1 & F1 & L1). rewrite B' in F1.
  split; [lia|]. split.
  - exists suf. split; [|split; [exact F1|]].
    + unfold p' in CV1. destruct grown.
      * rewrite cntxV_erase, CV1, cntxV_push, CV.
        unfold verase, erase_range. cbn [Nat.eqb].
        rewrite <- !app_assoc, firstn_exact. f_equal.
        replace (S (List.length (cntxV p0 ++ best)))
          with (List.length ((cntxV p0 ++ best) ++ [back p0]))
          by (rewrite !length_app; simpl; lia).
        rewrite !app_assoc, skipn_exact. reflexivity.
      * rewrite (G eq_refl), app_nil_r in CV. now rewrite CV1, CV.
    + destruct grown; [rewrite level_erase|]; congruence.
  - exists best. split; [|split; [exact F|]].
    + unfold p' in CV1.
      destruct (List.length (cntxV p) <? List.length (cntxV q1))%nat eqn:T.
      * rewrite cntxV_erase, CV1. unfold verase, erase_tail. cbn [Nat.eqb].
        rewrite <- CV.
        destruct grown;
          [rewrite cntxV_push, <- app_assoc|]; apply firstn_exact.
      * apply Nat.ltb_ge in T. rewrite CV1 in T.
        destruct grown.
        -- rewrite cntxV_push, !length_app in T. simpl in T. lia.
        -- rewrite length_app in T.
           assert (suf = [])
             by (destruct suf; [reflexivity | simpl in T; lia]).
           subst suf. now rewrite CV1, app_nil_r.
    + destruct (List.length (cntxV p) <? List.length (cntxV q1))%nat;
        [rewrite level_erase|]; congruence.
Qed.

Lemma or_loop_extends rec p0 use :
  (forall t, In t use ->
     forall p r q, rec t p = Some (r, q) -> extends_from p q) ->
  forall stat max tmp p s q,
    extends_from p0 p ->
    or_loop H rec (back p0) (List.length (cntxV p0)) use stat max tmp p
    = Some (s, q) ->
    extends_from p0 q.
Proof.
  induction use as [|t use IH]; intros K stat max tmp p s q E; cbn [or_loop].
  - now intros [= _ <-].
  - destruct (or_step_extends p0 p E) as [_ St]. cbv zeta in St.
    match goal with |- match rec t ?p' with _ => _ end = _ -> _ =>
      destruct (rec t p') as [[r q1]|] eqn:R; [|discriminate] end.
    destruct (St q1) as (_ & Acc & Rej);
      [eapply (K t); [now left | exact R]|].
    assert (K' : forall t, In t use ->
                 forall p r q, rec t p = Some (r, q) -> extends_from p q)
      by (intros t' I; apply K; now right).
    match goal with |- (if ?c then _ else _) = _ -> _ => destruct c end.
    + destruct (has (stat ||| r) (eRet ||| e1st ||| eError)).
      * now intros [= _ <-].
      * now apply IH.
    + now apply IH.
Qed.

(** The general form of C7: with children that return and only push
    cursors, the alternation returns, and with [eOk] as soon as one child
    returns [eOk] whenever it is evaluated at the cursor of the entry. *)
Lemma or_loop_Ok rec p0 use :
  (forall t, In t use -> forall p, rec t p <> None) ->
  (forall t, In t use ->
     forall p r q, rec t p = Some (r, q) -> extends_from p q) ->
  forall stat max tmp p,
    extends_from p0 p ->
    max <> 0 \/ 0 <= tmp \/
    (exists t, In t use /\
       forall p' r q', back p' = back p0 -> level p' = level p0 ->
                       rec t p' = Some (r, q') -> has r eOk = true) ->
    exists s q,
      or_loop H rec (back p0) (List.length (cntxV p0)) use stat max tmp p
      = Some (s, q) /\ has s eOk = true.
Proof.
  induction use as [|t use IH]; intros T K stat max tmp p E C; cbn [or_loop].
  - eexists _, _. split; [reflexivity|]. apply or_ret_Ok.
    destruct C as [C|[C|(? & [] & _)]]; tauto.
  - destruct (or_step_extends p0 p E) as [[B' L'] St].
    cbv zeta in B', L', St.
    match goal with |- context [rec t ?p'] =>
      destruct (rec t p') as [[r q1]|] eqn:R;
        [|now destruct (T t (or_introl eq_refl) p')] end.
    destruct (St q1) as (Pos & Acc & Rej);
      [eapply (K t); [now left | exact R]|].
    assert (T' : forall t, In t use -> forall p, rec t p <> None)
      by (intros t' I; apply T; now right).
    assert (K' : forall t, In t use ->
                 forall p r q, rec t p = Some (r, q) -> extends_from p q)
      by (intros t' I; apply K; now right).
    destruct (has (stat ||| r) (eOk ||| eError)) eqn:Tst; cbn [andb].
    + match goal with |- context [if ?c then _ else _] => destruct c end.
      * destruct (has (stat ||| r) (eRet ||| e1st ||| eError)).
        -- eexists _, _. split; [reflexivity|]. apply or_ret_Ok. now right.
        -- apply IH; try assumption. right. now left.
      * apply IH; try assumption. right. now left.
    + apply IH; try assumption.
      destruct C as [C|[C|(t' & [<- | I] & Ok)]]; [tauto | tauto | |].
      * exfalso. specialize (Ok _ _ _ B' L' R).
        apply has_Ok_or_Error in Tst.
        rewrite has_lor, Ok, orb_true_r in Tst. discriminate.
      * right. right. now exists t'.
Qed.

Lemma extends_same p q q' :
  cntxV q' = cntxV q -> level q' = level q ->
  extends_from p q -> extends_from p q'.
Proof.
  intros CV L (suf & CV1 & F & L1). exists suf.
  repeat split; [congruence | exact F | congruence].
Qed.

Lemma extends_same_src p p' q :
  cntxV p' = cntxV p -> level p' = level p ->
  extends_from p' q -> extends_from p q.
Proof.
  intros CV L (suf & CV1 & F & L1). exists suf.
  unfold back in *. rewrite CV in *.
  repeat split; [exact CV1 | exact F | congruence].
Qed.

(** When the comparison [cntxV.size() - size > 1] holds, the span of a
    named production is left as its first and its last cursor. *)
Lemma collapse_extends p0 p1 :
  extends_from p0 p1 ->
  grew p1 (List.length (cntxV p0)) = true ->
  extends_from p0 (collapse p1 (List.length (cntxV p0))).
Proof.
  intros E G. pose proof (back_extends _ _ E) as B.
  destruct E as (suf & CV & F & L).
  unfold grew in G. rewrite CV, length_app, Nat2Z.inj_add in G.
  replace (Z.of_nat (List.length (cntxV p0)) + Z.of_nat (List.length suf)
           - Z.of_nat (List.length (cntxV p0)))
    with (Z.of_nat (List.length suf)) in G by lia.
  destruct suf as [|a [|b X]]; [discriminate G | discriminate G |].
  exists [a; back p1]. split; [|split].
  - unfold collapse. cbn [cntxV set_cntxV]. rewrite CV.
    replace (S (List.length (cntxV p0)) <? _)%nat with true
      by (symmetry; apply Nat.ltb_lt; rewrite length_app; simpl; lia).
    replace (S (List.length (cntxV p0)))
      with (List.length (cntxV p0 ++ [a]))
      by (rewrite length_app; simpl; lia).
    replace (cntxV p0 ++ a :: b :: X) with ((cntxV p0 ++ [a]) ++ b :: X)
      by now rewrite <- app_assoc.
    rewrite firstn_exact.
    replace (S (List.length (cntxV p0 ++ [a])))
      with (List.length ((cntxV p0 ++ [a]) ++ [b]))
      by (rewrite !length_app; simpl; lia).
    replace ((cntxV p0 ++ [a]) ++ b :: X)
      with (((cntxV p0 ++ [a]) ++ [b]) ++ X)
      by now rewrite <- !app_assoc.
    rewrite skipn_exact. unfold vresize.
    replace (List.length ((cntxV p0 ++ [a]) ++ [b]))
      with (List.length ((cntxV p0 ++ [a]) ++ [back p1]))
      by (rewrite !length_app; reflexivity).
    replace ((cntxV p0 ++ [a]) ++ back p1 :: X)
      with (((cntxV p0 ++ [a]) ++ [back p1]) ++ X)
      by now rewrite <- !app_assoc.
    rewrite firstn_exact.
    replace (_ - _)%nat with 0%nat by (rewrite !length_app; lia).
    simpl. now rewrite app_nil_r, <- app_assoc.
  - inversion F; subst. repeat constructor; assumption.
  - exact L.
Qed.

(** The invariant of the interpreter: with a skipper that never moves
    back, an evaluation that returns has only pushed cursors, none before
    the cursor it started from, and has restored the mode level. *)
Lemma parse_extends f :
  forall t p r q, parse H f t p = Some (r, q) -> extends_from p q.
Proof.
  induction f as [|f IH]; intros t p r q; [discriminate|].
  destruct t as [m nm|a|flg|use|use|mn mx flag body|nm use|nm cb use];
    cbn [parse].
  - intros [= E]. apply (f_equal snd) in E. cbn [snd] in E. rewrite <- E.
    apply Token_extends.
  - unfold Action_parse. intros [= _ <-]. apply extends_refl.
  - intros [= _ <-]. apply extends_refl.
  - apply and_loop_extends; [intros; eapply IH; eassumption | | now left].
    apply extends_refl.
  - apply or_loop_extends; [intros; eapply IH; eassumption|].
    apply extends_refl.
  - destruct (cycle_loop (parse H f) body mn flag (Z.to_nat mx) 0 0 p)
      as [[j [s' q']]|] eqn:C; [|discriminate].
    intros [= <- <-]. eapply cycle_loop_extends; [|exact C]. apply IH.
  - destruct use as [h|]; [|intros [= _ <-]; apply extends_refl].
    destruct ((level p =? 0) || is_Action (defs H h)); [apply IH|].
    set (org := zero_parse H (text H) (back p)).
    destruct (parse H f (defs H h) (set_level (push p org) (level p - 1)))
      as [[st p1]|] eqn:E; [|discriminate].
    apply IH in E.
    assert (E1 : extends_from p (set_level p1 (level p1 + 1))).
    { pose proof (Hmono (text H) (back p)) as M. fold org in M.
      destruct E as (suf & CV & F & L).
      cbn [set_level push cntxV set_cntxV level] in CV, L.
      unfold back at 1 in F. cbn [set_level push cntxV set_cntxV] in F.
      rewrite last_last in F.
      exists (org :: suf). split; [|split].
      - cbn [set_level cntxV]. now rewrite CV, <- app_assoc.
      - constructor; [exact M|].
        eapply Forall_impl; [|exact F]. intros c Hc. cbv beta in *. lia.
      - cbn [set_level level]. lia. }
    match goal with |- (if ?c then _ else _) = _ -> _ =>
      destruct c eqn:Cnd end; intros [= _ <-].
    + apply andb_true_iff in Cnd. destruct Cnd as [_ G].
      apply collapse_extends.
      * eapply extends_same; [| |exact E1];
          [apply cntxV_stub | apply level_stub].
      * unfold grew in *. now rewrite cntxV_stub.
    + apply extends_resize; [exact E1|].
      split; [lia | now apply extends_length].
  - destruct use as [h|]; [|intros [= _ <-]; apply extends_refl].
    destruct (level p =? 0); [intros [= _ <-]; apply extends_refl|].
    destruct (is_Action (defs H h)); [apply IH|].
    assert (P : cntxV (snd (_pre_call H p cb)) = cntxV p /\
                level (snd (_pre_call H p cb)) = level p).
    { unfold _pre_call. destruct (klass H); [now split|]. now destruct cb. }
    destruct (_pre_call H p cb) as [up p0]. cbn [snd] in P.
    destruct P as [Pc Pl].
    destruct (parse H f (defs H h) p0) as [[st p1]|] eqn:E; [|discriminate].
    apply IH in E. apply (extends_same_src p p0 p1 Pc Pl) in E.
    assert (Post : forall x u, cntxV (_post_call H x u) = cntxV x /\
                               level (_post_call H x u) = level x)
      by (intros; unfold _post_call; now destruct (klass H)).
    match goal with |- (if ?c then _ else _) = _ -> _ =>
      destruct c eqn:Cnd end; intros [= _ <-].
    + apply andb_true_iff in Cnd. destruct Cnd as [_ G].
      eapply extends_same; [apply Post | apply Post |].
      now apply collapse_extends.
    + eapply extends_same; [apply Post | apply Post |].
      apply extends_resize; [exact E|].
      split; [lia | now apply extends_length].
Qed.

End Extends.

Lemma zero_parse_default_mono t ptr : (ptr <= zero_parse_default t ptr)%nat.
Proof. apply zero_parse_default_spec. Qed.

(** C7.  With a skipper that never moves back, let the children of an
    alternation return.  If one of them returns [eOk] whenever it is
    evaluated at the cursor and mode level of the entry, the alternation
    returns, and with [eOk] in its status, whatever the advances; so an
    alternation of productions that succeed without advance returns
    [eOk]. *)
Theorem Or_zero_advance_is_a_match (H : Host)
    (Hmono : forall t ptr, (ptr <= zero_parse H t ptr)%nat)
    (f : nat) (use : list Tie) (p : Parser)
    (Hfuel : forall t, In t use -> forall p', parse H f t p' <> None)
    (Hok : exists t, In t use /\
             forall p' r q', back p' = back p -> level p' = level p ->
                             parse H f t p' = Some (r, q') ->
                             has r eOk = true) :
  exists s q,
    parse H (S f) (_Or use) p = Some (s, q) /\
    has s eOk = true /\
    extends_from p q.
Proof.
  destruct (or_loop_Ok H (parse H f) p use Hfuel) with (stat := 0) (max := 0)
    (tmp := -1) (p := p) as (s & q & E & K).
  - intros t _. apply (parse_extends H Hmono).
  - apply extends_refl.
  - right. right. exact Hok.
  - exists s, q. split; [exact E|]. split; [exact K|].
    apply (parse_extends H Hmono (S f) (_Or use) p s q E).
Qed.

Lemma Or_zero_advance_is_a_match_witness :
  exists s q,
    parse (host_base "b") 2 (_Or [Token_s "a"; Null; Null])
      (start (host_base "b")) = Some (s, q) /\
    has s eOk = true /\
    extends_from (start (host_base "b")) q.
Proof.
  apply (Or_zero_advance_is_a_match (host_base "b") zero_parse_default_mono 1
           [Token_s "a"; Null; Null] (start (host_base "b"))).
  - intros t [<- | [<- | [<- | []]]] p'; discriminate.
  - exists Null. split; [right; now left|].
    intros p' r q' _ _ [= <- _]. reflexivity.
Defined.

(** With a skipper that never moves back, the sequence [x + Skip() + y],
    when it succeeds, leaves the cursor stack exactly as [x] returned
    it. *)
Lemma Skip_retracts_the_next_child (H : Host)
    (Hmono : forall t ptr, (ptr <= zero_parse H t ptr)%nat)
    (f : nat) (x y : Tie) (p : Parser) (sx s : Z) (px q : Parser) :
  parse H f x p = Some (sx, px) ->
  cntxV px <> [] ->
  parse H (S f) (_And [x; Skip; y]) p = Some (s, q) ->
  has s eOk = true ->
  cntxV q = cntxV px.
Proof.
  intros X NE E K. pose proof (and_skip_compare H f x y p) as L.
  rewrite E in L.
  destruct (parse H (S f) (_And [x; y]) p) as [[s2 q2]|]; [|contradiction].
  destruct L as (Es & Ok & _). rewrite K in Es.
  destruct (Ok (eq_sym Es))
    as (_ & _ & _ & sx' & px' & sy & py & X' & Y & CV & _).
  rewrite X in X'. injection X' as <- <-.
  destruct (parse_extends H Hmono f y px sy py Y) as (suf & CVy & _).
  rewrite CV.
  destruct (List.length (cntxV px) =? 0)%nat eqn:Z0.
  - apply Nat.eqb_eq in Z0. destruct (cntxV px); [contradiction | discriminate].
  - unfold vresize. rewrite CVy, firstn_exact, length_app.
    replace (_ - _)%nat with 0%nat by lia. apply app_nil_r.
Qed.

(** C5, as the code has it.  With or without a [Skip] between them, [x]
    and [y] are evaluated on the same contexts, [y] on the one that [x]
    returned, so the two sequences return together and succeed together.
    When they succeed, they return the same status, and the sequence with
    [Skip] leaves the cursor stack that [y] returned cut back to the
    length it had after [x]: what [y] pushed is retracted, and with a
    skipper that never moves back the cursor stack is exactly the one
    that [x] returned.  When they fail, they leave the same context. *)
Theorem Skip_is_lookahead (H : Host) (f : nat) (x y : Tie) (p : Parser) :
  match parse H (S f) (_And [x; y]) p,
        parse H (S f) (_And [x; Skip; y]) p with
  | Some (s2, q2), Some (s1, q1) =>
      has s1 eOk = has s2 eOk /\
      (has s2 eOk = true ->
         s1 = s2 /\ level q1 = level q2 /\ cntxU q1 = cntxU q2 /\
         exists sx px sy py,
           parse H f x p = Some (sx, px) /\
           parse H f y px = Some (sy, py) /\
           cntxV q1 = (if (List.length (cntxV px) =? 0)%nat then cntxV py
                       else vresize (cntxV py) (List.length (cntxV px))) /\
           cntxV q1 = (if (List.length (cntxV px) =? 0)%nat then cntxV q2
                       else vresize (cntxV q2) (List.length (cntxV px))) /\
           ((forall t ptr, (ptr <= zero_parse H t ptr)%nat) ->
            cntxV px <> [] -> cntxV q1 = cntxV px)) /\
      (has s2 eOk = false -> q1 = q2)
  | None, None => True
  | _, _ => False
  end.
Proof.
  pose proof (and_skip_compare H f x y p) as L.
  destruct (parse H (S f) (_And [x; y]) p) as [[s2 q2]|] eqn:E2;
    destruct (parse H (S f) (_And [x; Skip; y]) p) as [[s1 q1]|] eqn:E1;
    try exact L.
  destruct L as (Es & Ok & Ko). split; [exact Es|]. split; [|exact Ko].
  intros K. destruct (Ok K) as (S12 & Lq & Uq & sx & px & sy & py & X & Y & C1 & C2).
  split; [exact S12|]. split; [exact Lq|]. split; [exact Uq|].
  exists sx, px, sy, py. repeat (split; [assumption|]).
  intros Hmono NE.
  apply (Skip_retracts_the_next_child H Hmono f x y p sx s1 px q1 X NE E1).
  now rewrite Es.
Qed.

Lemma Skip_is_lookahead_witness :
  exists s q1 q2,
    parse (host_base "ab") 2 (_And [Token_s "a"; Skip; Token_s "b"])
      (start (host_base "ab")) = Some (s, q1) /\
    parse (host_base "ab") 2 (_And [Token_s "a"; Token_s "b"])
      (start (host_base "ab")) = Some (s, q2) /\
    has s eOk = true /\
    cntxV q1 = [0; 0; 0; 1]%nat /\ cntxV q2 = [0; 0; 0; 1; 1; 2]%nat.
Proof.
  pose proof (Skip_is_lookahead (host_base "ab") 1 (Token_s "a")
                (Token_s "b") (start (host_base "ab"))) as W.
  destruct (parse (host_base "ab") 2 (_And [Token_s "a"; Token_s "b"])
              (start (host_base "ab"))) as [[s2 q2]|] eqn:E2;
    [|discriminate E2].
  destruct (parse (host_base "ab") 2 (_And [Token_s "a"; Skip; Token_s "b"])
              (start (host_base "ab"))) as [[s1 q1]|] eqn:E1;
    [|discriminate E1].
  injection E2 as <- <-.
  destruct W as (_ & Ok & _).
  destruct (Ok eq_refl) as (-> & _ & _ & sx & px & sy & py & X & _ & _ & _ & R).
  injection X as <- <-.
  exists (eOk ||| eEof), q1, (mkParser [0; 0; 0; 1; 1; 2]%nat 1 None 0).
  split; [reflexivity|]. split; [reflexivity|]. split; [reflexivity|].
  split; [|reflexivity].
  apply (R zero_parse_default_mono). discriminate.
Defined.

(** The skipper of ini.cpp never moves back either. *)
Lemma zero_parse_ini_mono t ptr : (ptr <= zero_parse_ini t ptr)%nat.
Proof.
  unfold zero_parse_ini.
  destruct ((deref t ptr =? 59)%N || (deref t ptr =? 35)%N); [|lia].
  generalize (tail_from t ptr). intros rest. revert ptr.
  induction rest as [|c rest IH]; intros ptr; simpl; [lia|].
  destruct (N_of_ascii c =? 0)%N; [lia|].
  destruct (N_of_ascii c =? 10)%N; [lia|].
  specialize (IH (S ptr)). lia.
Qed.

(** The cursor half of C2, for every sequence: with a skipper that never
    moves back, a sequence that returns without [eOk] leaves the cursor
    stack as it was at its entry. *)
Lemma And_failure_restores_cursors (H : Host)
    (Hmono : forall t ptr, (ptr <= zero_parse H t ptr)%nat)
    (f : nat) (use : list Tie) (p : Parser) (s : Z) (q : Parser) :
  parse H (S f) (_And use) p = Some (s, q) ->
  has s eOk = false ->
  cntxV q = cntxV p.
Proof.
  rewrite parse_And.
  apply (and_loop_failure_cursors H (parse H f) (cntxV p) use) with (X := []).
  - intros t p' r q' _ E.
    destruct (parse_extends H Hmono f t p' r q' E) as (suf & CV & _).
    now exists suf.
  - now rewrite app_nil_r.
  - now left.
Qed.

(** * Further properties of the library *)

(** ** The whitespace skippers *)

(** X1.  [_Base::zero_parse] returns the first position at or after its
    argument whose byte is not a blank (space, tab, newline, carriage
    return), the sentinel counting as not blank; it is idempotent and
    does not leave the text. *)
Theorem zero_parse_default_first_nonblank (t : string) (ptr : nat) :
  (ptr <= zero_parse_default t ptr)%nat /\
  (forall i, (ptr <= i < zero_parse_default t ptr)%nat ->
             is_blank (deref t i) = true) /\
  is_blank (deref t (zero_parse_default t ptr)) = false /\
  zero_parse_default t (zero_parse_default t ptr) = zero_parse_default t ptr /\
  ((ptr <= strlen t)%nat -> (zero_parse_default t ptr <= strlen t)%nat).
Proof.
  destruct (zero_parse_default_spec t ptr) as (L & B & E).
  repeat split; try assumption.
  - destruct (zero_parse_default_spec t (zero_parse_default t ptr))
      as (L' & B' & _).
    set (q := zero_parse_default t ptr) in *.
    destruct (Nat.eq_dec (zero_parse_default t q) q) as [K|K]; [exact K|].
    rewrite B' in E by lia. discriminate.
  - apply zero_parse_default_bounded.
Qed.

Lemma zero_parse_default_first_nonblank_witness :
  zero_parse_default (String " " (String "009" "a b")) 0 = 2%nat /\
  (zero_parse_default (String " " (String "009" "a b")) 0
   <= strlen (String " " (String "009" "a b")))%nat.
Proof.
  split; [reflexivity|].
  apply (zero_parse_default_first_nonblank (String " " (String "009" "a b")) 0).
  simpl. lia.
Defined.

Lemma skip_line_spec rest ptr :
  (ptr <= skip_line rest ptr)%nat /\
  (forall k, (k < skip_line rest ptr - ptr)%nat -> deref rest k <> 0%N) /\
  (forall k, (S k < skip_line rest ptr - ptr)%nat -> deref rest k <> 10%N) /\
  (deref rest (skip_line rest ptr - ptr) = 0%N \/
   exists k, (skip_line rest ptr - ptr = S k)%nat /\ deref rest k = 10%N).
Proof.
  revert ptr. induction rest as [|c rest IH]; intros ptr; simpl.
  - rewrite Nat.sub_diag.
    split; [lia|]. split; [intros k; lia|]. split; [intros k; lia|].
    now left.
  - destruct (N_of_ascii c =? 0)%N eqn:E0.
    + rewrite Nat.sub_diag.
      split; [lia|]. split; [intros k; lia|]. split; [intros k; lia|].
      left. apply N.eqb_eq in E0. exact E0.
    + apply N.eqb_neq in E0.
      destruct (N_of_ascii c =? 10)%N eqn:E10.
      * replace (S ptr - ptr)%nat with 1%nat by lia.
        split; [lia|]. split; [|split].
        -- intros [|k] Hk; [exact E0 | lia].
        -- intros k Hk. lia.
        -- right. exists 0%nat. split; [reflexivity|].
           apply N.eqb_eq in E10. exact E10.
      * apply N.eqb_neq in E10.
        destruct (IH (S ptr)) as (L & NZ & NN & End).
        replace (skip_line rest (S ptr) - ptr)%nat
          with (S (skip_line rest (S ptr) - S ptr)) by lia.
        split; [lia|]. split; [|split].
        -- intros [|k] Hk; [exact E0|]. apply NZ. lia.
        -- intros [|k] Hk; [exact E10|]. apply NN. lia.
        -- destruct End as [End | (k & Ek & Dk)]; [now left|].
           right. exists (S k). split; [now rewrite Ek | exact Dk].
Qed.

(** X2.  [ini_parser::zero_parse] of ini.cpp stays where it is unless the
    byte there is [;] or [#]; otherwise it moves forward over bytes that
    are not NUL, none of them but the last a newline, and stops just
    after the first newline or on the sentinel. *)
Theorem zero_parse_ini_skips_comment_line (t : string) (ptr : nat) :
  let q := zero_parse_ini t ptr in
  (deref t ptr <> 59%N -> deref t ptr <> 35%N -> q = ptr) /\
  (deref t ptr = 59%N \/ deref t ptr = 35%N ->
     (ptr < q)%nat /\
     (forall i, (ptr <= i < q)%nat -> deref t i <> 0%N) /\
     (forall i, (ptr <= i)%nat -> (S i < q)%nat -> deref t i <> 10%N) /\
     (deref t q = 0%N \/ deref t (q - 1) = 10%N)).
Proof.
  cbv zeta. unfold zero_parse_ini. split.
  - intros A B. apply N.eqb_neq in A, B. now rewrite A, B.
  - intros C.
    assert (T : ((deref t ptr =? 59) || (deref t ptr =? 35))%N = true).
    { apply orb_true_iff. destruct C as [C|C]; [left | right];
        now apply N.eqb_eq. }
    rewrite T.
    destruct (skip_line_spec (tail_from t ptr) ptr) as (L & NZ & NN & End).
    set (q := skip_line (tail_from t ptr) ptr) in *.
    assert (D : forall k, deref (tail_from t ptr) k = deref t (ptr + k))
      by apply deref_tail.
    assert (Lt : (ptr < q)%nat).
    { destruct (Nat.eq_dec q ptr) as [K|K]; [|lia]. exfalso.
      rewrite K, Nat.sub_diag in End.
      destruct End as [End | (k & Ek & _)]; [|lia].
      rewrite D, Nat.add_0_r in End.
      destruct C as [C|C]; rewrite C in End; discriminate. }
    split; [exact Lt|]. split; [|split].
    + intros i Hi. specialize (NZ (i - ptr)%nat). rewrite D in NZ.
      replace (ptr + (i - ptr))%nat with i in NZ by lia. apply NZ. lia.
    + intros i Hi Hq. specialize (NN (i - ptr)%nat). rewrite D in NN.
      replace (ptr + (i - ptr))%nat with i in NN by lia. apply NN. lia.
    + destruct End as [End | (k & Ek & Dk)].
      * left. rewrite D in End.
        now replace (ptr + (q - ptr))%nat with q in End by lia.
      * right. rewrite D in Dk.
        now replace (ptr + k)%nat with (q - 1)%nat in Dk by lia.
Qed.

Lemma zero_parse_ini_skips_comment_line_witness :
  zero_parse_ini (String ";" (String "c" (String "010" "x"))) 0 = 3%nat /\
  (0 < zero_parse_ini (String ";" (String "c" (String "010" "x"))) 0)%nat.
Proof.
  split; [reflexivity|].
  apply (zero_parse_ini_skips_comment_line
           (String ";" (String "c" (String "010" "x"))) 0).
  left. reflexivity.
Defined.

(** ** The byte-class of a Token *)

Lemma bs_set_same m i v : bs_set m i v i = v.
Proof. unfold bs_set. now rewrite N.eqb_refl. Qed.

Lemma Add_sample_spec s : forall m b, Add_sample m s b = m b || occurs b s.
Proof.
  induction s as [|c s IH]; intros m b; simpl.
  - now rewrite orb_false_r.
  - destruct (N_of_ascii c =? 0)%N; [now rewrite orb_false_r|].
    rewrite IH. unfold bs_set.
    destruct (b =? N_of_ascii c)%N; simpl; [now rewrite orb_true_r|].
    reflexivity.
Qed.

Lemma Remove_sample_spec s :
  forall m b, Remove_sample m s b = m b && negb (occurs b s).
Proof.
  induction s as [|c s IH]; intros m b; simpl.
  - now rewrite andb_true_r.
  - destruct (N_of_ascii c =? 0)%N; [now rewrite andb_true_r|].
    rewrite IH. unfold bs_set.
    destruct (b =? N_of_ascii c)%N; simpl; [now rewrite andb_false_r|].
    reflexivity.
Qed.

Lemma occurs_0 s : occurs 0 s = false.
Proof.
  induction s as [|c s IH]; cbn [occurs]; [reflexivity|].
  destruct (N_of_ascii c); [reflexivity | exact IH].
Qed.

(** X3.  The class of a Token is a set of bytes: [Add(sample)] adds
    exactly the bytes of the sample up to its NUL, in whatever order and
    however often they come, and never the NUL byte; [Remove(sample)]
    takes exactly those bytes out, so it undoes [Add(sample)] on a class
    that had none of them; [Token(sample)] accepts a byte exactly when
    the sample has it. *)
Theorem Token_sample_is_a_set :
  (forall m s b, Add_sample m s b = m b || occurs b s) /\
  (forall m s b, Remove_sample m s b = m b && negb (occurs b s)) /\
  (forall m s1 s2 b,
     Add_sample (Add_sample m s1) s2 b = Add_sample (Add_sample m s2) s1 b) /\
  (forall m s b, Add_sample (Add_sample m s) s b = Add_sample m s b) /\
  (forall m s b,
     Remove_sample (Add_sample m s) s b = m b && negb (occurs b s)) /\
  (forall m s, Add_sample m s 0%N = m 0%N) /\
  (forall s b, sample_set s b = occurs b s).
Proof.
  split; [intros; apply Add_sample_spec|].
  split; [intros; apply Remove_sample_spec|].
  split.
  { intros. rewrite !Add_sample_spec.
    destruct (m b), (occurs b s1), (occurs b s2); reflexivity. }
  split.
  { intros. rewrite !Add_sample_spec. destruct (m b), (occurs b s); reflexivity. }
  split.
  { intros. rewrite Remove_sample_spec, Add_sample_spec.
    destruct (m b), (occurs b s); reflexivity. }
  split.
  { intros. now rewrite Add_sample_spec, occurs_0, orb_false_r. }
  intros s b. induction s as [|c s IH]; simpl; [reflexivity|].
  destruct (N_of_ascii c =? 0)%N; [reflexivity|]. now rewrite IH.
Qed.

Lemma uchar_small i : 0 <= i < 256 -> uchar i = Z.to_N i.
Proof. intros R. unfold uchar. now rewrite Z.mod_small. Qed.

Lemma fill_loop_spec n :
  forall i v m b,
    0 <= i -> i + Z.of_nat n <= 256 ->
    fill_loop n i v m b
    = if (i <=? Z.of_N b) && (Z.of_N b <? i + Z.of_nat n) then v else m b.
Proof.
  induction n as [|n IH]; intros i v m b L U; cbn [fill_loop].
  - destruct (Z.leb_spec i (Z.of_N b)),
             (Z.ltb_spec (Z.of_N b) (i + Z.of_nat 0));
      cbn [andb]; try reflexivity; lia.
  - rewrite IH by lia. rewrite uchar_small by lia. unfold bs_set.
    destruct (Z.leb_spec (i + 1) (Z.of_N b)),
             (Z.ltb_spec (Z.of_N b) (i + 1 + Z.of_nat n)),
             (Z.leb_spec i (Z.of_N b)),
             (Z.ltb_spec (Z.of_N b) (i + Z.of_nat (S n)));
      cbn [andb]; try lia;
      destruct (N.eqb_spec b (Z.to_N i)); try reflexivity; lia.
Qed.

(** X4.  [Token::Add(fst, lst)] with byte bounds: for [lst] above 1 it
    adds exactly the bytes from [fst] to [lst], none when [fst > lst];
    [lst = 0] adds the single byte [fst]; [lst = 1] is no range: it adds
    [fst] and, for a letter, the same letter in the other case.
    [Token::Remove(fst, lst)] with [lst] not 0 removes exactly the bytes
    from [fst] to [lst], so [Remove(fst, 1)] removes nothing for
    [fst > 1] and does not undo [Add(fst, 1)]. *)
Theorem Token_Add_Remove_ranges (m : bitset) (fst lst : Z) (b : N)
    (Hfst : 0 <= fst <= 255) (Hlst : 0 <= lst <= 255) :
  (1 < lst ->
     Add m fst lst b
     = m b || ((fst <=? Z.of_N b) && (Z.of_N b <=? lst))) /\
  (Add m fst 0 b = m b || (b =? Z.to_N fst)%N) /\
  (Add m fst 1 b
   = m b || (b =? Z.to_N fst)%N
     || ((65 <=? fst) && (fst <=? 90) && (b =? Z.to_N (fst + 32))%N)
     || ((97 <=? fst) && (fst <=? 122) && (b =? Z.to_N (fst - 32))%N)) /\
  (lst <> 0 ->
     Remove m fst lst b
     = m b && negb ((fst <=? Z.of_N b) && (Z.of_N b <=? lst))) /\
  (Remove m fst 0 b = m b && negb (b =? Z.to_N fst)%N) /\
  (1 < fst -> Remove (Add m fst 1) fst 1 b = Add m fst 1 b).
Proof.
  assert (R : forall v lo hi,
             0 <= lo <= 255 -> 0 <= hi <= 255 ->
             fill_loop (Z.to_nat (hi - lo + 1)) lo v m b
             = if (lo <=? Z.of_N b) && (Z.of_N b <=? hi) then v else m b).
  { intros v lo hi Hlo Hhi. destruct (Z.le_gt_cases lo hi) as [Le|Gt].
    - rewrite fill_loop_spec by lia. rewrite Z2Nat.id by lia.
      replace (Z.of_N b <? lo + (hi - lo + 1)) with (Z.of_N b <=? hi);
        [reflexivity|].
      destruct (Z.leb_spec (Z.of_N b) hi), (Z.ltb_spec (Z.of_N b) (lo + (hi - lo + 1)));
        try reflexivity; lia.
    - replace (Z.to_nat (hi - lo + 1)) with 0%nat by lia. cbn [fill_loop].
      destruct (Z.leb_spec lo (Z.of_N b)), (Z.leb_spec (Z.of_N b) hi);
        cbn [andb]; try reflexivity; lia. }
  assert (S1 : forall m', bs_set m' (uchar fst) true b
                          = m' b || (b =? Z.to_N fst)%N).
  { intros m'. rewrite uchar_small by lia. unfold bs_set.
    destruct (b =? Z.to_N fst)%N; [now rewrite orb_true_r|].
    now rewrite orb_false_r. }
  split; [|split; [|split; [|split; [|split]]]].
  - intros L. unfold Add.
    replace (lst =? 1) with false by (symmetry; apply Z.eqb_neq; lia).
    replace (lst =? 0) with false by (symmetry; apply Z.eqb_neq; lia).
    rewrite R by lia.
    destruct ((fst <=? Z.of_N b) && (Z.of_N b <=? lst));
      [now rewrite orb_true_r | now rewrite orb_false_r].
  - unfold Add. change (0 =? 1) with false. change (0 =? 0) with true.
    cbv iota. apply S1.
  - unfold Add. change (1 =? 1) with true. cbv iota. rewrite S1.
    destruct ((65 <=? fst) && (fst <=? 90)) eqn:Up.
    + replace ((97 <=? fst) && (fst <=? 122)) with false
        by (symmetry; apply andb_false_iff; apply andb_true_iff in Up;
            destruct Up as [_ Up]; apply Z.leb_le in Up; left;
            apply Z.leb_gt; lia).
      cbn [andb]. unfold bs_set.
      replace (fst - 65 + 97) with (fst + 32) by lia.
      destruct (b =? Z.to_N (fst + 32))%N, (m b), (b =? Z.to_N fst)%N;
        reflexivity.
    + cbn [andb]. destruct ((97 <=? fst) && (fst <=? 122)).
      * cbn [andb]. unfold bs_set.
        replace (fst - 97 + 65) with (fst - 32) by lia.
        destruct (b =? Z.to_N (fst - 32))%N, (m b), (b =? Z.to_N fst)%N;
          reflexivity.
      * cbn [andb]. now rewrite !orb_false_r.
  - intros NZ. unfold Remove.
    replace (lst =? 0) with false by (symmetry; now apply Z.eqb_neq).
    rewrite R by lia.
    destruct ((fst <=? Z.of_N b) && (Z.of_N b <=? lst));
      [now rewrite andb_false_r | now rewrite andb_true_r].
  - unfold Remove. change (0 =? 0) with true. cbv iota zeta.
    replace (Z.to_nat (fst - fst + 1)) with 1%nat by lia.
    cbn [fill_loop]. rewrite uchar_small by lia. unfold bs_set.
    destruct (b =? Z.to_N fst)%N; [now rewrite andb_false_r|].
    now rewrite andb_true_r.
  - intros L. unfold Remove. change (1 =? 0) with false. cbv iota zeta.
    replace (Z.to_nat (1 - fst + 1)) with 0%nat by lia. reflexivity.
Qed.

Lemma Token_Add_Remove_ranges_witness :
  Add (fun _ => false) 48 57 53%N = true /\
  Add (fun _ => false) 97 1 65%N = true /\
  Remove (Add (fun _ => false) 97 1) 97 1 97%N = true.
Proof.
  destruct (Token_Add_Remove_ranges (fun _ => false) 48 57 53%N)
    as (A & _); [lia | lia |].
  destruct (Token_Add_Remove_ranges (fun _ => false) 97 1 65%N)
    as (_ & _ & B & _); [lia | lia |].
  destruct (Token_Add_Remove_ranges (fun _ => false) 97 1 97%N)
    as (_ & _ & _ & _ & _ & C); [lia | lia |].
  split; [rewrite A by lia; reflexivity|].
  split; [rewrite B; reflexivity|].
  rewrite C by lia. reflexivity.
Defined.

Lemma symbol_loop_spec n :
  forall i m,
    let r := symbol_loop n i m in
    (m (Z.to_N r) = true /\ Z.of_N i <= r < Z.of_N i + Z.of_nat n /\
     forall j, (i <= j)%N -> Z.of_N j < r -> m j = false) \/
    (r = 0 /\
     forall j, (i <= j)%N -> Z.of_N j < Z.of_N i + Z.of_nat n -> m j = false).
Proof.
  induction n as [|n IH]; intros i m; cbn [symbol_loop]; cbv zeta.
  - right. split; [reflexivity|]. intros j Hj Hn. lia.
  - destruct (m i) eqn:Mi.
    + left. rewrite N2Z.id. split; [exact Mi|]. split; [lia|].
      intros j Hj Hr. lia.
    + destruct (IH (i + 1)%N m) as [(M & R & Lo) | (Z0 & No)].
      * left. split; [exact M|]. split; [lia|].
        intros j Hj Hr. destruct (N.eq_dec j i) as [->|NE]; [exact Mi|].
        apply Lo; [lia | exact Hr].
      * right. split; [exact Z0|].
        intros j Hj Hn. destruct (N.eq_dec j i) as [->|NE]; [exact Mi|].
        apply No; lia.
Qed.

(** X5.  [Token::GetSymbol(next)] returns the least byte of the class
    that is not below [next], and 0 when the class has none, which cannot
    be told from the NUL byte being that member; for [next] outside
    [0..255] it returns 0. *)
Theorem GetSymbol_least_member (m : bitset) (next : Z) :
  (0 <= next < 256 ->
     (m (Z.to_N (GetSymbol m next)) = true /\
      next <= GetSymbol m next < 256 /\
      forall j, next <= Z.of_N j < GetSymbol m next -> m j = false) \/
     (GetSymbol m next = 0 /\
      forall j, next <= Z.of_N j < 256 -> m j = false)) /\
  (256 <= next < 2 ^ 32 \/ - 2 ^ 32 + 256 <= next < 0 -> GetSymbol m next = 0).
Proof.
  split.
  - intros R. unfold GetSymbol, maxCharNum.
    rewrite (Z.mod_small next) by lia.
    destruct (symbol_loop_spec (Z.to_nat (256 - next)) (Z.to_N next) m)
      as [(M & B & Lo) | (Z0 & No)]; cbv zeta in *.
    + left. split; [exact M|]. split; [lia|].
      intros j Hj. apply Lo; lia.
    + right. split; [exact Z0|]. intros j Hj. apply No; lia.
  - intros R. unfold GetSymbol, maxCharNum.
    replace (Z.to_nat (256 - next mod 2 ^ 32)) with 0%nat; [reflexivity|].
    destruct R as [R|R].
    + rewrite Z.mod_small by lia. lia.
    + replace next with (next + 2 ^ 32 - 1 * 2 ^ 32) by lia.
      rewrite Zdiv.Zminus_mod, Z.mod_mul, Z.sub_0_r, Z.mod_mod by lia.
      rewrite Z.mod_small by lia. lia.
Qed.

Lemma GetSymbol_least_member_witness :
  GetSymbol (sample_set "az") 98 = 122 /\
  GetSymbol (sample_set "az") 300 = 0.
Proof.
  split; [reflexivity|].
  apply (GetSymbol_least_member (sample_set "az") 300).
  left. lia.
Defined.

(** ** The entry points *)



(** ** Termination *)

Lemma and_loop_total H rec size use :
  (forall t, In t use -> forall p, rec t p <> None) ->
  forall stat save p, and_loop H rec size use stat save p <> None.
Proof.
  induction use as [|t use IH]; intros T stat save p; cbn [and_loop].
  - discriminate.
  - destruct (rec t p) as [[r p1]|] eqn:R;
      [|now destruct (T t (or_introl eq_refl) p)].
    destruct (Z.land (stat ||| r) (eOk ||| eError) =? eOk); [|discriminate].
    apply IH. intros t' I. apply T. now right.
Qed.

Lemma or_loop_total H rec org size use :
  (forall t, In t use -> forall p, rec t p <> None) ->
  forall stat max tmp p, or_loop H rec org size use stat max tmp p <> None.
Proof.
  induction use as [|t use IH]; intros T stat max tmp p; cbn [or_loop].
  - discriminate.
  - match goal with |- match rec t ?p' with _ => _ end <> _ =>
      destruct (rec t p') as [[r p1]|] eqn:R;
        [|now destruct (T t (or_introl eq_refl) p')] end.
    assert (T' : forall t, In t use -> forall p, rec t p <> None)
      by (intros t' I; apply T; now right).
    match goal with |- (if ?c then _ else _) <> _ => destruct c end.
    + destruct (has (stat ||| r) (eRet ||| e1st ||| eError));
        [discriminate | now apply IH].
    + now apply IH.
Qed.

Lemma cycle_loop_total rec body min flag :
  (forall p, rec body p <> None) ->
  forall n i stat p, cycle_loop rec body min flag n i stat p <> None.
Proof.
  intros T n i stat p.
  destruct (cycle_loop_correct rec body min flag T n i stat p)
    as (j & s & q & E & _).
  now rewrite E.
Qed.



(** X8.  A rule whose body is a sequence or an alternation that starts
    with the rule itself never returns: whatever the depth allowed, the
    evaluation in syntactic mode is still running. *)
Theorem left_recursion_never_returns (H : Host) (nm : string)
    (cb : option (list Interface -> Interface)) (h : nat) (rest : list Tie)
    (Hbody : defs H h = _And (Rule nm cb (Some h) :: rest) \/
             defs H h = _Or (Rule nm cb (Some h) :: rest)) :
  forall f p, level p <> 0 -> parse H f (Rule nm cb (Some h)) p = None.
Proof.
  assert (Pre : forall p, level (snd (_pre_call H p cb)) = level p).
  { intros p. unfold _pre_call. destruct (klass H); [reflexivity|].
    now destruct cb. }
  induction f as [f IH] using lt_wf_ind. intros p L.
  destruct f as [|f]; [reflexivity|].
  cbn [parse]. apply Z.eqb_neq in L. rewrite L.
  replace (is_Action (defs H h)) with false
    by (destruct Hbody as [-> | ->]; reflexivity).
  pose proof (Pre p) as Lp.
  destruct (_pre_call H p cb) as [up p0]. cbn [snd] in Lp.
  assert (L0 : level p0 <> 0) by (rewrite Lp; now apply Z.eqb_neq).
  replace (parse H f (defs H h) p0) with (@None (Z * Parser)); [reflexivity|].
  symmetry. destruct f as [|f]; [reflexivity|].
  destruct Hbody as [-> | ->]; cbn [parse and_loop or_loop].
  - now rewrite (IH f) by (lia || assumption).
  - rewrite Nat.ltb_irrefl. now rewrite (IH f) by (lia || assumption).
Qed.

Lemma left_recursion_never_returns_witness :
  parse (host_base_with (fun _ => _And [Rule "P" None (Some 0%nat);
                                        Token_s "a"]) "a")
    1000 (Rule "P" None (Some 0%nat)) (start (host_base "a")) = None.
Proof.
  apply (left_recursion_never_returns
           (host_base_with (fun _ => _And [Rule "P" None (Some 0%nat);
                                           Token_s "a"]) "a")
           "P" None 0 [Token_s "a"]).
  - left. reflexivity.
  - discriminate.
Defined.

(** ** The status does not depend on the semantic side *)

Lemma is_Action_unbind t : is_Action (unbind t) = is_Action t.
Proof. now destruct t. Qed.

Lemma map_unbind_Forall2 use :
  forall use', map unbind use = map unbind use' ->
               Forall2 (fun a b => unbind a = unbind b) use use'.
Proof.
  induction use as [|a use IH]; intros [|b use'] E; try discriminate E.
  - constructor.
  - injection E as Ea Eu. constructor; [exact Ea | now apply IH].
Qed.

Lemma same_syntax_back p p' : same_syntax p p' -> back p = back p'.
Proof. intros [CV _]. unfold back. now rewrite CV. Qed.

Section SameSyntax.

Variables H H' : Host.
Hypothesis Htext : text H = text H'.
Hypothesis Hzero : zero_parse H = zero_parse H'.
Hypothesis Hcatch : Catch H = Catch H'.
Hypothesis Hdefs : forall h, unbind (defs H h) = unbind (defs H' h).

Lemma same_push p p' c : same_syntax p p' -> same_syntax (push p c) (push p' c).
Proof. intros [CV L]. split; [cbn; now rewrite CV | exact L]. Qed.

Lemma same_resize p p' n :
  same_syntax p p' -> same_syntax (resize p n) (resize p' n).
Proof. intros [CV L]. split; [cbn; now rewrite CV | exact L]. Qed.

Lemma same_erase p p' lo up :
  same_syntax p p' -> same_syntax (_erase H p lo up) (_erase H' p' lo up).
Proof.
  intros [CV L]. split; [now rewrite !cntxV_erase, CV|].
  now rewrite !level_erase.
Qed.

Lemma same_stub p p' b e nm nm' :
  same_syntax p p' ->
  same_syntax (_stub_call H p b e nm) (_stub_call H' p' b e nm').
Proof.
  intros [CV L]. split; [now rewrite !cntxV_stub | now rewrite !level_stub].
Qed.

Lemma same_collapse p p' n :
  same_syntax p p' -> same_syntax (collapse p n) (collapse p' n).
Proof.
  intros Sy. pose proof (same_syntax_back _ _ Sy) as B. destruct Sy as [CV L].
  split; [|exact L]. unfold collapse. cbn [cntxV set_cntxV].
  now rewrite CV, B.
Qed.

Lemma same_Token m nm nm' p p' :
  same_syntax p p' ->
  fst (Token_parse H m nm p) = fst (Token_parse H' m nm' p') /\
  same_syntax (snd (Token_parse H m nm p)) (snd (Token_parse H' m nm' p')).
Proof.
  intros Sy. pose proof (same_syntax_back _ _ Sy) as B.
  pose proof Sy as [CV L].
  unfold Token_parse. rewrite <- Htext, <- Hzero, <- B, <- L.
  set (cc := if level p =? 0 then back p else zero_parse H (text H) (back p)).
  destruct (m (deref (text H) cc)); cbn [fst snd]; [|now split].
  split; [reflexivity|]. apply same_push.
  destruct (level p =? 0); [exact Sy|]. now apply same_push, same_stub.
Qed.

Lemma and_loop_same rec rec' size use use' :
  Forall2 (fun t t' => forall p p', same_syntax p p' ->
                                    same_result (rec t p) (rec' t' p'))
          use use' ->
  forall stat save p p',
    same_syntax p p' ->
    same_result (and_loop H rec size use stat save p)
                (and_loop H' rec' size use' stat save p').
Proof.
  induction 1 as [|t t' use use' R _ IH]; intros stat save p p' Sy;
    cbn [and_loop].
  - now split.
  - specialize (R p p' Sy). unfold same_result in R.
    destruct (rec t p) as [[r p1]|], (rec' t' p') as [[r' p1']|];
      try contradiction; [|exact I].
    destruct R as [<- S1].
    destruct (Z.land (stat ||| r) (eOk ||| eError) =? eOk).
    + assert (S2 : same_syntax (if (save =? 0)%nat then p1 else resize p1 save)
                     (if (save =? 0)%nat then p1' else resize p1' save))
        by (destruct (save =? 0)%nat; [exact S1 | now apply same_resize]).
      destruct S2 as [CV2 L2] eqn:E2. rewrite CV2.
      apply IH. now split.
    + destruct S1 as [CV1 L1]. rewrite <- Hcatch, L1.
      split; [reflexivity|]. apply same_erase. now split.
Qed.

Lemma or_loop_same rec rec' org size use use' :
  Forall2 (fun t t' => forall p p', same_syntax p p' ->
                                    same_result (rec t p) (rec' t' p'))
          use use' ->
  forall stat max tmp p p',
    same_syntax p p' ->
    same_result (or_loop H rec org size use stat max tmp p)
                (or_loop H' rec' org size use' stat max tmp p').
Proof.
  induction 1 as [|t t' use use' R _ IH]; intros stat max tmp p p' Sy;
    cbn [or_loop].
  - now split.
  - pose proof Sy as [CV L]. rewrite <- CV.
    assert (S0 : same_syntax
                   (if (size <? List.length (cntxV p))%nat
                    then push p org else p)
                   (if (size <? List.length (cntxV p))%nat
                    then push p' org else p'))
      by (destruct (size <? _)%nat; [now apply same_push | exact Sy]).
    specialize (R _ _ S0). unfold same_result in R.
    match goal with |- same_result (match ?a with _ => _ end)
                                   (match ?b with _ => _ end) =>
      destruct a as [[r p1]|], b as [[r' p1']|]; try contradiction;
        [|exact I] end.
    destruct R as [<- S1]. pose proof (same_syntax_back _ _ S1) as B1.
    pose proof S1 as [CV1 L1]. rewrite <- B1, <- CV1.
    match goal with |- same_result (if ?c then _ else _) _ =>
      destruct c end.
    + assert (S2 : same_syntax
                     (if (size <? List.length (cntxV p))%nat
                      then _erase H p1 size (S (List.length (cntxV p)))
                      else p1)
                     (if (size <? List.length (cntxV p))%nat
                      then _erase H' p1' size (S (List.length (cntxV p)))
                      else p1'))
        by (destruct (size <? _)%nat; [now apply same_erase | exact S1]).
      destruct (has (stat ||| r) (eRet ||| e1st ||| eError)).
      * now split.
      * now apply IH.
    + apply IH.
      destruct (List.length (cntxV p) <? List.length (cntxV p1))%nat;
        [now apply same_erase | exact S1].
Qed.

Lemma cycle_loop_same rec rec' body body' min flag :
  (forall p p', same_syntax p p' ->
                same_result (rec body p) (rec' body' p')) ->
  forall n i stat p p',
    same_syntax p p' ->
    same_result (option_map snd (cycle_loop rec body min flag n i stat p))
                (option_map snd (cycle_loop rec' body' min flag n i stat p')).
Proof.
  intros R. induction n as [|n IH]; intros i stat p p' Sy; cbn [cycle_loop].
  - now split.
  - specialize (R p p' Sy). unfold same_result in R.
    destruct (rec body p) as [[r p1]|], (rec' body' p') as [[r' p1']|];
      try contradiction; [|exact I].
    destruct R as [<- S1].
    destruct (Z.land (stat ||| r) (eOk ||| eError) =? eOk).
    + now apply IH.
    + now split.
Qed.

Lemma parse_same f :
  forall t t' p p',
    unbind t = unbind t' -> same_syntax p p' ->
    same_result (parse H f t p) (parse H' f t' p').
Proof.
  induction f as [|f IH]; intros t t' p p' E Sy; [exact I|].
  pose proof (same_syntax_back _ _ Sy) as B. pose proof Sy as [CV L].
  destruct t as [m nm|a|flg|use|use|mn mx flag body|nm use|nm cb use];
    destruct t' as [m' nm'|a'|flg'|use'|use'|mn' mx' flag' body'|nm' use'
                    |nm' cb' use'];
    cbn [unbind] in E; try discriminate E; cbn [parse].
  - injection E as <- <-. unfold same_result.
    destruct (same_Token m nm nm p p' Sy) as [Es Sq].
    destruct (Token_parse H m nm p), (Token_parse H' m nm p'). now split.
  - injection E as <-. unfold Action_parse, same_result.
    rewrite <- Htext, <- B, <- CV. now split.
  - injection E as <-. now split.
  - injection E as E. rewrite <- CV. apply and_loop_same; [|exact Sy].
    apply map_unbind_Forall2 in E.
    eapply Forall2_impl; [|exact E]. intros a b Eab q q'. now apply IH.
  - injection E as E. rewrite <- CV, <- B. apply or_loop_same; [|exact Sy].
    apply map_unbind_Forall2 in E.
    eapply Forall2_impl; [|exact E]. intros a b Eab q q'. now apply IH.
  - injection E as <- <- <- E. apply cycle_loop_same; [|exact Sy].
    intros q q'. now apply IH.
  - injection E as <- <-. destruct use as [h|]; [|now split].
    rewrite <- (is_Action_unbind (defs H h)), <- (is_Action_unbind (defs H' h)).
    rewrite <- Hdefs, <- L.
    destruct ((level p =? 0) || is_Action (unbind (defs H h)));
      [now apply IH|].
    rewrite <- Htext, <- Hzero, <- B, <- CV.
    set (org := zero_parse H (text H) (back p)).
    assert (S0 : same_syntax (set_level (push p org) (level p - 1))
                             (set_level (push p' org) (level p - 1)))
      by (split; [cbn; now rewrite CV | reflexivity]).
    pose proof (IH (defs H h) (defs H' h) _ _ (Hdefs h) S0) as R.
    unfold same_result in R.
    destruct (parse H f (defs H h) (set_level (push p org) (level p - 1)))
      as [[st p1]|],
      (parse H' f (defs H' h) (set_level (push p' org) (level p - 1)))
      as [[st' p1']|]; try contradiction; [|exact I].
    destruct R as [<- [CV1 L1]].
    assert (S1 : same_syntax (set_level p1 (level p1 + 1))
                             (set_level p1' (level p1' + 1)))
      by (split; [exact CV1 | cbn; now rewrite L1]).
    pose proof (same_syntax_back _ _ S1) as B1.
    unfold grew. cbn [set_level cntxV]. rewrite <- CV1.
    match goal with |- same_result (if ?c then _ else _) _ =>
      destruct c end.
    + split; [reflexivity|]. rewrite <- B1.
      now apply same_collapse, same_stub.
    + split; [reflexivity|]. now apply same_resize.
  - injection E as <- <-. destruct use as [h|]; [|now split].
    rewrite <- L. destruct (level p =? 0); [now split|].
    rewrite <- (is_Action_unbind (defs H h)), <- (is_Action_unbind (defs H' h)).
    rewrite <- Hdefs.
    destruct (is_Action (unbind (defs H h))); [now apply IH|].
    assert (Pre : forall X x c, same_syntax x (snd (_pre_call X x c)))
      by (intros X x c; unfold _pre_call; destruct (klass X);
          [now split | now destruct c]).
    assert (Post : forall X x u, same_syntax x (_post_call X x u))
      by (intros X x u; unfold _post_call; now destruct (klass X)).
    pose proof (Pre H p cb) as [Pc Pl]. pose proof (Pre H' p' cb') as [Pc' Pl'].
    destruct (_pre_call H p cb) as [up p0], (_pre_call H' p' cb') as [up' p0'].
    cbn [snd] in *.
    assert (S0 : same_syntax p0 p0') by (split; congruence).
    pose proof (IH (defs H h) (defs H' h) _ _ (Hdefs h) S0) as R.
    unfold same_result in R.
    destruct (parse H f (defs H h) p0) as [[st p1]|],
             (parse H' f (defs H' h) p0') as [[st' p1']|];
      try contradiction; [|exact I].
    destruct R as [<- S1]. pose proof S1 as [CV1 L1].
    unfold grew. rewrite <- CV1, <- CV.
    match goal with |- same_result (if ?c then _ else _) _ =>
      destruct c end; (split; [reflexivity|]).
    + destruct (Post H (collapse p1 (List.length (cntxV p)))
                  (_do_call H p1 up cb
                     (nth (List.length (cntxV p)) (cntxV p1) 0%nat)
                     (back p1) nm)) as [A1 A2].
      destruct (Post H' (collapse p1' (List.length (cntxV p)))
                  (_do_call H' p1' up' cb'
                     (nth (List.length (cntxV p)) (cntxV p1') 0%nat)
                     (back p1') nm)) as [B1' B2'].
      destruct (same_collapse p1 p1' (List.length (cntxV p)) S1) as [C1 C2].
      split; congruence.
    + destruct (Post H (resize p1 (List.length (cntxV p))) up) as [A1 A2].
      destruct (Post H' (resize p1' (List.length (cntxV p))) up') as [B1' B2'].
      destruct (same_resize p1 p1' (List.length (cntxV p)) S1) as [C1 C2].
      split; congruence.
Qed.

End SameSyntax.



(** ** The discipline of the cursor stack *)

(** X10.  With a skipper that never moves back, an evaluation that
    returns has left the cursors of its entry where they were, has only
    pushed cursors at or after the cursor of its entry, and has restored
    the mode level. *)
Theorem evaluation_only_pushes_cursors (H : Host)
    (Hmono : forall t ptr, (ptr <= zero_parse H t ptr)%nat)
    (f : nat) (t : Tie) (p : Parser) (s : Z) (q : Parser)
    (E : parse H f t p = Some (s, q)) :
  firstn (List.length (cntxV p)) (cntxV q) = cntxV p /\
  (forall c, In c (skipn (List.length (cntxV p)) (cntxV q)) ->
             (back p <= c)%nat) /\
  (back p <= back q)%nat /\
  level q = level p.
Proof.
  pose proof (parse_extends H Hmono f t p s q E) as X.
  pose proof (back_extends _ _ X) as B.
  destruct X as (suf & CV & F & L).
  rewrite CV, firstn_exact, skipn_exact.
  split; [reflexivity|]. split; [|split; assumption].
  now apply Forall_forall.
Qed.

Lemma evaluation_only_pushes_cursors_witness :
  firstn 2 (cntxV (mkParser [0; 0; 0; 1]%nat 1 None 0)) = [0; 0]%nat /\
  level (mkParser [0; 0; 0; 1]%nat 1 None 0) = 1.
Proof.
  destruct (evaluation_only_pushes_cursors (host_base "ab")
              zero_parse_default_mono 3
              (_Or [_And [Token_s "a"; Token_s "c"]; Token_s "a"])
              (start (host_base "ab")) eOk
              (mkParser [0; 0; 0; 1]%nat 1 None 0) eq_refl)
    as (A & _ & _ & L).
  split; [exact A | exact L].
Defined.

Lemma or_loop_max_pos H rec org size use :
  forall stat max tmp p s q,
    0 < max ->
    or_loop H rec org size use stat max tmp p = Some (s, q) ->
    has s eOk = true.
Proof.
  induction use as [|t use IH]; intros stat max tmp p s q M; cbn [or_loop].
  - intros [= <- _]. apply or_ret_Ok. left. lia.
  - match goal with |- match rec t ?p' with _ => _ end = _ -> _ =>
      destruct (rec t p') as [[r p1]|]; [|discriminate] end.
    set (tmp' := if has (stat ||| r) (eOk ||| eError)
                 then Z.of_nat (back p1) - Z.of_nat org else tmp).
    destruct (has (stat ||| r) (eOk ||| eError)
              && ((tmp' >? max)
                  || (tmp' >? 0) && has (stat ||| r) (eRet ||| e1st ||| eError)))
      eqn:Acc.
    + assert (P : 0 < tmp').
      { apply andb_true_iff in Acc. destruct Acc as [_ Acc].
        apply orb_true_iff in Acc. destruct Acc as [Acc|Acc].
        - apply Z.gtb_lt in Acc. lia.
        - apply andb_true_iff in Acc. destruct Acc as [Acc _].
          now apply Z.gtb_lt in Acc. }
      destruct (has (stat ||| r) (eRet ||| e1st ||| eError)).
      * intros [= <- _]. apply or_ret_Ok. left. lia.
      * now apply IH.
    + now apply IH.
Qed.

Lemma or_loop_failure_cursors H rec p0 use :
  (forall t, In t use ->
     forall p r q, rec t p = Some (r, q) -> extends_from p q) ->
  forall stat tmp p s q,
    cntxV p = cntxV p0 ->
    or_loop H rec (back p0) (List.length (cntxV p0)) use stat 0 tmp p
    = Some (s, q) ->
    has s eOk = false ->
    cntxV q = cntxV p0.
Proof.
  induction use as [|t use IH]; intros K stat tmp p s q CV; cbn [or_loop].
  - now intros [= _ <-].
  - rewrite CV, Nat.ltb_irrefl.
    destruct (rec t p) as [[r p1]|] eqn:R; [|discriminate].
    destruct (K t (or_introl eq_refl) _ _ _ R) as (suf & CV1 & _).
    assert (K' : forall t, In t use ->
                 forall p r q, rec t p = Some (r, q) -> extends_from p q)
      by (intros t' I; apply K; now right).
    set (tmp' := if has (stat ||| r) (eOk ||| eError)
                 then Z.of_nat (back p1) - Z.of_nat (back p0) else tmp).
    destruct (has (stat ||| r) (eOk ||| eError)
              && ((tmp' >? 0)
                  || (tmp' >? 0) && has (stat ||| r) (eRet ||| e1st ||| eError)))
      eqn:Acc.
    + assert (P : 0 < tmp').
      { apply andb_true_iff in Acc. destruct Acc as [_ Acc].
        apply orb_true_iff in Acc. destruct Acc as [Acc|Acc].
        - now apply Z.gtb_lt in Acc.
        - apply andb_true_iff in Acc. destruct Acc as [Acc _].
          now apply Z.gtb_lt in Acc. }
      destruct (has (stat ||| r) (eRet ||| e1st ||| eError)).
      * intros [= <- _] No. exfalso.
        rewrite or_ret_Ok in No; [discriminate | left; lia].
      * intros E No. exfalso.
        rewrite (or_loop_max_pos _ _ _ _ _ _ _ _ _ _ _ P E) in No.
        discriminate.
    + apply IH; [exact K'|].
      rewrite <- CV.
      destruct (List.length (cntxV p) <? List.length (cntxV p1))%nat eqn:G.
      * rewrite cntxV_erase, CV1. unfold verase, erase_tail. cbn [Nat.eqb].
        apply firstn_exact.
      * apply Nat.ltb_ge in G. rewrite CV1, length_app in G.
        assert (suf = []) by (destruct suf; [reflexivity | simpl in G; lia]).
        subst suf. now rewrite CV1, app_nil_r.
Qed.

(** X11.  Backtracking restores the cursor stack: with a skipper that
    never moves back, a sequence or an alternation that returns without
    [eOk] leaves the cursor stack exactly as it was at its entry. *)
Theorem failure_restores_the_cursors (H : Host)
    (Hmono : forall t ptr, (ptr <= zero_parse H t ptr)%nat)
    (f : nat) (use : list Tie) (p : Parser) (s : Z) (q : Parser)
    (Hno : has s eOk = false) :
  (parse H (S f) (_And use) p = Some (s, q) -> cntxV q = cntxV p) /\
  (parse H (S f) (_Or use) p = Some (s, q) -> cntxV q = cntxV p).
Proof.
  split.
  - intros E. exact (And_failure_restores_cursors H Hmono f use p s q E Hno).
  - cbn [parse]. intros E.
    refine (or_loop_failure_cursors H (parse H f) p use _ 0 (-1) p s q
              eq_refl E Hno).
    intros t _ p' r q'. apply (parse_extends H Hmono).
Qed.

Lemma failure_restores_the_cursors_witness :
  cntxV (_erase (host_base "ab") (mkParser [0; 0; 0; 1]%nat 1 None 0) 2 0)
  = [0; 0]%nat.
Proof.
  destruct (failure_restores_the_cursors (host_base "ab")
              zero_parse_default_mono 1 [Token_s "a"; Token_s "c"]
              (start (host_base "ab")) 0
              (_erase (host_base "ab") (mkParser [0; 0; 0; 1]%nat 1 None 0)
                 2 0) eq_refl) as [A _].
  apply A. reflexivity.
Defined.

(** ** Lexical mode and the frame of values *)

Lemma same_frame_refl p : same_frame p p.
Proof. now split. Qed.

Lemma same_frame_trans p q r :
  same_frame p q -> same_frame q r -> same_frame p r.
Proof. intros (A & B & C) (A' & B' & C'). split; [|split]; congruence. Qed.

Lemma same_frame_cntxV p v : same_frame p (set_cntxV p v).
Proof. now split. Qed.

Lemma same_frame_erase H p lo up :
  level p = 0 -> same_frame p (_erase H p lo up).
Proof.
  intros L. unfold _erase. destruct (klass H); [apply same_frame_cntxV|].
  destruct (cntxU p); [|apply same_frame_cntxV].
  rewrite L. change (0 =? 0) with true. cbv iota. apply same_frame_cntxV.
Qed.

Lemma and_loop_lexical H rec size use :
  (forall t, In t use ->
     forall p r q, level p = 0 -> rec t p = Some (r, q) -> same_frame p q) ->
  forall stat save p s q,
    level p = 0 ->
    and_loop H rec size use stat save p = Some (s, q) -> same_frame p q.
Proof.
  induction use as [|t use IH]; intros K stat save p s q L; cbn [and_loop].
  - intros [= _ <-]. apply same_frame_refl.
  - destruct (rec t p) as [[r p1]|] eqn:R; [|discriminate].
    pose proof (K t (or_introl eq_refl) _ _ _ L R) as F1.
    assert (L1 : level p1 = 0) by (destruct F1 as (_ & _ & ->); exact L).
    destruct (Z.land (stat ||| r) (eOk ||| eError) =? eOk).
    + intros E. apply (same_frame_trans _ p1); [exact F1|].
      set (p2 := if (save =? 0)%nat then p1 else resize p1 save) in *.
      assert (F2 : same_frame p1 p2)
        by (unfold p2; destruct (save =? 0)%nat;
            [apply same_frame_refl | apply same_frame_cntxV]).
      apply (same_frame_trans _ p2); [exact F2|].
      refine (IH _ _ _ _ _ _ _ E).
      * intros t' I. apply K. now right.
      * destruct F2 as (_ & _ & ->). exact L1.
    + intros [= _ <-]. apply (same_frame_trans _ p1); [exact F1|].
      now apply same_frame_erase.
Qed.

Lemma or_loop_lexical H rec org size use :
  (forall t, In t use ->
     forall p r q, level p = 0 -> rec t p = Some (r, q) -> same_frame p q) ->
  forall stat max tmp p s q,
    level p = 0 ->
    or_loop H rec org size use stat max tmp p = Some (s, q) -> same_frame p q.
Proof.
  induction use as [|t use IH]; intros K stat max tmp p s q L; cbn [or_loop].
  - intros [= _ <-]. apply same_frame_refl.
  - set (p0 := if (size <? List.length (cntxV p))%nat then push p org else p).
    assert (F0 : same_frame p p0)
      by (unfold p0; destruct (size <? _)%nat;
          [apply same_frame_cntxV | apply same_frame_refl]).
    assert (L0 : level p0 = 0) by (destruct F0 as (_ & _ & ->); exact L).
    destruct (rec t p0) as [[r p1]|] eqn:R; [|discriminate].
    pose proof (K t (or_introl eq_refl) _ _ _ L0 R) as F1.
    assert (L1 : level p1 = 0) by (destruct F1 as (_ & _ & ->); exact L0).
    assert (K' : forall t, In t use ->
                 forall p r q, level p = 0 -> rec t p = Some (r, q) ->
                               same_frame p q)
      by (intros t' I; apply K; now right).
    assert (F01 : same_frame p p1) by (now apply (same_frame_trans _ p0)).
    match goal with |- (if ?c then _ else _) = _ -> _ => destruct c end.
    + set (p2 := if (size <? List.length (cntxV p))%nat
                 then _erase H p1 size (S (List.length (cntxV p))) else p1).
      assert (F2 : same_frame p1 p2)
        by (unfold p2; destruct (size <? _)%nat;
            [now apply same_frame_erase | apply same_frame_refl]).
      destruct (has (stat ||| r) (eRet ||| e1st ||| eError)).
      * intros [= _ <-]. now apply (same_frame_trans _ p1).
      * intros E. apply (same_frame_trans _ p2);
          [now apply (same_frame_trans _ p1)|].
        refine (IH K' _ _ _ _ _ _ _ E).
        destruct F2 as (_ & _ & ->). exact L1.
    + set (p2 := if (List.length (cntxV p) <? List.length (cntxV p1))%nat
                 then _erase H p1 (List.length (cntxV p)) 0 else p1).
      assert (F2 : same_frame p1 p2)
        by (unfold p2;
            destruct (List.length (cntxV p) <? List.length (cntxV p1))%nat;
            [now apply same_frame_erase | apply same_frame_refl]).
      intros E. apply (same_frame_trans _ p2);
        [now apply (same_frame_trans _ p1)|].
      refine (IH K' _ _ _ _ _ _ _ E).
      destruct F2 as (_ & _ & ->). exact L1.
Qed.

Lemma cycle_loop_lexical rec body min flag :
  (forall p r q, level p = 0 -> rec body p = Some (r, q) -> same_frame p q) ->
  forall n i stat p j s q,
    level p = 0 ->
    cycle_loop rec body min flag n i stat p = Some (j, (s, q)) ->
    same_frame p q.
Proof.
  intros K. induction n as [|n IH]; intros i stat p j s q L; cbn [cycle_loop].
  - intros E. inversion E; subst. apply same_frame_refl.
  - destruct (rec body p) as [[r p1]|] eqn:R; [|discriminate].
    pose proof (K _ _ _ L R) as F1.
    destruct (Z.land (stat ||| r) (eOk ||| eError) =? eOk).
    + intros E. apply (same_frame_trans _ p1); [exact F1|].
      refine (IH _ _ _ _ _ _ _ E). destruct F1 as (_ & _ & ->). exact L.
    + intros E. inversion E; subst. exact F1.
Qed.

Lemma parse_lexical H f :
  forall t p s q,
    level p = 0 -> parse H f t p = Some (s, q) -> same_frame p q.
Proof.
  induction f as [|f IH]; intros t p s q L; [discriminate|].
  destruct t as [m nm|a|flg|use|use|mn mx flag body|nm use|nm cb use];
    cbn [parse].
  - unfold Token_parse. rewrite L. change (0 =? 0) with true. cbv iota zeta.
    destruct (m (deref (text H) (back p))); intros [= _ <-];
      [apply same_frame_cntxV | apply same_frame_refl].
  - unfold Action_parse. intros [= _ <-]. apply same_frame_refl.
  - intros [= _ <-]. apply same_frame_refl.
  - apply and_loop_lexical; [|exact L]. intros t _. apply IH.
  - apply or_loop_lexical; [|exact L]. intros t _. apply IH.
  - destruct (cycle_loop (parse H f) body mn flag (Z.to_nat mx) 0 0 p)
      as [[j [s' q']]|] eqn:E; [|discriminate].
    intros [= <- <-].
    exact (cycle_loop_lexical _ _ _ _ (IH body) _ _ _ _ _ _ _ L E).
  - destruct use as [h|]; [|intros [= _ <-]; apply same_frame_refl].
    rewrite L. change (0 =? 0) with true. cbn [orb]. now apply IH.
  - destruct use as [h|]; [|intros [= _ <-]; apply same_frame_refl].
    rewrite L. change (0 =? 0) with true. cbv iota.
    intros [= _ <-]. apply same_frame_refl.
Qed.

Lemma collapse_span p1 v a b suf :
  cntxV p1 = v ++ a :: b :: suf ->
  cntxV (collapse p1 (List.length v)) = v ++ [a; back p1].
Proof.
  intros CV. unfold collapse. cbn [cntxV set_cntxV]. rewrite CV.
  replace (S (List.length v) <? _)%nat with true
    by (symmetry; apply Nat.ltb_lt; rewrite !length_app; simpl; lia).
  replace (v ++ a :: b :: suf) with (((v ++ [a]) ++ [b]) ++ suf)
    by (now rewrite <- !app_assoc).
  replace (S (S (List.length v))) with (List.length ((v ++ [a]) ++ [b]))
    by (rewrite !length_app; simpl; lia).
  rewrite skipn_exact.
  replace (((v ++ [a]) ++ [b]) ++ suf) with ((v ++ [a]) ++ b :: suf)
    by (now rewrite <- !app_assoc).
  replace (S (List.length v)) with (List.length (v ++ [a]))
    by (rewrite length_app; simpl; lia).
  rewrite firstn_exact. unfold vresize.
  replace ((v ++ [a]) ++ back p1 :: suf)
    with (((v ++ [a]) ++ [back p1]) ++ suf) by (now rewrite <- !app_assoc).
  replace (List.length ((v ++ [a]) ++ [b]))
    with (List.length ((v ++ [a]) ++ [back p1]))
    by (rewrite !length_app; reflexivity).
  rewrite firstn_exact.
  replace (_ - _)%nat with 0%nat by (rewrite !length_app; simpl; lia).
  cbn [repeat]. now rewrite app_nil_r, <- app_assoc.
Qed.

(** A lexem in syntactic mode: its body runs in lexical mode and leaves
    at most one span and one value. *)
Lemma Lexem_one_span (H : Host)
    (Hmono : forall t ptr, (ptr <= zero_parse H t ptr)%nat)
    (f : nat) (nm : string) (h : nat) (p : Parser) (s : Z) (q : Parser)
    (Hlevel : level p = 1) (Hbody : is_Action (defs H h) = false)
    (E : parse H (S f) (Lexem nm (Some h)) p = Some (s, q)) :
  let org := zero_parse H (text H) (back p) in
  level q = 1 /\ off q = off p /\
  ((cntxV q = cntxV p /\ cntxU q = cntxU p) \/
   (has s eOk = true /\
    exists e, (org <= e)%nat /\ back q = e /\
              cntxV q = cntxV p ++ [org; e] /\
              cntxU q = with_stub H (cntxU p) org e nm)).
Proof.
  cbv zeta. cbn [parse] in E. rewrite Hlevel, Hbody in E.
  change (1 =? 0) with false in E. cbn [orb] in E. cbv iota in E.
  change (1 - 1) with 0 in E.
  set (org := zero_parse H (text H) (back p)) in *.
  set (p0 := set_level (push p org) 0) in *.
  destruct (parse H f (defs H h) p0) as [[st p1]|] eqn:B; [|discriminate].
  assert (L0 : level p0 = 0) by reflexivity.
  pose proof (parse_lexical H f _ _ _ _ L0 B) as (FU & FO & FL).
  pose proof (parse_extends H Hmono f _ _ _ _ B) as X.
  pose proof (back_extends _ _ X) as Bk.
  destruct X as (suf & CV & Fs & _).
  assert (B0 : back p0 = org)
    by (unfold back, p0; cbn [set_level push set_cntxV cntxV];
        apply last_last).
  rewrite B0 in Bk. rewrite FL, L0 in E. change (0 + 1) with 1 in E.
  cbn [p0 set_level push set_cntxV cntxV cntxU off level] in *.
  destruct (has st eOk && grew (set_level p1 1) (List.length (cntxV p)))
    eqn:G.
  - injection E as <- <-. apply andb_true_iff in G. destruct G as [Ok G].
    unfold grew in G. cbn [set_level cntxV] in G.
    rewrite CV, !length_app in G.
    destruct suf as [|a suf].
    { exfalso. cbn [List.length] in G.
      replace (Z.of_nat (List.length (cntxV p) + 1 + 0)
               - Z.of_nat (List.length (cntxV p))) with 1 in G by lia.
      discriminate G. }
    clear G.
    split; [unfold collapse; cbn [level set_cntxV]; now rewrite level_stub|].
    split.
    { unfold collapse, _stub_call. cbn [set_level cntxU].
      destruct (klass H); [exact FO|]. destruct (cntxU p1); exact FO. }
    right. split; [exact Ok|]. exists (back p1).
    assert (CVq : cntxV (collapse (_stub_call H (set_level p1 1) org
                                     (back (set_level p1 1)) nm)
                           (List.length (cntxV p)))
                  = cntxV p ++ [org; back p1]).
    { rewrite (collapse_span _ (cntxV p) org a suf).
      - unfold back. now rewrite cntxV_stub.
      - rewrite cntxV_stub. cbn [set_level cntxV].
        now rewrite CV, <- app_assoc. }
    split; [exact Bk|]. split.
    + unfold back at 1. rewrite CVq.
      change [org; back p1] with ([org] ++ [back p1]).
      now rewrite app_assoc, last_last.
    + split; [exact CVq|].
      unfold collapse, _stub_call, with_stub.
      change (cntxU (set_level p1 1)) with (cntxU p1). rewrite FU.
      destruct (klass H); [exact FU|].
      destruct (cntxU p); [reflexivity | exact FU].
  - injection E as <- <-. split; [reflexivity|]. split; [exact FO|]. left.
    split; [|exact FU].
    cbn [resize set_cntxV set_level cntxV]. rewrite CV, <- app_assoc.
    unfold vresize. rewrite firstn_exact.
    replace (_ - _)%nat with 0%nat by (rewrite !length_app; lia).
    apply app_nil_r.
Qed.

(** X12.  A lexem contributes one span and one value, or nothing.  In
    lexical mode (level 0) a [Lexem] is its body, and the evaluation
    touches neither the frame of values nor its offset.  In syntactic
    mode (level 1), with a skipper that never moves back, a [Lexem] whose
    body is not an [Action] evaluates its body in lexical mode; it then
    leaves the context as it found it or, and only with [eOk], leaves two
    more cursors, the skipped start [org] and the end of the match, and
    one more value in the frame, the stub for that span under its
    name. *)
Theorem Lexem_contributes_one_span (H : Host)
    (Hmono : forall t ptr, (ptr <= zero_parse H t ptr)%nat)
    (f : nat) (nm : string) (h : nat) (p : Parser) (s : Z) (q : Parser)
    (Hbody : is_Action (defs H h) = false)
    (E : parse H (S f) (Lexem nm (Some h)) p = Some (s, q)) :
  let org := zero_parse H (text H) (back p) in
  (level p = 0 ->
     parse H f (defs H h) p = Some (s, q) /\
     level q = 0 /\ off q = off p /\ cntxU q = cntxU p) /\
  (level p = 1 ->
     level q = 1 /\ off q = off p /\
     ((cntxV q = cntxV p /\ cntxU q = cntxU p) \/
      (has s eOk = true /\
       exists e, (org <= e)%nat /\ back q = e /\
                 cntxV q = cntxV p ++ [org; e] /\
                 cntxU q = with_stub H (cntxU p) org e nm))).
Proof.
  cbv zeta. split; intros L.
  - cbn [parse] in E. rewrite L in E. change (0 =? 0) with true in E.
    cbn [orb] in E. split; [exact E|].
    destruct (parse_lexical H f _ _ _ _ L E) as (FU & FO & FL).
    split; [now rewrite FL|]. now split.
  - exact (Lexem_one_span H Hmono f nm h p s q L Hbody E).
Qed.

Lemma Lexem_contributes_one_span_witness :
  level (mkParser [0; 0; 1; 4]%nat 1 (Some [Interface_stub 1 3 "Word"]) 0)
  = 1 /\
  off (mkParser [0; 0; 1; 4]%nat 1 (Some [Interface_stub 1 3 "Word"]) 0)
  = off (start (host_U " abc." (fun _ => Star (Token_s "abc")))).
Proof.
  destruct (Lexem_contributes_one_span
              (host_U " abc." (fun _ => Star (Token_s "abc")))
              zero_parse_default_mono 2 "Word" 0
              (start (host_U " abc." (fun _ => Star (Token_s "abc"))))
              eOk
              (mkParser [0; 0; 1; 4]%nat 1
                 (Some [Interface_stub 1 3 "Word"]) 0)
              eq_refl eq_refl) as (_ & K).
  destruct (K eq_refl) as (L & O & _).
  split; [exact L | exact O].
Defined.

(** ** Literal lexems *)

Lemma c_chars_length s : List.length (c_chars s) = strlen s.
Proof.
  induction s as [|c s IH]; simpl; [reflexivity|].
  destruct (N_of_ascii c =? 0)%N; simpl; [reflexivity | now rewrite IH].
Qed.

Lemma c_chars_nonzero s : Forall (fun c => N_of_ascii c <> 0%N) (c_chars s).
Proof.
  induction s as [|c s IH]; simpl; [constructor|].
  destruct (N_of_ascii c =? 0)%N eqn:E; [constructor|].
  constructor; [now apply N.eqb_neq | exact IH].
Qed.

Lemma uchar_char_int c : uchar (char_int c) = N_of_ascii c.
Proof.
  pose proof (N_ascii_bounded c) as B. unfold uchar, char_int. cbv zeta.
  destruct (Z.ltb_spec (Z.of_N (N_of_ascii c)) 128).
  - rewrite Z.mod_small by lia. apply N2Z.id.
  - replace (Z.of_N (N_of_ascii c) - 256)
      with (Z.of_N (N_of_ascii c) + (-1) * 256) by lia.
    rewrite Z.mod_add by lia. rewrite Z.mod_small by lia. apply N2Z.id.
Qed.

Lemma Token_c_class (cs : bool) c b :
  Add (fun _ => false) (char_int c) (if cs then 1 else 0) b
  = same_char cs c b.
Proof.
  pose proof (N_ascii_bounded c) as B. pose proof (uchar_char_int c) as U.
  unfold same_char. cbv zeta. set (n := Z.of_N (N_of_ascii c)) in *.
  assert (Eb : (b =? N_of_ascii c)%N = (Z.of_N b =? n)).
  { unfold n. destruct (N.eqb_spec b (N_of_ascii c)) as [->|NE].
    - now rewrite Z.eqb_refl.
    - symmetry. apply Z.eqb_neq. lia. }
  destruct cs; unfold Add.
  - change (1 =? 1) with true. cbv iota. unfold bs_set at 1. rewrite U, Eb.
    destruct (Z.of_N b =? n) eqn:E1; [reflexivity|]. cbn [orb andb].
    unfold char_int. fold n. cbv zeta.
    destruct (Z.ltb_spec n 128) as [Lt|Ge].
    + destruct ((65 <=? n) && (n <=? 90)) eqn:Up.
      * apply andb_true_iff in Up. destruct Up as [U1 U2].
        apply Z.leb_le in U1, U2.
        replace ((97 <=? n) && (n <=? 122)) with false
          by (symmetry; apply andb_false_iff; left; apply Z.leb_gt; lia).
        cbn [andb orb]. rewrite orb_false_r. unfold bs_set.
        destruct (N.eqb_spec b (Z.to_N (n - 65 + 97))) as [->|NE].
        -- symmetry. apply Z.eqb_eq. lia.
        -- symmetry. apply Z.eqb_neq. lia.
      * cbn [andb orb]. destruct ((97 <=? n) && (n <=? 122)) eqn:Lo.
        -- apply andb_true_iff in Lo. destruct Lo as [L1 L2].
           apply Z.leb_le in L1, L2. cbn [andb]. unfold bs_set.
           destruct (N.eqb_spec b (Z.to_N (n - 97 + 65))) as [->|NE].
           ++ symmetry. apply Z.eqb_eq. lia.
           ++ symmetry. apply Z.eqb_neq. lia.
        -- reflexivity.
    + replace ((65 <=? n - 256) && (n - 256 <=? 90)) with false
        by (symmetry; apply andb_false_iff; left; apply Z.leb_gt; lia).
      replace ((97 <=? n - 256) && (n - 256 <=? 122)) with false
        by (symmetry; apply andb_false_iff; left; apply Z.leb_gt; lia).
      replace ((65 <=? n) && (n <=? 90)) with false
        by (symmetry; apply andb_false_iff; right; apply Z.leb_gt; lia).
      replace ((97 <=? n) && (n <=? 122)) with false
        by (symmetry; apply andb_false_iff; right; apply Z.leb_gt; lia).
      reflexivity.
  - change (0 =? 1) with false. change (0 =? 0) with true. cbv iota.
    unfold bs_set. rewrite U, Eb. cbn [andb].
    destruct (Z.of_N b =? n); reflexivity.
Qed.

Lemma same_char_not_nul cs c :
  N_of_ascii c <> 0%N -> same_char cs c 0 = false.
Proof.
  intros NZ. pose proof (N_ascii_bounded c) as B. unfold same_char. cbv zeta.
  change (Z.of_N 0) with 0.
  replace (0 =? Z.of_N (N_of_ascii c)) with false
    by (symmetry; apply Z.eqb_neq; lia).
  replace (0 =? Z.of_N (N_of_ascii c) + 32) with false
    by (symmetry; apply Z.eqb_neq; lia).
  destruct cs; [|reflexivity]. cbn [orb andb]. rewrite andb_false_r.
  cbn [orb].
  destruct (Z.leb_spec 97 (Z.of_N (N_of_ascii c))); [|reflexivity].
  cbn [andb].
  replace (0 =? Z.of_N (N_of_ascii c) - 32) with false
    by (symmetry; apply Z.eqb_neq; lia).
  apply andb_false_r.
Qed.

Lemma Token_c_lexical H f cs c p :
  level p = 0 ->
  parse H (S f) (Token_c cs c) p
  = Some (if same_char cs c (deref (text H) (back p))
          then (eOk ||| eof_at (text H) (S (back p)), push p (S (back p)))
          else (0, p)).
Proof.
  intros L. cbn [parse Token_c Token_range]. unfold Token_parse.
  rewrite L. change (0 =? 0) with true. cbv iota zeta.
  rewrite Token_c_class. unfold eof_at.
  destruct (same_char cs c (deref (text H) (back p))); [|reflexivity].
  destruct (deref (text H) (S (back p)) =? 0)%N; reflexivity.
Qed.

Lemma and_loop_literal H f cs size l :
  Forall (fun c => N_of_ascii c <> 0%N) l ->
  forall p,
    level p = 0 ->
    exists q,
      and_loop H (parse H (S f)) size (map (Token_c cs) l)
        (eof_at (text H) (back p)) 0 p
      = Some ((if (matched cs l (text H) (back p) =? List.length l)%nat
               then eOk ||| eof_at (text H) (back p + List.length l)
               else if (deref (text H)
                          (back p + matched cs l (text H) (back p)) =? 0)%N
                    then eError ||| eEof else 0), q) /\
      (matched cs l (text H) (back p) = List.length l ->
         back q = (back p + List.length l)%nat /\
         exists suf, cntxV q = cntxV p ++ suf /\
                     List.length suf = List.length l) /\
      (matched cs l (text H) (back p) <> List.length l ->
         exists suf, cntxV q = firstn size (cntxV p ++ suf)).
Proof.
  induction 1 as [|c l NZ _ IH]; intros p L.
  - exists p. cbn [map and_loop matched List.length Nat.eqb].
    rewrite Nat.add_0_r. split; [|split].
    + unfold eof_at. destruct (deref (text H) (back p) =? 0)%N; reflexivity.
    + intros _. split; [reflexivity|]. exists []. now rewrite app_nil_r.
    + intros K. now destruct K.
  - cbn [map and_loop matched List.length]. rewrite Token_c_lexical by exact L.
    destruct (same_char cs c (deref (text H) (back p))) eqn:M.
    + assert (D : (deref (text H) (back p) =? 0)%N = false).
      { destruct (N.eqb_spec (deref (text H) (back p)) 0) as [Z0|]; [|easy].
        rewrite Z0, same_char_not_nul in M by exact NZ. discriminate. }
      destruct (IH (push p (S (back p))) L) as (q & E & Full & Part).
      rewrite back_push in *. exists q. split; [|split].
      * assert (E0 : eof_at (text H) (back p) = 0)
          by (unfold eof_at; now rewrite D).
        rewrite E0.
        replace (Z.land (0 ||| (eOk ||| eof_at (text H) (S (back p))))
                   (eOk ||| eError) =? eOk) with true
          by (unfold eof_at;
              destruct (deref (text H) (S (back p)) =? 0)%N; reflexivity).
        change (0 =? 0)%nat with true. cbv iota zeta.
        replace (has (0 ||| (eOk ||| eof_at (text H) (S (back p)))) eSkip)
          with false
          by (unfold eof_at;
              destruct (deref (text H) (S (back p)) =? 0)%N; reflexivity).
        replace (clr (0 ||| (eOk ||| eof_at (text H) (S (back p))))
                   (eSkip ||| eRet ||| eOk))
          with (eof_at (text H) (S (back p)))
          by (unfold eof_at;
              destruct (deref (text H) (S (back p)) =? 0)%N; reflexivity).
        rewrite E. cbn [Nat.eqb].
        now rewrite <- !Nat.add_succ_comm.
      * intros K. injection K as K. destruct (Full K) as (Bq & suf & CV & Ls).
        split; [rewrite Bq; lia|].
        exists (S (back p) :: suf). split; [|simpl; now rewrite Ls].
        rewrite CV, cntxV_push, <- app_assoc. reflexivity.
      * intros K. destruct Part as (suf & CV); [congruence|].
        exists (S (back p) :: suf).
        rewrite CV, cntxV_push, <- app_assoc. reflexivity.
    + exists (_erase H p size 0). cbn [Nat.eqb]. rewrite Nat.add_0_r.
      split; [|split].
      * rewrite L. change (0 =? 0) with true. cbn [negb andb]. unfold eof_at.
        destruct (deref (text H) (back p) =? 0)%N; reflexivity.
      * intros K. discriminate K.
      * intros _. exists []. now rewrite cntxV_erase, app_nil_r.
Qed.

Lemma Lexem_wrap H f nm h p st p1 suf :
  level p = 1 -> is_Action (defs H h) = false ->
  parse H f (defs H h)
    (set_level (push p (zero_parse H (text H) (back p))) 0) = Some (st, p1) ->
  cntxV p1 = cntxV p ++ zero_parse H (text H) (back p) :: suf ->
  Z.of_nat (List.length suf) < 2 ^ 64 - 1 ->
  exists q,
    parse H (S f) (Lexem nm (Some h)) p = Some (st, q) /\
    (has st eOk = true -> suf <> [] ->
       cntxV q = cntxV p ++ [zero_parse H (text H) (back p); back p1] /\
       cntxU q = with_stub H (cntxU p) (zero_parse H (text H) (back p))
                   (back p1) nm) /\
    (has st eOk = false \/ suf = [] ->
       cntxV q = cntxV p /\ cntxU q = cntxU p).
Proof.
  intros Hlevel Hbody B CV Len.
  set (org := zero_parse H (text H) (back p)) in *.
  assert (L0 : level (set_level (push p org) 0) = 0) by reflexivity.
  pose proof (parse_lexical H f _ _ _ _ L0 B) as (FU & _ & FL).
  rewrite L0 in FL. clear L0.
  cbn [set_level push set_cntxV cntxU level] in FU.
  cbn [parse]. rewrite Hlevel, Hbody.
  change (1 =? 0) with false. cbn [orb]. cbv iota zeta.
  change (1 - 1) with 0. fold org. rewrite B, FL. change (0 + 1) with 1.
  assert (G : grew (set_level p1 1) (List.length (cntxV p))
              = negb (List.length suf =? 0)%nat).
  { unfold grew. cbn [set_level cntxV]. rewrite CV, length_app.
    cbn [List.length].
    replace (Z.of_nat (List.length (cntxV p) + S (List.length suf))
             - Z.of_nat (List.length (cntxV p)))
      with (Z.of_nat (List.length suf) + 1) by lia.
    rewrite Z.mod_small by lia.
    destruct suf; [reflexivity|]. cbn [List.length Nat.eqb negb].
    apply Z.gtb_lt. lia. }
  rewrite G.
  destruct (has st eOk) eqn:Ok; cbn [andb].
  - destruct suf as [|a suf]; cbn [List.length Nat.eqb negb].
    + eexists. split; [reflexivity|]. split; [intros _ K; now destruct K|].
      intros _. split; [|exact FU].
      cbn [resize set_cntxV set_level cntxV]. rewrite CV. unfold vresize.
      rewrite firstn_exact.
      replace (_ - _)%nat with 0%nat by (rewrite !length_app; lia).
      apply app_nil_r.
    + eexists. split; [reflexivity|]. split.
      * intros _ _. split.
        -- rewrite (collapse_span _ (cntxV p) org a suf).
           ++ unfold back. now rewrite cntxV_stub.
           ++ now rewrite cntxV_stub.
        -- unfold collapse, _stub_call, with_stub.
           change (cntxU (set_level p1 1)) with (cntxU p1). rewrite FU.
           destruct (klass H); [exact FU|].
           destruct (cntxU p); [reflexivity | exact FU].
      * intros [K|K]; discriminate K.
  - eexists. split; [reflexivity|]. split; [intros K; discriminate K|].
    intros _. split; [|exact FU].
    cbn [resize set_cntxV set_level cntxV]. rewrite CV. unfold vresize.
    rewrite firstn_exact.
    replace (_ - _)%nat with 0%nat by (rewrite !length_app; lia).
    apply app_nil_r.
Qed.

(** X13.  A literal lexem matches exactly its literal.  [Lexem(literal,
    cs)] in syntactic mode skips with [zero_parse] to [org] and compares
    the bytes from there on with the characters of the literal, letters
    in either case when [cs] is set, no skipping in between.  When all
    [n] match it returns [eOk], with [eEof] when the text ends there,
    and leaves the span [org, org + n] and one value; when the text
    differs after [k < n] characters it leaves the context as it was and
    returns 0, or [eError|eEof] when the text ended inside the literal;
    the empty literal is a lexem without a body, [eError|eBadLexem]. *)
Theorem Lexem_literal_matches (H : Host) (literal : string) (cs : bool)
    (h f : nat) (p : Parser) (Hlevel : level p = 1)
    (Hlen : Z.of_nat (strlen literal) < 2 ^ 31)
    (Hdefs : forall b, literal_body literal cs = Some b -> defs H h = b) :
  let org := zero_parse H (text H) (back p) in
  let n := strlen literal in
  let k := matched cs (c_chars literal) (text H) org in
  exists s q,
    parse H (S (S (S f))) (Lexem_literal literal cs h) p = Some (s, q) /\
    (n = 0%nat -> s = eError ||| eBadLexem /\ q = p) /\
    ((0 < n)%nat -> k = n ->
       s = eOk ||| eof_at (text H) (org + n) /\
       cntxV q = cntxV p ++ [org; (org + n)%nat] /\
       cntxU q = with_stub H (cntxU p) org (org + n) (c_str literal)) /\
    ((k < n)%nat ->
       s = (if (0 <? k)%nat && (deref (text H) (org + k) =? 0)%N
            then eError ||| eEof else 0) /\
       cntxV q = cntxV p /\ cntxU q = cntxU p).
Proof.
  cbv zeta. set (org := zero_parse H (text H) (back p)).
  pose proof (c_chars_length literal) as Ln.
  pose proof (c_chars_nonzero literal) as NZ.
  unfold Lexem_literal. unfold literal_body in *.
  set (p0 := set_level (push p org) 0).
  assert (B0 : back p0 = org) by apply back_push.
  assert (L0 : level p0 = 0) by reflexivity.
  destruct (c_chars literal) as [|c0 [|c1 l]] eqn:Ec.
  - exists (eError ||| eBadLexem), p. cbn [List.length] in Ln.
    split; [reflexivity|]. split; [now split|].
    split; intros K; exfalso; lia.
  - specialize (Hdefs _ eq_refl). cbn [List.length] in Ln.
    pose proof (Token_c_lexical H (S f) cs c0 p0 L0) as T.
    rewrite B0 in T. cbn [matched].
    destruct (same_char cs c0 (deref (text H) org)) eqn:M.
    + destruct (Lexem_wrap H (S (S f)) (c_str literal) h p
                  (eOk ||| eof_at (text H) (S org)) (push p0 (S org))
                  [S org] Hlevel)
        as (q & E & Full & _).
      * now rewrite Hdefs.
      * rewrite Hdefs. exact T.
      * unfold p0. cbn [set_level push set_cntxV cntxV].
        now rewrite <- app_assoc.
      * simpl. lia.
      * exists (eOk ||| eof_at (text H) (S org)), q.
        split; [exact E|]. rewrite <- Ln.
        split; [intros K; discriminate K|].
        replace (org + 1)%nat with (S org) by lia.
        rewrite back_push in Full. split.
        -- intros _ _. split; [reflexivity|]. apply Full; [|discriminate].
           unfold eof_at. destruct (deref (text H) (S org) =? 0)%N; reflexivity.
        -- intros K. exfalso. lia.
    + destruct (Lexem_wrap H (S (S f)) (c_str literal) h p 0 p0 [] Hlevel)
        as (q & E & _ & Part).
      * now rewrite Hdefs.
      * rewrite Hdefs. exact T.
      * reflexivity.
      * simpl. lia.
      * exists 0, q. split; [exact E|]. rewrite <- Ln.
        split; [intros K; discriminate K|].
        split; [intros _ K; discriminate K|].
        intros _. split; [reflexivity|]. apply Part. now right.
  - specialize (Hdefs _ eq_refl).
    set (use := c0 :: c1 :: l) in *.
    assert (Body : exists st p1 suf,
               parse H (S (S f)) (_And (map (Token_c cs) use)) p0
               = Some (st, p1) /\
               cntxV p1 = cntxV p0 ++ suf /\
               (matched cs use (text H) org = List.length use ->
                  st = eOk ||| eof_at (text H) (org + List.length use) /\
                  back p1 = (org + List.length use)%nat /\
                  List.length suf = List.length use) /\
               (matched cs use (text H) org <> List.length use ->
                  st = (if (0 <? matched cs use (text H) org)%nat
                           && (deref (text H)
                                 (org + matched cs use (text H) org) =? 0)%N
                        then eError ||| eEof else 0) /\
                  suf = [])).
    { rewrite parse_And.
      destruct (deref (text H) org =? 0)%N eqn:D.
      - apply N.eqb_eq in D.
        assert (M : same_char cs c0 (deref (text H) org) = false)
          by (rewrite D; apply same_char_not_nul; now inversion NZ).
        unfold use. set (tl := c1 :: l).
        cbn [map and_loop matched List.length].
        rewrite Token_c_lexical by exact L0. rewrite B0, M.
        change (Z.land (0 ||| 0) (eOk ||| eError) =? eOk) with false.
        cbv iota. rewrite L0. change (0 =? 0) with true. cbn [negb andb].
        cbv iota.
        exists 0, (_erase H p0 (List.length (cntxV p0)) 0), [].
        split; [reflexivity|]. split.
        { rewrite cntxV_erase, app_nil_r. unfold verase, erase_tail.
          cbn [Nat.eqb]. apply firstn_all. }
        split; [intros K; discriminate K|]. intros _. now split.
      - destruct (and_loop_literal H f cs (List.length (cntxV p0)) use NZ
                    p0 L0) as (q & E & Full & Part).
        rewrite B0 in *.
        assert (E0 : eof_at (text H) org = 0)
          by (unfold eof_at; now rewrite D).
        rewrite E0 in E. rewrite E.
        destruct (Nat.eq_dec (matched cs use (text H) org) (List.length use))
          as [K|K].
        + destruct (Full K) as (Bq & suf & CV & Ls).
          rewrite K, Nat.eqb_refl. eexists. exists q, suf.
          split; [reflexivity|]. split; [exact CV|].
          split; [intros _; now split | intros K'; now destruct K'].
        + destruct (Part K) as (suf & CV).
          rewrite firstn_exact in CV.
          replace (_ =? _)%nat with false
            by (symmetry; now apply Nat.eqb_neq).
          eexists. exists q, []. split; [reflexivity|].
          split; [now rewrite app_nil_r|].
          split; [intros K'; now destruct K'|]. intros _. split; [|reflexivity].
          destruct (matched cs use (text H) org) as [|k'].
          * rewrite Nat.add_0_r, D. reflexivity.
          * reflexivity. }
    destruct Body as (st & p1 & suf & B & CV & Full & Part).
    rewrite Ln in *.
    assert (Ls : Z.of_nat (List.length suf) < 2 ^ 64 - 1).
    { destruct (Nat.eq_dec (matched cs use (text H) org) (strlen literal))
        as [K|K].
      - destruct (Full K) as (_ & _ & ->). lia.
      - destruct (Part K) as (_ & ->). simpl. lia. }
    destruct (Lexem_wrap H (S (S f)) (c_str literal) h p st p1 suf Hlevel)
      as (q & E & WF & WP).
    + now rewrite Hdefs.
    + rewrite Hdefs. exact B.
    + rewrite CV. unfold p0. cbn [set_level push set_cntxV cntxV].
      now rewrite <- app_assoc.
    + exact Ls.
    + exists st, q. split; [exact E|].
      split; [intros K; unfold use in Ln; simpl in Ln; lia|]. split.
      * intros _ K. destruct (Full K) as (Es & Bq & Lsuf).
        split; [exact Es|]. rewrite <- Bq. apply WF.
        -- rewrite Es. unfold eof_at.
           destruct (deref (text H) (org + strlen literal) =? 0)%N;
             reflexivity.
        -- intros ->. unfold use in Ln. simpl in Lsuf, Ln. lia.
      * intros K. destruct Part as (Es & Esuf); [lia|].
        split; [exact Es|]. apply WP. now right.
Qed.

Lemma Lexem_literal_matches_witness :
  exists s q,
    parse (host_U "  If x" (fun _ => _And [Token_c true "i"; Token_c true "f"]))
      3 (Lexem_literal "if" true 0)
      (start (host_U "  If x"
                (fun _ => _And [Token_c true "i"; Token_c true "f"])))
    = Some (s, q) /\
    s = eOk /\ cntxV q = [0; 0; 2; 4]%nat /\
    cntxU q = Some [Interface_stub 2 2 "if"].
Proof.
  destruct (Lexem_literal_matches
              (host_U "  If x"
                 (fun _ => _And [Token_c true "i"; Token_c true "f"]))
              "if" true 0 0
              (start (host_U "  If x"
                        (fun _ => _And [Token_c true "i"; Token_c true "f"])))
              eq_refl)
    as (s & q & E & _ & Full & _).
  - simpl. lia.
  - intros b [= <-]. reflexivity.
  - exists s, q. split; [exact E|].
    destruct Full as (Es & CV & CU); [simpl; lia | reflexivity |].
    split; [exact Es|]. split; [exact CV | exact CU].
Defined.

(** ** Repeated terminals *)

Lemma Token_lexical H f m nm p :
  level p = 0 ->
  parse H (S f) (Token m nm) p
  = Some (if m (deref (text H) (back p))
          then (eOk ||| eof_at (text H) (S (back p)), push p (S (back p)))
          else (0, p)).
Proof.
  intros L. cbn [parse]. unfold Token_parse.
  rewrite L. change (0 =? 0) with true. cbv iota zeta. unfold eof_at.
  destruct (m (deref (text H) (back p))); [|reflexivity].
  destruct (deref (text H) (S (back p)) =? 0)%N; reflexivity.
Qed.

Lemma parse_Cycle H f mn mx flag body p :
  parse H (S f) (_Cycle mn mx flag body) p
  = option_map snd (cycle_loop (parse H f) body mn flag (Z.to_nat mx) 0 0 p).
Proof. reflexivity. Qed.

Lemma run_spec m t n :
  forall ptr,
    (run m t ptr n <= n)%nat /\
    (forall i, (i < run m t ptr n)%nat -> m (deref t (ptr + i)) = true) /\
    ((run m t ptr n < n)%nat -> m (deref t (ptr + run m t ptr n)) = false).
Proof.
  induction n as [|n IH]; intros ptr; cbn [run].
  - split; [lia|]. split; intros; lia.
  - destruct (m (deref t ptr)) eqn:M.
    + destruct (IH (S ptr)) as (A & B & C). split; [lia|]. split.
      * intros [|i] Hi; [now rewrite Nat.add_0_r|].
        rewrite <- Nat.add_succ_comm. apply B. lia.
      * intros Hk. rewrite <- Nat.add_succ_comm. apply C. lia.
    + split; [lia|]. split; [intros i Hi; lia|].
      intros _. now rewrite Nat.add_0_r.
Qed.

Lemma cycle_loop_run H f m nm mn flag :
  m 0%N = false ->
  forall n p i,
    level p = 0 ->
    exists q,
      cycle_loop (parse H (S f)) (Token m nm) mn flag n i
        (eof_at (text H) (back p)) p
      = Some (i + Z.of_nat (run m (text H) (back p) n),
              ((let k := run m (text H) (back p) n in
                let e := eof_at (text H) (back p + k) in
                if (k <? n)%nat
                then if i + Z.of_nat k <? mn then e else e ||| eOk
                else e ||| flag ||| eOk), q)) /\
      back q = (back p + run m (text H) (back p) n)%nat /\
      cntxV q = cntxV p ++ seq (S (back p)) (run m (text H) (back p) n).
Proof.
  intros Hnul. induction n as [|n IH]; intros p i L.
  - exists p. cbn [cycle_loop run]. cbv zeta. cbn [Nat.ltb Nat.leb].
    rewrite Nat.add_0_r, Z.add_0_r.
    split; [reflexivity|]. split; [reflexivity|].
    cbn [seq]. now rewrite app_nil_r.
  - cbn [cycle_loop run]. rewrite Token_lexical by exact L.
    destruct (m (deref (text H) (back p))) eqn:M.
    + assert (D : (deref (text H) (back p) =? 0)%N = false).
      { destruct (N.eqb_spec (deref (text H) (back p)) 0) as [Z0|]; [|easy].
        rewrite Z0, Hnul in M. discriminate. }
      assert (E0 : eof_at (text H) (back p) = 0)
        by (unfold eof_at; now rewrite D).
      rewrite E0.
      destruct (IH (push p (S (back p))) (i + 1) L) as (q & E & Bq & CV).
      rewrite back_push in *. exists q. split; [|split].
      * replace (Z.land (0 ||| (eOk ||| eof_at (text H) (S (back p))))
                   (eOk ||| eError) =? eOk) with true
          by (unfold eof_at;
              destruct (deref (text H) (S (back p)) =? 0)%N; reflexivity).
        replace (clr (0 ||| (eOk ||| eof_at (text H) (S (back p))))
                   (e1st ||| eTry ||| eSkip ||| eRet ||| eOk))
          with (eof_at (text H) (S (back p)))
          by (unfold eof_at;
              destruct (deref (text H) (S (back p)) =? 0)%N; reflexivity).
        rewrite E. cbv zeta.
        replace (S (run m (text H) (S (back p)) n) <? S n)%nat
          with (run m (text H) (S (back p)) n <? n)%nat by reflexivity.
        rewrite <- !Nat.add_succ_comm.
        replace (i + 1 + Z.of_nat (run m (text H) (S (back p)) n))
          with (i + Z.of_nat (S (run m (text H) (S (back p)) n))) by lia.
        reflexivity.
      * rewrite Bq. lia.
      * rewrite CV, cntxV_push, <- app_assoc. reflexivity.
    + exists p. cbv zeta. cbn [Nat.ltb Nat.leb].
      rewrite Nat.add_0_r, Z.add_0_r. split; [|split].
      * unfold eof_at.
        destruct (deref (text H) (back p) =? 0)%N, (i <? mn); reflexivity.
      * reflexivity.
      * cbn [seq]. now rewrite app_nil_r.
Qed.

(** X14.  A lexem over a repeated terminal takes the longest run.  With
    a class without the NUL byte, [Lexem = min*token] (or [Series]) in
    syntactic mode skips with [zero_parse] to [org] and takes the [k]
    bytes of the class that follow in a row, at most [max], never fewer;
    it returns [eOk] exactly when [min <= k] or [k = max], with [eEof]
    when the text ends after a run that is not empty, and leaves then,
    for [k > 0], the span [org, org + k] and one value; otherwise it
    leaves the context as it was. *)
Theorem Lexem_takes_the_longest_run (H : Host) (nm nm' : string)
    (m : bitset) (mn mx flag : Z) (h f : nat) (p : Parser)
    (Hlevel : level p = 1) (Hnul : m 0%N = false) (Hmax : 0 <= mx < 2 ^ 32)
    (Hdefs : defs H h = _Cycle mn mx flag (Token m nm')) :
  let org := zero_parse H (text H) (back p) in
  let k := run m (text H) org (Z.to_nat mx) in
  (forall i, (i < k)%nat -> m (deref (text H) (org + i)) = true) /\
  (Z.of_nat k < mx -> m (deref (text H) (org + k)) = false) /\
  exists s q,
    parse H (S (S (S f))) (Lexem nm (Some h)) p = Some (s, q) /\
    s = (let e := if (0 <? k)%nat then eof_at (text H) (org + k) else 0 in
         if Z.of_nat k <? mx
         then if Z.of_nat k <? mn then e else e ||| eOk
         else e ||| flag ||| eOk) /\
    (has s eOk = true <-> mn <= Z.of_nat k \/ Z.of_nat k = mx) /\
    (has s eOk = true -> (0 < k)%nat ->
       cntxV q = cntxV p ++ [org; (org + k)%nat] /\
       cntxU q = with_stub H (cntxU p) org (org + k) nm) /\
    (has s eOk = false \/ k = 0%nat ->
       cntxV q = cntxV p /\ cntxU q = cntxU p).
Proof.
  cbv zeta. set (org := zero_parse H (text H) (back p)).
  set (k := run m (text H) org (Z.to_nat mx)).
  destruct (run_spec m (text H) (Z.to_nat mx) org) as (Kle & Kin & Kout).
  fold k in Kle, Kin, Kout.
  split; [exact Kin|]. split; [intros K; apply Kout; lia|].
  set (p0 := set_level (push p org) 0).
  assert (B0 : back p0 = org) by apply back_push.
  assert (L0 : level p0 = 0) by reflexivity.
  set (e := if (0 <? k)%nat then eof_at (text H) (org + k) else 0).
  set (s := if Z.of_nat k <? mx
            then if Z.of_nat k <? mn then e else e ||| eOk
            else e ||| flag ||| eOk).
  assert (Ee : e = 0 \/ e = eEof).
  { unfold e, eof_at. destruct (0 <? k)%nat; [|now left].
    destruct (deref (text H) (org + k) =? 0)%N; [now right | now left]. }
  assert (Ok : has s eOk = true <-> mn <= Z.of_nat k \/ Z.of_nat k = mx).
  { unfold s. destruct (Z.ltb_spec (Z.of_nat k) mx) as [Lt|Ge].
    - destruct (Z.ltb_spec (Z.of_nat k) mn) as [Lm|Gm].
      + split; [|lia]. destruct Ee as [-> | ->]; discriminate.
      + split; [intros _; now left|]. intros _. apply has_eOk_lor.
    - split; [intros _; right; lia|]. intros _. apply has_eOk_lor. }
  assert (Body : exists p1 suf,
             parse H (S (S f)) (_Cycle mn mx flag (Token m nm')) p0
             = Some (s, p1) /\
             cntxV p1 = cntxV p0 ++ suf /\ List.length suf = k /\
             back p1 = (org + k)%nat).
  { rewrite parse_Cycle.
    destruct (deref (text H) org =? 0)%N eqn:D.
    - apply N.eqb_eq in D.
      assert (M : m (deref (text H) org) = false) by now rewrite D.
      assert (K0 : k = 0%nat).
      { unfold k. destruct (Z.to_nat mx); cbn [run]; [reflexivity|].
        now rewrite M. }
      exists p0, []. rewrite app_nil_r.
      split; [|split; [reflexivity|split; [now rewrite K0 | rewrite K0; lia]]].
      unfold s, e. rewrite K0. cbn [Nat.ltb Nat.leb]. change (Z.of_nat 0) with 0.
      destruct (Z.to_nat mx) as [|n] eqn:En.
      + replace (0 <? mx) with false by (symmetry; apply Z.ltb_ge; lia).
        reflexivity.
      + replace (0 <? mx) with true by (symmetry; apply Z.ltb_lt; lia).
        cbn [cycle_loop]. rewrite Token_lexical by exact L0. rewrite B0, M.
        change (Z.land (0 ||| 0) (eOk ||| eError) =? eOk) with false.
        cbv iota. cbn [option_map snd]. destruct (0 <? mn); reflexivity.
    - destruct (cycle_loop_run H f m nm' mn flag Hnul (Z.to_nat mx) p0 0 L0)
        as (q & E & Bq & CV).
      rewrite B0 in *. fold k in E, Bq, CV.
      assert (E0 : eof_at (text H) org = 0)
        by (unfold eof_at; now rewrite D).
      rewrite E0 in E. rewrite E. cbn [option_map snd]. cbv zeta.
      exists q, (seq (S org) k).
      split; [|split; [exact CV | split; [apply length_seq | exact Bq]]].
      f_equal. f_equal. unfold s, e. rewrite Z.add_0_l.
      replace (k <? Z.to_nat mx)%nat with (Z.of_nat k <? mx)
        by (destruct (Z.ltb_spec (Z.of_nat k) mx),
                     (Nat.ltb_spec k (Z.to_nat mx)); (reflexivity || lia)).
      destruct k as [|k'].
      + rewrite Nat.add_0_r, E0. reflexivity.
      + reflexivity. }
  destruct Body as (p1 & suf & B & CV & Ls & Bq).
  destruct (Lexem_wrap H (S (S f)) nm h p s p1 suf Hlevel)
    as (q & E & WF & WP).
  - now rewrite Hdefs.
  - rewrite Hdefs. exact B.
  - rewrite CV. unfold p0. cbn [set_level push set_cntxV cntxV].
    now rewrite <- app_assoc.
  - lia.
  - exists s, q. split; [exact E|]. split; [reflexivity|].
    split; [exact Ok|]. split.
    + intros O K. rewrite <- Bq. apply WF; [exact O|].
      intros ->. simpl in Ls. lia.
    + intros [O|K]; apply WP; [now left|].
      right. destruct suf; [reflexivity | simpl in Ls; lia].
Qed.

Lemma Lexem_takes_the_longest_run_witness :
  exists s q,
    parse (host_ini "key= 1" ByPass ByPass) 3 ini_Name
      (start (host_ini "key= 1" ByPass ByPass)) = Some (s, q) /\
    s = eOk /\ cntxV q = [0; 0; 0; 3]%nat.
Proof.
  destruct (Lexem_takes_the_longest_run (host_ini "key= 1" ByPass ByPass)
              "Name" "_.,:(){}-#@&*|"
              (Add (Add (Add (Add_sample (fun _ => false) "_.,:(){}-#@&*|")
                               48 57) 97 122) 65 90)
              (1 mod 2 ^ 32) (maxIterate mod 2 ^ 32) eOver 0 0
              (start (host_ini "key= 1" ByPass ByPass))
              eq_refl eq_refl)
    as (_ & _ & s & q & E & Es & _ & Full & _).
  - vm_compute. split; [discriminate | reflexivity].
  - reflexivity.
  - exists s, q. split; [exact E|].
    assert (Es' : s = eOk) by (rewrite Es; vm_compute; reflexivity).
    split; [exact Es'|]. apply Full; [now rewrite Es' | vm_compute; lia].
Defined.

(** ** The end of the text inside an optional part *)

Lemma Cycle_error_fails_And H f mn mx flag body rest p r p1 :
  0 < mx ->
  parse H f body p = Some (r, p1) ->
  has r eError = true ->
  exists s,
    parse H (S (S f)) (_And (_Cycle mn mx flag body :: rest)) p
    = Some (s, _erase H p1 (List.length (cntxV p)) 0) /\
    has s eError = true /\ has s eOk = false /\
    (forall m, Z.land eOk m = 0 -> Z.land (eTry ||| eSkip ||| eOk) m = 0 ->
               has r m = true -> has s m = true).
Proof.
  intros Hmx B Er. rewrite parse_And. cbn [and_loop]. rewrite parse_Cycle.
  destruct (Z.to_nat mx) as [|n] eqn:En; [lia|].
  cbn [cycle_loop]. rewrite B. rewrite !Z.lor_0_l.
  rewrite ok_test, Er, andb_false_r. cbn [option_map snd].
  set (c := if 0 <? mn then clr r eOk else r ||| eOk).
  assert (Ec : has c eError = true).
  { unfold c. destruct (0 <? mn).
    - now rewrite clr_other by reflexivity.
    - now rewrite has_lor, Er. }
  assert (Em : forall m, Z.land eOk m = 0 -> has r m = true ->
                         has c m = true).
  { intros m Dm Rm. unfold c. destruct (0 <? mn).
    - now rewrite clr_other by exact Dm.
    - now rewrite has_lor, Rm. }
  rewrite !Z.lor_0_l.
  rewrite ok_test, Ec, andb_false_r. cbn [negb]. rewrite !andb_false_r.
  cbn [andb]. eexists. split; [reflexivity|]. split; [|split].
  - rewrite has_lor, clr_other by reflexivity. now rewrite Ec, orb_true_r.
  - rewrite has_lor, clr_sub by reflexivity. rewrite orb_false_r.
    now destruct (has c (eEof ||| eOver)).
  - intros m D1 D2 Rm. rewrite has_lor, clr_other by exact D2.
    rewrite (Em m D1 Rm). apply orb_true_r.
Qed.

(** X15.  The end of the text inside an optional part fails the whole
    sequence.  In a sequence [x + y + ...], when [x] matches up to the
    end of the text ([eOk|eEof]) and [y] then does not match, the
    sequence returns [eError|eEof], not a plain mismatch; and a
    repetition, [*(...)] and [!(...)] included, hands the [eError] of its
    body on beside its own verdict, so that the sequence around the
    repetition fails with [eError] and restores the cursors, whatever
    follows the repetition. *)
Theorem end_of_text_in_optional_part_is_an_error (H : Host)
    (Hmono : forall t ptr, (ptr <= zero_parse H t ptr)%nat)
    (f : nat) (x y : Tie) (more rest : list Tie) (mn mx flag : Z)
    (p p1 p2 : Parser) (r1 r2 : Z) (Hmx : 0 < mx)
    (Hx : parse H f x p = Some (r1, p1))
    (Hok : has r1 eOk = true) (Herr : has r1 eError = false)
    (Heof : has r1 eEof = true)
    (Hy : parse H f y p1 = Some (r2, p2)) (Hno : has r2 eOk = false) :
  exists s1 q1 s q,
    parse H (S f) (_And (x :: y :: more)) p = Some (s1, q1) /\
    has s1 eError = true /\ has s1 eEof = true /\ has s1 eOk = false /\
    parse H (S (S (S f)))
      (_And (_Cycle mn mx flag (_And (x :: y :: more)) :: rest)) p
    = Some (s, q) /\
    has s eError = true /\ has s eEof = true /\ has s eOk = false /\
    cntxV q = cntxV p.
Proof.
  assert (Inner : exists s1 q1,
             parse H (S f) (_And (x :: y :: more)) p = Some (s1, q1) /\
             has s1 eError = true /\ has s1 eEof = true /\
             has s1 eOk = false).
  { rewrite parse_And. cbn [and_loop]. rewrite Hx. rewrite !Z.lor_0_l.
    rewrite ok_test, Hok, Herr. cbn [negb andb].
    change (0 =? 0)%nat with true. cbv iota. rewrite Hy.
    set (st := clr r1 (eSkip ||| eRet ||| eOk) ||| r2).
    assert (Sk : has st eOk = false).
    { unfold st. rewrite has_lor, clr_sub by reflexivity. exact Hno. }
    assert (Se : has st eEof = true).
    { unfold st. rewrite has_lor, clr_other by reflexivity.
      now rewrite Heof. }
    rewrite ok_test, Sk. cbn [andb].
    match goal with |- context [if ?c then st ||| Catch H else st] =>
      set (st' := if c then st ||| Catch H else st) end.
    assert (Se' : has st' eEof = true).
    { unfold st'. match goal with |- has (if ?c then _ else _) _ = _ =>
        destruct c end; [rewrite has_lor, Se; reflexivity | exact Se]. }
    rewrite has_lor_r, Se'. cbn [orb].
    eexists _, _. split; [reflexivity|]. split; [|split].
    - rewrite has_lor. reflexivity.
    - rewrite has_lor, clr_other by reflexivity. now rewrite Se', orb_true_r.
    - rewrite has_lor, clr_sub by reflexivity. reflexivity. }
  destruct Inner as (s1 & q1 & E1 & A1 & A2 & A3).
  exists s1, q1.
  destruct (Cycle_error_fails_And H (S f) mn mx flag (_And (x :: y :: more))
              rest p s1 q1 Hmx E1 A1) as (s & E & B1 & B2 & B3).
  exists s, (_erase H q1 (List.length (cntxV p)) 0).
  split; [exact E1|]. split; [exact A1|]. split; [exact A2|].
  split; [exact A3|]. split; [exact E|]. split; [exact B1|].
  split; [apply B3; [reflexivity | reflexivity | exact A2]|].
  split; [exact B2|].
  rewrite cntxV_erase. unfold verase, erase_tail. cbn [Nat.eqb].
  rewrite (And_failure_restores_cursors H Hmono f _ p s1 q1 E1 A3).
  apply firstn_all.
Qed.

Lemma end_of_text_in_optional_part_is_an_error_witness :
  exists s q,
    parse (host_base "a") 4
      (_And [Star (_And [Token_s "a"; Token_s "b"]); Token_s "a"])
      (start (host_base "a")) = Some (s, q) /\
    has s eError = true /\ cntxV q = [0; 0]%nat.
Proof.
  destruct (end_of_text_in_optional_part_is_an_error (host_base "a")
              zero_parse_default_mono 1 (Token_s "a") (Token_s "b") []
              [Token_s "a"] (0 mod 2 ^ 32) (maxIterate mod 2 ^ 32) eOver
              (start (host_base "a"))
              (mkParser [0; 0; 0; 1]%nat 1 None 0)
              (mkParser [0; 0; 0; 1]%nat 1 None 0)
              (eOk ||| eEof) 0)
    as (_ & _ & s & q & _ & _ & _ & _ & E & Er & _ & _ & CV);
    try reflexivity.
  exists s, q. split; [exact E|]. split; [exact Er | exact CV].
Defined.

(** ** The order of the cursors *)

Lemma last_cons_default {A} (x : A) l d : last (x :: l) d = last l x.
Proof.
  revert x d. induction l as [|y l IH]; intros x d; [reflexivity|].
  change (last (x :: y :: l) d) with (last (y :: l) d).
  now rewrite (IH y d), (IH y x).
Qed.

Lemma ascending_Forall a l :
  ascending a l -> Forall (fun c => (a <= c)%nat) l.
Proof.
  revert a. induction l as [|x l IH]; intros a; cbn [ascending];
    [constructor|].
  intros [A B]. constructor; [exact A|].
  eapply Forall_impl; [|apply IH, B]. intros c Hc. cbv beta in *. lia.
Qed.

Lemma ascending_last a l : ascending a l -> (a <= last l a)%nat.
Proof. intros A. now apply last_Forall_le, ascending_Forall. Qed.

Lemma ascending_app a l1 l2 :
  ascending a l1 -> ascending (last l1 a) l2 -> ascending a (l1 ++ l2).
Proof.
  revert a. induction l1 as [|x l1 IH]; intros a; cbn [ascending app].
  - intros _ B. exact B.
  - intros [A B] C. split; [exact A|]. apply IH; [exact B|].
    now rewrite last_cons_default in C.
Qed.

Lemma ascending_firstn a l n : ascending a l -> ascending a (firstn n l).
Proof.
  revert a n. induction l as [|x l IH]; intros a [|n]; cbn [ascending firstn];
    try easy.
  intros [A B]. split; [exact A | now apply IH].
Qed.

Lemma ascending_weaken a a' l :
  (a' <= a)%nat -> ascending a l -> ascending a' l.
Proof.
  intros Le. destruct l as [|x l]; cbn [ascending]; [easy|].
  intros [A B]. split; [lia | exact B].
Qed.

Lemma order_extends p q : pushes_in_order p q -> extends_from p q.
Proof.
  intros (suf & CV & A & L). exists suf.
  split; [exact CV|]. split; [now apply ascending_Forall | exact L].
Qed.

Lemma order_refl p : pushes_in_order p p.
Proof. exists []. now rewrite app_nil_r. Qed.

Lemma order_trans p q r :
  pushes_in_order p q -> pushes_in_order q r -> pushes_in_order p r.
Proof.
  intros (s1 & CV1 & A1 & L1) (s2 & CV2 & A2 & L2).
  exists (s1 ++ s2). split; [now rewrite CV2, CV1, app_assoc|].
  split; [|congruence].
  apply ascending_app; [exact A1|].
  unfold back in A2 at 1. now rewrite CV1, last_app_r in A2.
Qed.

Lemma order_resize p q n :
  pushes_in_order p q ->
  (List.length (cntxV p) <= n <= List.length (cntxV q))%nat ->
  pushes_in_order p (resize q n).
Proof.
  intros (suf & CV & A & L) N.
  exists (firstn (n - List.length (cntxV p)) suf).
  split; [|split; [now apply ascending_firstn | exact L]].
  cbn [resize cntxV set_cntxV]. unfold vresize.
  replace (n - List.length (cntxV q))%nat with 0%nat by lia.
  rewrite CV, firstn_app, firstn_all2 by lia.
  simpl. now rewrite app_nil_r.
Qed.

Lemma order_erase_tail H p q :
  pushes_in_order p q ->
  pushes_in_order p (_erase H q (List.length (cntxV p)) 0).
Proof.
  intros (suf & CV & A & L). exists [].
  rewrite cntxV_erase, level_erase, CV, app_nil_r.
  unfold verase, erase_tail. cbn [Nat.eqb].
  split; [apply firstn_exact|]. split; [exact I | exact L].
Qed.

Lemma order_same p q q' :
  cntxV q' = cntxV q -> level q' = level q ->
  pushes_in_order p q -> pushes_in_order p q'.
Proof.
  intros CV L (suf & CV1 & A & L1). exists suf.
  repeat split; [congruence | exact A | congruence].
Qed.

Lemma order_same_src p p' q :
  cntxV p' = cntxV p -> level p' = level p ->
  pushes_in_order p' q -> pushes_in_order p q.
Proof.
  intros CV L (suf & CV1 & A & L1). exists suf.
  unfold back in *. rewrite CV in *.
  repeat split; [exact CV1 | exact A | congruence].
Qed.

Section Ascending.

Variable H : Host.
Hypothesis Hmono : forall t ptr, (ptr <= zero_parse H t ptr)%nat.

Lemma Token_order m nm p : pushes_in_order p (snd (Token_parse H m nm p)).
Proof.
  unfold Token_parse.
  set (cc := if level p =? 0 then back p else zero_parse H (text H) (back p)).
  assert (Lcc : (back p <= cc)%nat)
    by (unfold cc; destruct (level p =? 0); [lia | apply Hmono]).
  destruct (m (deref (text H) cc)); cbn [snd]; [|apply order_refl].
  destruct (level p =? 0).
  - exists [S cc]. repeat split. cbn [ascending]. lia.
  - exists [cc; S cc]. split; [|split].
    + cbn [push cntxV set_cntxV]. now rewrite cntxV_stub, <- app_assoc.
    + cbn [ascending]. lia.
    + cbn [push level set_cntxV]. apply level_stub.
Qed.

Lemma and_loop_order rec p0 use :
  (forall t, In t use ->
     forall p r q, rec t p = Some (r, q) -> pushes_in_order p q) ->
  forall stat save p s q,
    pushes_in_order p0 p ->
    (save = 0%nat \/
     (List.length (cntxV p0) <= save <= List.length (cntxV p))%nat) ->
    and_loop H rec (List.length (cntxV p0)) use stat save p = Some (s, q) ->
    pushes_in_order p0 q.
Proof.
  induction use as [|t use IH]; intros K stat save p s q E SV; cbn [and_loop].
  - now intros [= _ <-].
  - destruct (rec t p) as [[r p1]|] eqn:R; [|discriminate].
    assert (E1 : pushes_in_order p0 p1)
      by (eapply order_trans; [exact E | eapply (K t); [now left | exact R]]).
    assert (L1 : (List.length (cntxV p) <= List.length (cntxV p1))%nat)
      by (eapply extends_length, order_extends, (K t); [now left | exact R]).
    destruct (Z.land (stat ||| r) (eOk ||| eError) =? eOk).
    + set (p2 := if (save =? 0)%nat then p1 else resize p1 save).
      assert (E2 : pushes_in_order p0 p2).
      { unfold p2. destruct (save =? 0)%nat eqn:S0; [exact E1|].
        apply Nat.eqb_neq in S0. apply order_resize; [exact E1 | lia]. }
      apply (IH (fun t' I => K t' (or_intror I)) _ _ p2); [exact E2|].
      destruct (has (stat ||| r) eSkip); [right | now left].
      split; [now apply extends_length, order_extends | lia].
    + intros [= _ <-]. now apply order_erase_tail.
Qed.

Lemma cycle_loop_order rec body min flag :
  (forall p r q, rec body p = Some (r, q) -> pushes_in_order p q) ->
  forall n i stat p j s q,
    cycle_loop rec body min flag n i stat p = Some (j, (s, q)) ->
    pushes_in_order p q.
Proof.
  intros K. induction n as [|n IH]; intros i stat p j s q; cbn [cycle_loop].
  - intros E. inversion E. subst. apply order_refl.
  - destruct (rec body p) as [[r p1]|] eqn:R; [|discriminate].
    pose proof (K _ _ _ R) as E1.
    destruct (Z.land (stat ||| r) (eOk ||| eError) =? eOk).
    + intros E. eapply order_trans; [exact E1 | eapply IH, E].
    + intros E. inversion E. now subst.
Qed.

Lemma or_step_order p0 p :
  pushes_in_order p0 p ->
  let grown := (List.length (cntxV p0) <? List.length (cntxV p))%nat in
  let p' := if grown then push p (back p0) else p in
  forall q1, pushes_in_order p' q1 ->
   pushes_in_order p0
     (if grown
      then _erase H q1 (List.length (cntxV p0)) (S (List.length (cntxV p)))
      else q1) /\
   pushes_in_order p0
     (if (List.length (cntxV p) <? List.length (cntxV q1))%nat
      then _erase H q1 (List.length (cntxV p)) 0 else q1).
Proof.
  intros (best & CV & F & L) grown p'.
  assert (G : grown = false -> best = []).
  { unfold grown. intros G. apply Nat.ltb_ge in G.
    rewrite CV, length_app in G.
    destruct best; [reflexivity | simpl in G; lia]. }
  assert (B' : back p' = back p0).
  { unfold p'. destruct grown; [apply back_push|].
    rewrite (G eq_refl), app_nil_r in CV. unfold back. now rewrite CV. }
  assert (L' : level p' = level p0) by (unfold p'; now destruct grown).
  intros q1 E1.
  destruct E1 as (suf & CV1 & F1 & L1). rewrite B' in F1.
  split.
  - exists suf. split; [|split; [exact F1|]].
    + unfold p' in CV1. destruct grown.
      * rewrite cntxV_erase, CV1, cntxV_push, CV.
        unfold verase, erase_range. cbn [Nat.eqb].
        rewrite <- !app_assoc, firstn_exact. f_equal.
        replace (S (List.length (cntxV p0 ++ best)))
          with (List.length ((cntxV p0 ++ best) ++ [back p0]))
          by (rewrite !length_app; simpl; lia).
        rewrite !app_assoc, skipn_exact. reflexivity.
      * rewrite (G eq_refl), app_nil_r in CV. now rewrite CV1, CV.
    + destruct grown; [rewrite level_erase|]; congruence.
  - exists best. split; [|split; [exact F|]].
    + unfold p' in CV1.
      destruct (List.length (cntxV p) <? List.length (cntxV q1))%nat eqn:T.
      * rewrite cntxV_erase, CV1. unfold verase, erase_tail. cbn [Nat.eqb].
        rewrite <- CV.
        destruct grown;
          [rewrite cntxV_push, <- app_assoc|]; apply firstn_exact.
      * apply Nat.ltb_ge in T. rewrite CV1 in T.
        destruct grown.
        -- rewrite cntxV_push, !length_app in T. simpl in T. lia.
        -- rewrite length_app in T.
           assert (suf = [])
             by (destruct suf; [reflexivity | simpl in T; lia]).
           subst suf. now rewrite CV1, app_nil_r.
    + destruct (List.length (cntxV p) <? List.length (cntxV q1))%nat;
        [rewrite level_erase|]; congruence.
Qed.

Lemma or_loop_order rec p0 use :
  (forall t, In t use ->
     forall p r q, rec t p = Some (r, q) -> pushes_in_order p q) ->
  forall stat max tmp p s q,
    pushes_in_order p0 p ->
    or_loop H rec (back p0) (List.length (cntxV p0)) use stat max tmp p
    = Some (s, q) ->
    pushes_in_order p0 q.
Proof.
  induction use as [|t use IH]; intros K stat max tmp p s q E; cbn [or_loop].
  - now intros [= _ <-].
  - pose proof (or_step_order p0 p E) as St. cbv zeta in St.
    match goal with |- match rec t ?p' with _ => _ end = _ -> _ =>
      destruct (rec t p') as [[r q1]|] eqn:R; [|discriminate] end.
    destruct (St q1) as (Acc & Rej);
      [eapply (K t); [now left | exact R]|].
    assert (K' : forall t, In t use ->
                 forall p r q, rec t p = Some (r, q) -> pushes_in_order p q)
      by (intros t' I; apply K; now right).
    match goal with |- (if ?c then _ else _) = _ -> _ => destruct c end.
    + destruct (has (stat ||| r) (eRet ||| e1st ||| eError)).
      * now intros [= _ <-].
      * now apply IH.
    + now apply IH.
Qed.

Lemma collapse_order p0 p1 :
  pushes_in_order p0 p1 ->
  grew p1 (List.length (cntxV p0)) = true ->
  pushes_in_order p0 (collapse p1 (List.length (cntxV p0))) /\
  (nth (List.length (cntxV p0)) (cntxV p1) 0 <= back p1)%nat.
Proof.
  intros (suf & CV & A & L) G.
  unfold grew in G. rewrite CV, length_app, Nat2Z.inj_add in G.
  replace (Z.of_nat (List.length (cntxV p0)) + Z.of_nat (List.length suf)
           - Z.of_nat (List.length (cntxV p0)))
    with (Z.of_nat (List.length suf)) in G by lia.
  destruct suf as [|a [|b X]]; [discriminate G | discriminate G |].
  assert (Bk : (a <= back p1)%nat).
  { unfold back. rewrite CV, last_app_r, last_cons_default.
    destruct A as [_ A]. now apply ascending_last. }
  split.
  - exists [a; back p1]. split; [|split].
    + now apply collapse_span with (b := b) (suf := X).
    + destruct A as [A _]. cbn [ascending]. lia.
    + exact L.
  - rewrite CV, app_nth2, Nat.sub_diag by lia. exact Bk.
Qed.

(** With a skipper that never moves back, an evaluation that returns has
    pushed its cursors in non-decreasing order. *)
Lemma parse_order f :
  forall t p r q, parse H f t p = Some (r, q) -> pushes_in_order p q.
Proof.
  induction f as [|f IH]; intros t p r q; [discriminate|].
  destruct t as [m nm|a|flg|use|use|mn mx flag body|nm use|nm cb use];
    cbn [parse].
  - intros [= E]. apply (f_equal snd) in E. cbn [snd] in E. rewrite <- E.
    apply Token_order.
  - unfold Action_parse. intros [= _ <-]. apply order_refl.
  - intros [= _ <-]. apply order_refl.
  - apply and_loop_order; [intros; eapply IH; eassumption | | now left].
    apply order_refl.
  - apply or_loop_order; [intros; eapply IH; eassumption|].
    apply order_refl.
  - destruct (cycle_loop (parse H f) body mn flag (Z.to_nat mx) 0 0 p)
      as [[j [s' q']]|] eqn:C; [|discriminate].
    intros [= <- <-]. eapply cycle_loop_order; [|exact C]. apply IH.
  - destruct use as [h|]; [|intros [= _ <-]; apply order_refl].
    destruct ((level p =? 0) || is_Action (defs H h)); [apply IH|].
    set (org := zero_parse H (text H) (back p)).
    destruct (parse H f (defs H h) (set_level (push p org) (level p - 1)))
      as [[st p1]|] eqn:E; [|discriminate].
    apply IH in E.
    assert (E1 : pushes_in_order p (set_level p1 (level p1 + 1))).
    { pose proof (Hmono (text H) (back p)) as M. fold org in M.
      destruct E as (suf & CV & F & L).
      cbn [set_level push cntxV set_cntxV level] in CV, L.
      unfold back at 1 in F. cbn [set_level push cntxV set_cntxV] in F.
      rewrite last_last in F.
      exists (org :: suf). split; [|split].
      - cbn [set_level cntxV]. now rewrite CV, <- app_assoc.
      - cbn [ascending]. split; [exact M | exact F].
      - cbn [set_level level]. lia. }
    match goal with |- (if ?c then _ else _) = _ -> _ =>
      destruct c eqn:Cnd end; intros [= _ <-].
    + apply andb_true_iff in Cnd. destruct Cnd as [_ G].
      apply collapse_order.
      * eapply order_same; [| |exact E1];
          [apply cntxV_stub | apply level_stub].
      * unfold grew in *. now rewrite cntxV_stub.
    + apply order_resize; [exact E1|].
      split; [lia | now apply extends_length, order_extends].
  - destruct use as [h|]; [|intros [= _ <-]; apply order_refl].
    destruct (level p =? 0); [intros [= _ <-]; apply order_refl|].
    destruct (is_Action (defs H h)); [apply IH|].
    assert (P : cntxV (snd (_pre_call H p cb)) = cntxV p /\
                level (snd (_pre_call H p cb)) = level p).
    { unfold _pre_call. destruct (klass H); [now split|]. now destruct cb. }
    destruct (_pre_call H p cb) as [up p0]. cbn [snd] in P.
    destruct P as [Pc Pl].
    destruct (parse H f (defs H h) p0) as [[st p1]|] eqn:E; [|discriminate].
    apply IH in E. apply (order_same_src p p0 p1 Pc Pl) in E.
    assert (Post : forall x u, cntxV (_post_call H x u) = cntxV x /\
                               level (_post_call H x u) = level x)
      by (intros; unfold _post_call; now destruct (klass H)).
    match goal with |- (if ?c then _ else _) = _ -> _ =>
      destruct c eqn:Cnd end; intros [= _ <-].
    + apply andb_true_iff in Cnd. destruct Cnd as [_ G].
      eapply order_same; [apply Post | apply Post |].
      now apply collapse_order.
    + eapply order_same; [apply Post | apply Post |].
      apply order_resize; [exact E|].
      split; [lia | now apply extends_length, order_extends].
Qed.

End Ascending.

(** ** The spans of the values *)

Lemma spans_same p q : cntxU q = cntxU p -> spans_ok p -> spans_ok q.
Proof. unfold spans_ok. now intros ->. Qed.

Lemma spans_erase H p lo up : spans_ok p -> spans_ok (_erase H p lo up).
Proof.
  unfold spans_ok, _erase. destruct (klass H); [easy|].
  destruct (cntxU p) as [u|] eqn:U; cbn [set_cntxV cntxU]; [|now rewrite U].
  destruct (level p =? 0); cbn [set_cntxV cntxU]; [now rewrite U|].
  intros F. destruct (up =? 0)%nat; unfold erase_tail, erase_range.
  - now apply Forall_firstn.
  - apply Forall_app. split; [now apply Forall_firstn | now apply Forall_skipn].
Qed.

Lemma spans_stub H p b e nm :
  (b <= e)%nat -> spans_ok p -> spans_ok (_stub_call H p b e nm).
Proof.
  intros Le. unfold spans_ok, _stub_call. destruct (klass H); [easy|].
  destruct (cntxU p) as [u|] eqn:U; cbn [set_frame cntxU]; [|now rewrite U].
  intros F. apply Forall_app. split; [exact F|].
  constructor; [|constructor]. cbn [Interface_stub Ifc.length]. lia.
Qed.

Section Spans.

Variable H : Host.
Hypothesis Hmono : forall t ptr, (ptr <= zero_parse H t ptr)%nat.

Lemma and_loop_spans rec size use :
  (forall t, In t use ->
     forall p r q, spans_ok p -> rec t p = Some (r, q) -> spans_ok q) ->
  forall stat save p s q,
    spans_ok p ->
    and_loop H rec size use stat save p = Some (s, q) -> spans_ok q.
Proof.
  induction use as [|t use IH]; intros K stat save p s q Sp; cbn [and_loop].
  - now intros [= _ <-].
  - destruct (rec t p) as [[r p1]|] eqn:R; [|discriminate].
    pose proof (K t (or_introl eq_refl) _ _ _ Sp R) as S1.
    destruct (Z.land (stat ||| r) (eOk ||| eError) =? eOk).
    + apply IH; [intros t' I; apply K; now right|].
      destruct (save =? 0)%nat; [exact S1|].
      now apply (spans_same p1).
    + intros [= _ <-]. now apply spans_erase.
Qed.

Lemma or_loop_spans rec org size use :
  (forall t, In t use ->
     forall p r q, spans_ok p -> rec t p = Some (r, q) -> spans_ok q) ->
  forall stat max tmp p s q,
    spans_ok p ->
    or_loop H rec org size use stat max tmp p = Some (s, q) -> spans_ok q.
Proof.
  induction use as [|t use IH]; intros K stat max tmp p s q Sp; cbn [or_loop].
  - now intros [= _ <-].
  - set (p0 := if (size <? List.length (cntxV p))%nat then push p org else p).
    assert (S0 : spans_ok p0)
      by (unfold p0; destruct (size <? List.length (cntxV p))%nat;
          [now apply (spans_same p) | exact Sp]).
    destruct (rec t p0) as [[r p1]|] eqn:R; [|discriminate].
    pose proof (K t (or_introl eq_refl) _ _ _ S0 R) as S1.
    assert (K' : forall t, In t use ->
                 forall p r q, spans_ok p -> rec t p = Some (r, q) ->
                               spans_ok q)
      by (intros t' I; apply K; now right).
    match goal with |- (if ?c then _ else _) = _ -> _ => destruct c end.
    + assert (S2 : spans_ok
                     (if (size <? List.length (cntxV p))%nat
                      then _erase H p1 size (S (List.length (cntxV p)))
                      else p1))
        by (destruct (size <? List.length (cntxV p))%nat;
            [now apply spans_erase | exact S1]).
      destruct (has (stat ||| r) (eRet ||| e1st ||| eError)).
      * now intros [= _ <-].
      * now apply IH.
    + apply IH; [exact K'|].
      destruct (List.length (cntxV p) <? List.length (cntxV p1))%nat;
        [now apply spans_erase | exact S1].
Qed.

Lemma cycle_loop_spans rec body min flag :
  (forall p r q, spans_ok p -> rec body p = Some (r, q) -> spans_ok q) ->
  forall n i stat p j s q,
    spans_ok p ->
    cycle_loop rec body min flag n i stat p = Some (j, (s, q)) ->
    spans_ok q.
Proof.
  intros K. induction n as [|n IH]; intros i stat p j s q Sp;
    cbn [cycle_loop].
  - intros E. inversion E. now subst.
  - destruct (rec body p) as [[r p1]|] eqn:R; [|discriminate].
    pose proof (K _ _ _ Sp R) as S1.
    destruct (Z.land (stat ||| r) (eOk ||| eError) =? eOk).
    + now apply IH.
    + intros E. inversion E. now subst.
Qed.

(** With a skipper that never moves back, the frame of values keeps
    lengths that are not negative. *)
Lemma parse_spans f :
  forall t p r q,
    spans_ok p -> parse H f t p = Some (r, q) -> spans_ok q.
Proof.
  induction f as [|f IH]; intros t p r q Sp; [discriminate|].
  destruct t as [m nm|a|flg|use|use|mn mx flag body|nm use|nm cb use];
    cbn [parse].
  - unfold Token_parse.
    destruct (m (deref (text H) _)); intros [= _ <-]; [|exact Sp].
    destruct (level p =? 0); [now apply (spans_same p)|].
    apply (spans_same (_stub_call H p
                         (zero_parse H (text H) (back p))
                         (S (zero_parse H (text H) (back p))) nm));
      [reflexivity|].
    apply spans_stub; [lia | exact Sp].
  - unfold Action_parse. now intros [= _ <-].
  - now intros [= _ <-].
  - apply and_loop_spans; [|exact Sp]. intros t _. apply IH.
  - apply or_loop_spans; [|exact Sp]. intros t _. apply IH.
  - destruct (cycle_loop (parse H f) body mn flag (Z.to_nat mx) 0 0 p)
      as [[j [s' q']]|] eqn:C; [|discriminate].
    intros [= <- <-]. eapply cycle_loop_spans; [|exact Sp|exact C]. apply IH.
  - destruct use as [h|]; [|now intros [= _ <-]].
    destruct ((level p =? 0) || is_Action (defs H h)); [now apply IH|].
    set (org := zero_parse H (text H) (back p)).
    set (p0 := set_level (push p org) (level p - 1)).
    destruct (parse H f (defs H h) p0) as [[st p1]|] eqn:E; [|discriminate].
    assert (S1 : spans_ok p1)
      by (apply (IH _ p0 _ _) in E; [exact E | now apply (spans_same p)]).
    pose proof (back_extends _ _ (parse_extends H Hmono f _ _ _ _ E)) as Bk.
    replace (back p0) with org in Bk by (symmetry; apply back_push).
    match goal with |- (if ?c then _ else _) = _ -> _ => destruct c end;
      intros [= _ <-].
    + apply (spans_same (_stub_call H (set_level p1 (level p1 + 1)) org
                           (back (set_level p1 (level p1 + 1))) nm));
        [reflexivity|].
      apply spans_stub; [exact Bk | now apply (spans_same p1)].
    + now apply (spans_same p1).
  - destruct use as [h|]; [|now intros [= _ <-]].
    destruct (level p =? 0); [now intros [= _ <-]|].
    destruct (is_Action (defs H h)); [now apply IH|].
    assert (P : cntxV (snd (_pre_call H p cb)) = cntxV p /\
                level (snd (_pre_call H p cb)) = level p /\
                spans_ok (snd (_pre_call H p cb)) /\
                (klass H = ParserU -> fst (_pre_call H p cb)
                                      = (cntxU p, off p)) /\
                (klass H = BaseClass -> snd (_pre_call H p cb) = p)).
    { unfold _pre_call. destruct (klass H); cbn [fst snd].
      - split; [reflexivity|]. split; [reflexivity|]. split; [exact Sp|].
        split; [discriminate | reflexivity].
      - split; [now destruct cb|]. split; [now destruct cb|]. split.
        + unfold spans_ok. destruct cb; cbn [set_frame cntxU]; constructor.
        + split; [reflexivity | discriminate]. }
    destruct (_pre_call H p cb) as [up p0]. cbn [fst snd] in P.
    destruct P as (Pc & Pl & Ps & PU & PB).
    destruct (parse H f (defs H h) p0) as [[st p1]|] eqn:E; [|discriminate].
    pose proof (IH _ _ _ _ Ps E) as S1.
    pose proof (parse_order H Hmono f _ _ _ _ E) as O.
    apply (order_same_src p p0 p1 Pc Pl) in O.
    match goal with |- (if ?c then _ else _) = _ -> _ =>
      destruct c eqn:Cnd end; intros [= _ <-].
    + apply andb_true_iff in Cnd. destruct Cnd as [_ G].
      destruct (collapse_order p p1 O G) as [_ Le].
      unfold _post_call, _do_call, spans_ok.
      destruct (klass H) eqn:Kl; [exact S1|].
      rewrite (PU eq_refl). cbn [fst snd set_frame cntxU].
      unfold spans_ok in Sp.
      destruct cb, (cntxU p); cbn [fst snd]; try exact I;
        (apply Forall_app; split; [exact Sp|]);
        (constructor; [|constructor]);
        cbn [Interface_copy Interface_stub Ifc.length]; lia.
    + unfold _post_call, spans_ok.
      destruct (klass H) eqn:Kl; [exact S1|].
      rewrite (PU eq_refl). exact Sp.
Qed.

End Spans.



(** ** The value of the root *)



(** ** What a callback receives *)

Lemma parse_is_Action H f t p r q :
  is_Action t = true -> parse H f t p = Some (r, q) -> q = p.
Proof.
  destruct t; try discriminate. intros _.
  destruct f; [discriminate|]. cbn [parse]. unfold Action_parse.
  now intros [= _ <-].
Qed.

Section Skipless.

Variable H : Host.
Hypothesis Hsk : forall h, skipless (defs H h) = true.

Lemma and_loop_no_skip rec size use :
  forall stat save p s q,
    and_loop H rec size use stat save p = Some (s, q) ->
    has s eSkip = false.
Proof.
  induction use as [|t use IH]; intros stat save p s q; cbn [and_loop].
  - intros [= <- _]. rewrite !has_lor, clr_sub by reflexivity.
    now destruct (has stat eTry).
  - destruct (rec t p) as [[r p1]|]; [|discriminate].
    destruct (Z.land (stat ||| r) (eOk ||| eError) =? eOk); [apply IH|].
    intros [= <- _]. rewrite has_lor, clr_sub by reflexivity.
    match goal with |- has (if ?c then _ else _) _ || _ = _ =>
      destruct c end; reflexivity.
Qed.

Lemma or_ret_skip stat max tmp :
  has (or_ret stat max tmp) eSkip = has stat eSkip.
Proof.
  unfold or_ret. rewrite clr_other by reflexivity.
  destruct (negb (max =? 0) || (tmp >=? 0)).
  - rewrite has_lor. apply orb_false_r.
  - now rewrite clr_other by reflexivity.
Qed.

Lemma or_loop_no_skip rec org size use :
  (forall t, In t use ->
     forall p r q, rec t p = Some (r, q) -> has r eSkip = false) ->
  forall stat max tmp p s q,
    has stat eSkip = false ->
    or_loop H rec org size use stat max tmp p = Some (s, q) ->
    has s eSkip = false.
Proof.
  induction use as [|t use IH]; intros K stat max tmp p s q St;
    cbn [or_loop].
  - intros [= <- _]. now rewrite or_ret_skip.
  - match goal with |- match rec t ?p' with _ => _ end = _ -> _ =>
      destruct (rec t p') as [[r p1]|] eqn:R; [|discriminate] end.
    pose proof (K t (or_introl eq_refl) _ _ _ R) as Sr.
    assert (S1 : has (stat ||| r) eSkip = false)
      by (now rewrite has_lor, St, Sr).
    assert (S2 : has (clr (stat ||| r) (eOk ||| eRet ||| eError)) eSkip
                 = false) by (now rewrite clr_other by reflexivity).
    assert (K' : forall t, In t use ->
                 forall p r q, rec t p = Some (r, q) -> has r eSkip = false)
      by (intros t' I; apply K; now right).
    match goal with |- (if ?c then _ else _) = _ -> _ => destruct c end.
    + destruct (has (stat ||| r) (eRet ||| e1st ||| eError)).
      * intros [= <- _]. now rewrite or_ret_skip.
      * now apply IH.
    + now apply IH.
Qed.

Lemma cycle_loop_no_skip rec body min flag :
  has flag eSkip = false ->
  (forall p r q, rec body p = Some (r, q) -> has r eSkip = false) ->
  forall n i stat p j s q,
    has stat eSkip = false ->
    cycle_loop rec body min flag n i stat p = Some (j, (s, q)) ->
    has s eSkip = false.
Proof.
  intros Fl K. induction n as [|n IH]; intros i stat p j s q St;
    cbn [cycle_loop].
  - intros E. inversion E; subst. now rewrite !has_lor, St, Fl.
  - destruct (rec body p) as [[r p1]|] eqn:R; [|discriminate].
    pose proof (K _ _ _ R) as Sr.
    assert (S1 : has (stat ||| r) eSkip = false)
      by (now rewrite has_lor, St, Sr).
    destruct (Z.land (stat ||| r) (eOk ||| eError) =? eOk).
    + apply IH. now apply clr_sub.
    + destruct (i <? min); intros E; inversion E; subst.
      * now rewrite clr_other by reflexivity.
      * now rewrite has_lor, S1.
Qed.

(** A grammar without [Skip()] never returns [eSkip]. *)
Lemma parse_no_skip f :
  forall t p r q,
    skipless t = true -> parse H f t p = Some (r, q) -> has r eSkip = false.
Proof.
  induction f as [|f IH]; intros t p r q Sk; [discriminate|].
  destruct t as [m nm|a|flg|use|use|mn mx flag body|nm use|nm cb use];
    cbn [parse]; cbn [skipless] in Sk.
  - unfold Token_parse. destruct (m (deref (text H) _)); intros [= <- _];
      [|reflexivity].
    now destruct (deref (text H) _ =? 0)%N.
  - unfold Action_parse. intros [= <- _].
    now destruct (a (text H) _ _).
  - intros [= <- _]. now apply negb_true_iff.
  - apply and_loop_no_skip.
  - apply or_loop_no_skip; [|apply has_0].
    intros t I p' r' q'. apply IH. rewrite forallb_forall in Sk. now apply Sk.
  - apply andb_true_iff in Sk. destruct Sk as [Fl Sb].
    apply negb_true_iff in Fl.
    destruct (cycle_loop (parse H f) body mn flag (Z.to_nat mx) 0 0 p)
      as [[j [s' q']]|] eqn:C; [|discriminate].
    intros [= <- <-].
    refine (cycle_loop_no_skip _ _ _ _ Fl _ _ _ _ _ _ _ _ (has_0 _) C).
    intros p2 r2 q2. now apply IH.
  - destruct use as [h|]; [|now intros [= <- _]].
    destruct ((level p =? 0) || is_Action (defs H h)); [apply IH, Hsk|].
    match goal with |- match parse H f ?t' ?p' with _ => _ end = _ -> _ =>
      destruct (parse H f t' p') as [[st p1]|] eqn:B; [|discriminate] end.
    apply IH in B; [|apply Hsk].
    match goal with |- (if ?c then _ else _) = _ -> _ => destruct c end;
      now intros [= <- _].
  - destruct use as [h|]; [|now intros [= <- _]].
    destruct (level p =? 0); [now intros [= <- _]|].
    destruct (is_Action (defs H h)); [apply IH, Hsk|].
    destruct (_pre_call H p cb) as [up p0].
    destruct (parse H f (defs H h) p0) as [[st p1]|] eqn:B; [|discriminate].
    apply IH in B; [|apply Hsk].
    match goal with |- (if ?c then _ else _) = _ -> _ => destruct c end;
      now intros [= <- _].
Qed.

End Skipless.

Section Atoms.

Variable H : Host.
Hypothesis HU : klass H = ParserU.
Hypothesis Hmono : forall t ptr, (ptr <= zero_parse H t ptr)%nat.

Lemma atom_step f t p u r q :
  atom t = true -> level p = 1 -> cntxU p = Some u ->
  parse H f t p = Some (r, q) ->
  level q = 1 /\ off q = off p /\
  ((cntxV q = cntxV p /\ cntxU q = Some u) \/
   (exists v, cntxV q = cntxV p ++ [Ifc.text v; span_end v] /\
              cntxU q = Some (u ++ [v]) /\
              (back p <= Ifc.text v)%nat /\ 0 <= Ifc.length v /\
              Ifc.name v = atom_name t)).
Proof.
  intros At L U. destruct f as [|f]; [discriminate|].
  assert (Same : Some (r, q) = Some (r, p) ->
                 level q = 1 /\ off q = off p /\
                 ((cntxV q = cntxV p /\ cntxU q = Some u) \/
                  (exists v, cntxV q = cntxV p ++ [Ifc.text v; span_end v] /\
                             cntxU q = Some (u ++ [v]) /\
                             (back p <= Ifc.text v)%nat /\
                             0 <= Ifc.length v /\
                             Ifc.name v = atom_name t)))
    by (intros [= ->]; split; [exact L|]; split; [reflexivity|]; now left).
  destruct t as [m nm|a|flg|use|use|mn mx flag body|nm use|nm cb use];
    try discriminate At; cbn [parse].
  - unfold Token_parse. rewrite L. change (1 =? 0) with false. cbv iota zeta.
    set (cc := zero_parse H (text H) (back p)).
    destruct (m (deref (text H) cc)); intros [= _ <-].
    + split; [cbn [push set_cntxV level]; now rewrite level_stub|].
      unfold _stub_call. rewrite HU, U. cbn [push set_cntxV set_frame].
      split; [reflexivity|]. right.
      exists (Interface_stub cc (Z.of_nat (S cc) - Z.of_nat cc) nm).
      unfold span_end. cbn [Interface_stub Ifc.text Ifc.length Ifc.name cntxV
                            cntxU atom_name].
      replace (Z.to_nat (Z.of_nat cc + (Z.of_nat (S cc) - Z.of_nat cc)))
        with (S cc) by lia.
      unfold push, set_cntxV, set_frame. cbn [cntxV cntxU level off].
      split; [now rewrite <- app_assoc|]. split; [reflexivity|].
      split; [apply Hmono|]. split; [lia | reflexivity].
    + split; [exact L|]. split; [reflexivity|]. now left.
  - unfold Action_parse. intros E. apply Same. now injection E as <- <-.
  - intros E. apply Same. now injection E as <- <-.
  - destruct use as [h|]; [|intros E; apply Same; now injection E as <- <-].
    rewrite L. change (1 =? 0) with false. cbn [orb].
    destruct (is_Action (defs H h)) eqn:A.
    + intros E. apply Same. now rewrite (parse_is_Action _ _ _ _ _ _ A E).
    + intros E.
      assert (E' : parse H (S f) (Lexem nm (Some h)) p = Some (r, q)).
      { cbn [parse]. rewrite L, A. change (1 =? 0) with false. cbn [orb].
        change (1 - 1) with 0. exact E. }
      destruct (Lexem_one_span H Hmono f nm h p r q L A E')
        as (Lq & Oq & [[CV CU] | (Ok & e & Le & Bq & CV & CU)]).
      * split; [exact Lq|]. split; [exact Oq|]. left.
        split; [exact CV | now rewrite CU].
      * split; [exact Lq|]. split; [exact Oq|]. right.
        set (org := zero_parse H (text H) (back p)) in *.
        exists (Interface_stub org (Z.of_nat e - Z.of_nat org) nm).
        unfold span_end. cbn [Interface_stub Ifc.text Ifc.length Ifc.name
                              atom_name].
        replace (Z.to_nat (Z.of_nat org + (Z.of_nat e - Z.of_nat org)))
          with e by lia.
        split; [exact CV|]. split.
        { rewrite CU. unfold with_stub. now rewrite HU, U. }
        split; [apply Hmono|]. split; [lia | reflexivity].
  - destruct use as [h|]; [|intros E; apply Same; now injection E as <- <-].
    rewrite L. change (1 =? 0) with false. cbv iota.
    destruct (is_Action (defs H h)) eqn:A.
    + intros E. apply Same. now rewrite (parse_is_Action _ _ _ _ _ _ A E).
    + unfold _pre_call. rewrite HU, U.
      set (p0 := match cb with
                 | Some _ => set_frame p (Some [])
                               (Z.of_nat (List.length (cntxV p)))
                 | None => set_frame p None 0
                 end).
      assert (P0 : cntxV p0 = cntxV p /\ level p0 = level p)
        by (unfold p0; now destruct cb).
      destruct P0 as [Pc Pl].
      destruct (parse H f (defs H h) p0) as [[st p1]|] eqn:B; [|discriminate].
      pose proof (parse_order H Hmono f _ _ _ _ B) as O.
      apply (order_same_src p p0 p1 Pc Pl) in O.
      destruct (has st eOk && grew p1 (List.length (cntxV p))) eqn:Cnd;
        intros [= _ <-]; unfold _post_call; rewrite HU.
      * apply andb_true_iff in Cnd. destruct Cnd as [_ G].
        destruct (collapse_order p p1 O G) as [_ Le].
        destruct O as (sf & CV1 & As & L1).
        unfold grew in G. rewrite CV1, length_app, Nat2Z.inj_add in G.
        replace (Z.of_nat (List.length (cntxV p))
                 + Z.of_nat (List.length sf)
                 - Z.of_nat (List.length (cntxV p)))
          with (Z.of_nat (List.length sf)) in G by lia.
        destruct sf as [|a [|b X]]; [discriminate G | discriminate G |].
        pose proof (collapse_span p1 (cntxV p) a b X CV1) as CVq.
        rewrite CV1, app_nth2, Nat.sub_diag in Le by lia. cbn [nth] in Le.
        destruct As as [Ba _].
        cbn [set_frame level off cntxV cntxU].
        split; [unfold collapse; cbn [set_cntxV level]; congruence|].
        unfold _do_call. rewrite HU. cbn [fst snd].
        rewrite CV1, app_nth2, Nat.sub_diag by lia. cbn [nth].
        split; [now destruct cb|]. right.
        exists (match cb with
                | Some c =>
                    Interface_copy
                      (c match cntxU p1 with Some u' => u' | None => [] end)
                      a (Z.of_nat (back p1) - Z.of_nat a) nm
                | None =>
                    Interface_stub a (Z.of_nat (back p1) - Z.of_nat a) nm
                end).
        unfold span_end.
        assert (End : Z.to_nat (Z.of_nat a + (Z.of_nat (back p1) - Z.of_nat a))
                      = back p1) by lia.
        destruct cb; cbn [Interface_copy Interface_stub Ifc.text Ifc.length
                          Ifc.name atom_name fst snd]; rewrite End;
          (split; [exact CVq|]); (split; [reflexivity|]);
          (split; [exact Ba|]); (split; [lia | reflexivity]).
      * cbn [set_frame level off cntxV cntxU fst snd].
        destruct O as (sf & CV1 & _ & L1).
        split; [cbn [resize set_cntxV level]; congruence|].
        split; [reflexivity|]. left. split; [|reflexivity].
        cbn [resize set_cntxV cntxV]. rewrite CV1. unfold vresize.
        rewrite firstn_exact.
        replace (_ - _)%nat with 0%nat by (rewrite length_app; lia).
        apply app_nil_r.
Qed.

Lemma and_loop_atoms f size use :
  forallb atom use = true ->
  (forall t p r q, In t use -> parse H f t p = Some (r, q) ->
                   has r eSkip = false) ->
  forall stat p u s q,
    has stat eSkip = false ->
    level p = 1 -> cntxU p = Some u ->
    and_loop H (parse H f) size use stat 0 p = Some (s, q) ->
    has s eOk = true ->
    level q = 1 /\ off q = off p /\
    exists vals,
      cntxU q = Some (u ++ vals) /\
      cntxV q = cntxV p ++ cursors_of vals /\
      chain (back p) vals /\
      subseq (map Ifc.name vals) (map atom_name use).
Proof.
  induction use as [|t use IH]; intros At Sk stat p u s q St L U;
    cbn [and_loop].
  - intros [= _ <-] _. split; [exact L|]. split; [reflexivity|].
    exists []. rewrite !app_nil_r. repeat split; try assumption. constructor.
  - cbn [forallb] in At. apply andb_true_iff in At. destruct At as [At Ats].
    destruct (parse H f t p) as [[r p1]|] eqn:R; [|discriminate].
    pose proof (Sk t p r p1 (or_introl eq_refl) R) as Sr.
    destruct (atom_step f t p u r p1 At L U R) as (L1 & O1 & Step).
    destruct (Z.land (stat ||| r) (eOk ||| eError) =? eOk).
    + change (0 =? 0)%nat with true. cbv iota.
      replace (has (stat ||| r) eSkip) with false
        by (now rewrite has_lor, St, Sr).
      intros E Ok.
      assert (Sk' : forall t p r q, In t use ->
                    parse H f t p = Some (r, q) -> has r eSkip = false)
        by (intros t' p' r' q' I; apply (Sk t'); now right).
      assert (St' : has (clr (stat ||| r) (eSkip ||| eRet ||| eOk)) eSkip
                    = false) by (now apply clr_sub).
      destruct Step as [[CV CU] | (v & CV & CU & Bv & Lv & Nv)].
      * destruct (IH Ats Sk' _ p1 u s q St' L1 CU E Ok)
          as (Lq & Oq & vals & CUq & CVq & Ch & Sub).
        split; [exact Lq|]. split; [congruence|]. exists vals.
        split; [exact CUq|]. split; [now rewrite CVq, CV|].
        split; [|now constructor].
        unfold back in Ch. rewrite CV in Ch. exact Ch.
      * destruct (IH Ats Sk' _ p1 (u ++ [v]) s q St' L1 CU E Ok)
          as (Lq & Oq & vals & CUq & CVq & Ch & Sub).
        split; [exact Lq|]. split; [congruence|]. exists (v :: vals).
        split; [now rewrite CUq, <- app_assoc|].
        split; [rewrite CVq, CV, <- app_assoc; reflexivity|].
        split; [|cbn [map]; rewrite Nv; now constructor].
        cbn [chain]. split; [exact Bv|]. split; [exact Lv|].
        unfold back in Ch. rewrite CV in Ch.
        change [Ifc.text v; span_end v] with ([Ifc.text v] ++ [span_end v])
          in Ch.
        now rewrite app_assoc, last_last in Ch.
    + intros [= <- _] Ok. exfalso.
      rewrite has_lor, clr_sub in Ok by reflexivity.
      rewrite orb_false_r in Ok.
      match type of Ok with has (if ?c then _ else _) _ = _ =>
        destruct c end; discriminate Ok.
Qed.

End Atoms.

Lemma cursors_of_first_last v vals :
  exists mid, cursors_of (v :: vals)
              = Ifc.text v :: mid ++ [span_end (last vals v)].
Proof.
  revert v. induction vals as [|w vals IH]; intros v.
  - exists []. reflexivity.
  - destruct (IH w) as (mid & E). exists (span_end v :: Ifc.text w :: mid).
    change (cursors_of (v :: w :: vals))
      with (Ifc.text v :: span_end v :: cursors_of (w :: vals)).
    rewrite E, last_cons_default. reflexivity.
Qed.


Lemma ini_defs_skipless DoSection DoValue h :
  skipless (ini_defs DoSection DoValue h) = true.
Proof. do 9 (destruct h as [|h]; [reflexivity|]). reflexivity. Qed.


(** ** What an action sees *)

Lemma parse_Action H f a p :
  parse H (S f) (Action a) p = Some (Action_parse H a p).
Proof. reflexivity. Qed.

Lemma and_then_Action H f x a p r q1 pre b e :
  parse H f x p = Some (r, q1) ->
  has r eOk = true -> has r eError = false ->
  cntxV q1 = pre ++ [b; e] ->
  exists s q,
    parse H (S f) (_And [x; Action a]) p = Some (s, q) /\
    has s eOk = a (text H) b ((Z.of_nat e - Z.of_nat b) mod 2 ^ 64) /\
    (has s eOk = true ->
       cntxV q = cntxV q1 /\ cntxU q = cntxU q1 /\ level q = level q1 /\
       off q = off q1) /\
    (has s eOk = false -> q = _erase H q1 (List.length (cntxV p)) 0).
Proof.
  intros Hx Ok Er CV.
  destruct f as [|f]; [discriminate|].
  rewrite parse_And. cbn [and_loop]. rewrite Hx. rewrite !Z.lor_0_l.
  rewrite ok_test, Ok, Er. cbn [negb andb].
  change (0 =? 0)%nat with true. cbv iota.
  rewrite parse_Action. unfold Action_parse.
  replace (nth 1 (rev (cntxV q1)) 0%nat) with b
    by (rewrite CV, rev_app_distr; reflexivity).
  replace (back q1) with e
    by (unfold back; rewrite CV;
        change [b; e] with ([b] ++ [e]); now rewrite app_assoc, last_last).
  set (st := clr r (eSkip ||| eRet ||| eOk)).
  assert (Se : has st eError = false)
    by (unfold st; now rewrite clr_other by reflexivity).
  assert (So : has st eOk = false) by (now apply clr_sub).
  destruct (a (text H) b ((Z.of_nat e - Z.of_nat b) mod 2 ^ 64)).
  - rewrite ok_test, !has_lor, So, Se. cbn [orb negb andb].
    change (has 1 eOk) with true. change (has 1 eError) with false.
    cbn [negb andb]. eexists _, _. split; [reflexivity|].
    split; [rewrite !has_lor; change (has eOk eOk) with true;
            now rewrite orb_true_r|].
    split; [|intros K; exfalso; revert K;
             rewrite !has_lor; change (has eOk eOk) with true;
             now rewrite orb_true_r].
    intros _. destruct (has r eSkip); cbn [Nat.eqb].
    + destruct (List.length (cntxV q1) =? 0)%nat; [now repeat split|].
      cbn [resize set_cntxV cntxV cntxU level off].
      now rewrite vresize_length.
    + now repeat split.
  - rewrite ok_test, !has_lor, So. cbn [orb andb].
    change (has 0 eOk) with false. cbn [andb].
    eexists _, _. split; [reflexivity|].
    assert (No : forall x y, has (x ||| clr y (eTry ||| eSkip ||| eOk)) eOk
                             = has x eOk)
      by (intros; rewrite has_lor, clr_sub by reflexivity;
          apply orb_false_r).
    split.
    { rewrite No. now destruct (has _ (eEof ||| eOver)). }
    split; [|reflexivity]. rewrite No.
    destruct (has _ (eEof ||| eOver)); discriminate.
Qed.

(** X19.  An action sees the span of the element before it.  In
    syntactic mode, by a [_Parser<U>] with a skipper that never moves
    back, after a terminal, lexem or rule that returned [eOk] and left a
    value, the [Action] that follows it in the sequence is called with
    the text and the length of that value; the sequence goes on when the
    action returns true, and fails, with its cursors erased, when the
    action returns false. *)
Theorem Action_sees_the_element_before_it (H : Host)
    (HU : klass H = ParserU)
    (Hmono : forall t ptr, (ptr <= zero_parse H t ptr)%nat)
    (f : nat) (x : Tie) (a : string -> nat -> Z -> bool)
    (p : Parser) (u : list Interface) (r : Z) (q1 : Parser) (v : Interface)
    (Hatom : atom x = true) (Hlevel : level p = 1)
    (Hframe : cntxU p = Some u)
    (Hx : parse H f x p = Some (r, q1))
    (Hok : has r eOk = true) (Herr : has r eError = false)
    (Hval : cntxU q1 = Some (u ++ [v])) :
  exists s q,
    parse H (S f) (_And [x; Action a]) p = Some (s, q) /\
    has s eOk = a (text H) (Ifc.text v) (Ifc.length v mod 2 ^ 64) /\
    Ifc.name v = atom_name x /\
    (has s eOk = true ->
       cntxV q = cntxV p ++ [Ifc.text v; span_end v] /\
       cntxU q = Some (u ++ [v])) /\
    (has s eOk = false -> cntxV q = cntxV p).
Proof.
  destruct (atom_step H HU Hmono f x p u r q1 Hatom Hlevel Hframe Hx)
    as (L1 & O1 & [[CV CU] | (v' & CV & CU & Bv & Lv & Nv)]).
  { exfalso. rewrite CU in Hval. injection Hval as Hval.
    apply (f_equal (@List.length _)) in Hval.
    rewrite length_app in Hval. simpl in Hval. lia. }
  assert (v' = v).
  { rewrite CU in Hval. injection Hval as Hval.
    now apply app_inj_tail in Hval. }
  subst v'.
  destruct (and_then_Action H f x a p r q1 (cntxV p) (Ifc.text v)
              (span_end v) Hx Hok Herr CV) as (s & q & E & A & T & F).
  exists s, q. split; [exact E|]. split.
  { rewrite A. f_equal. f_equal. unfold span_end. lia. }
  split; [exact Nv|]. split.
  - intros K. destruct (T K) as (C1 & C2 & _). split; congruence.
  - intros K. rewrite (F K), cntxV_erase, CV.
    unfold verase, erase_tail. cbn [Nat.eqb]. apply firstn_exact.
Qed.

Lemma Action_sees_the_element_before_it_witness :
  exists s q,
    parse (host_U " 532;" (fun _ => mk_Cycle 1 (Token_s "0123456789")
                                      1024 1024)) 4
      (_And [Lexem "Number" (Some 0%nat);
             Action (fun _ b len => (b =? 1)%nat && (len =? 3))])
      (start (host_U " 532;" (fun _ => mk_Cycle 1 (Token_s "0123456789")
                                         1024 1024)))
    = Some (s, q) /\ has s eOk = true.
Proof.
  destruct (Action_sees_the_element_before_it
              (host_U " 532;" (fun _ => mk_Cycle 1 (Token_s "0123456789")
                                          1024 1024))
              eq_refl zero_parse_default_mono 3
              (Lexem "Number" (Some 0%nat))
              (fun _ b len => (b =? 1)%nat && (len =? 3))
              (start (host_U " 532;" (fun _ => mk_Cycle 1
                                                 (Token_s "0123456789")
                                                 1024 1024)))
              [] eOk
              (mkParser [0; 0; 1; 4]%nat 1
                 (Some [Interface_stub 1 3 "Number"]) 0)
              (Interface_stub 1 3 "Number")
              eq_refl eq_refl eq_refl eq_refl eq_refl eq_refl eq_refl)
    as (s & q & E & A & _).
  exists s, q. split; [exact E | exact A].
Defined.

Lemma seq_last_two org k :
  (0 < k)%nat ->
  org :: seq (S org) k
  = seq org (k - 1) ++ [(org + k - 1)%nat; (org + k)%nat].
Proof.
  intros K. change (org :: seq (S org) k) with (seq org (S k)).
  replace (S k) with ((k - 1) + 2)%nat by lia.
  rewrite seq_app. f_equal. cbn [seq].
  replace (org + (k - 1))%nat with (org + k - 1)%nat by lia.
  repeat f_equal. lia.
Qed.

(** X20.  In a lexem, an action after a repeated terminal sees the last
    byte only.  In [Lexem = min*token + action] (the form
    [Iterate(1, Digit) + MyNumber] of the usage notes, with a terminal
    for [Digit]), evaluated in syntactic mode, after a run of [k > 0] bytes, [min <= k], the action
    is called with the one byte at [org + k - 1] and the length 1,
    whatever [k] is, since in lexical mode every terminal leaves one
    cursor; the lexem then leaves the whole span [org, org + k] when the
    action returns true, and nothing when it returns false. *)
Theorem Action_in_a_lexem_sees_the_last_byte (H : Host) (nm nm' : string)
    (m : bitset) (mn mx flag : Z) (a : string -> nat -> Z -> bool)
    (h f : nat) (p : Parser)
    (Hlevel : level p = 1) (Hnul : m 0%N = false) (Hmax : 0 <= mx < 2 ^ 32)
    (Hflag : has flag eError = false)
    (Hdefs : defs H h = _And [_Cycle mn mx flag (Token m nm'); Action a])
    (Hrun : (0 < run m (text H) (zero_parse H (text H) (back p))
                   (Z.to_nat mx))%nat)
    (Hmin : mn <= Z.of_nat (run m (text H) (zero_parse H (text H) (back p))
                              (Z.to_nat mx))) :
  let org := zero_parse H (text H) (back p) in
  let k := run m (text H) org (Z.to_nat mx) in
  exists s q,
    parse H (S (S (S (S f)))) (Lexem nm (Some h)) p = Some (s, q) /\
    has s eOk = a (text H) (org + k - 1)%nat 1 /\
    (has s eOk = true ->
       cntxV q = cntxV p ++ [org; (org + k)%nat] /\
       cntxU q = with_stub H (cntxU p) org (org + k) nm) /\
    (has s eOk = false -> cntxV q = cntxV p /\ cntxU q = cntxU p).
Proof.
  cbv zeta. set (org := zero_parse H (text H) (back p)) in *.
  set (k := run m (text H) org (Z.to_nat mx)) in *.
  destruct (run_spec m (text H) (Z.to_nat mx) org) as (Kle & Kin & _).
  fold k in Kle, Kin.
  set (p0 := set_level (push p org) 0).
  assert (B0 : back p0 = org) by apply back_push.
  assert (L0 : level p0 = 0) by reflexivity.
  assert (D : (deref (text H) org =? 0)%N = false).
  { destruct (N.eqb_spec (deref (text H) org) 0) as [Z0|]; [|easy].
    specialize (Kin 0%nat Hrun). rewrite Nat.add_0_r, Z0, Hnul in Kin.
    discriminate. }
  assert (E0 : eof_at (text H) org = 0) by (unfold eof_at; now rewrite D).
  destruct (cycle_loop_run H f m nm' mn flag Hnul (Z.to_nat mx) p0 0 L0)
    as (p1 & C & Bq & CV).
  rewrite B0 in *. fold k in C, Bq, CV. rewrite E0 in C. cbv zeta in C.
  rewrite Z.add_0_l in C.
  set (c := if (k <? Z.to_nat mx)%nat
            then if Z.of_nat k <? mn
                 then eof_at (text H) (org + k)
                 else eof_at (text H) (org + k) ||| eOk
            else eof_at (text H) (org + k) ||| flag ||| eOk) in *.
  assert (Cy : parse H (S (S f)) (_Cycle mn mx flag (Token m nm')) p0
               = Some (c, p1)) by (rewrite parse_Cycle, C; reflexivity).
  assert (Ee : has (eof_at (text H) (org + k)) eError = false)
    by (unfold eof_at; now destruct (deref (text H) (org + k) =? 0)%N).
  assert (Cok : has c eOk = true).
  { unfold c. destruct (k <? Z.to_nat mx)%nat; [|apply has_eOk_lor].
    replace (Z.of_nat k <? mn) with false by (symmetry; apply Z.ltb_ge; lia).
    apply has_eOk_lor. }
  assert (Cer : has c eError = false).
  { unfold c. destruct (k <? Z.to_nat mx)%nat.
    - destruct (Z.of_nat k <? mn); [exact Ee|].
      now rewrite has_lor, Ee.
    - now rewrite !has_lor, Ee, Hflag. }
  assert (CV' : cntxV p1
                = (cntxV p ++ seq org (k - 1))
                  ++ [(org + k - 1)%nat; (org + k)%nat]).
  { rewrite CV. unfold p0. cbn [set_level push set_cntxV cntxV].
    rewrite <- !app_assoc. f_equal. cbn [app]. now apply seq_last_two. }
  destruct (and_then_Action H (S (S f)) _ a p0 c p1 _ _ _ Cy Cok Cer CV')
    as (s & q' & E & A & T & F).
  replace ((Z.of_nat (org + k) - Z.of_nat (org + k - 1)) mod 2 ^ 64)
    with 1 in A by (replace (Z.of_nat (org + k) - Z.of_nat (org + k - 1))
                      with 1 by lia; reflexivity).
  assert (Suf : exists suf,
             cntxV q' = cntxV p ++ org :: suf /\
             (has s eOk = true -> suf = seq (S org) k /\ back q' = back p1) /\
             (has s eOk = false -> suf = [])).
  { destruct (has s eOk) eqn:Ok.
    - destruct (T eq_refl) as (C1 & _). exists (seq (S org) k).
      split; [|split; [intros _; split; [reflexivity|] | discriminate]].
      + rewrite C1, CV. unfold p0. cbn [set_level push set_cntxV cntxV].
        now rewrite <- app_assoc.
      + unfold back. now rewrite C1.
    - exists []. split; [|split; [discriminate | reflexivity]].
      rewrite (F eq_refl), cntxV_erase, CV.
      unfold verase, erase_tail. cbn [Nat.eqb]. rewrite firstn_exact.
      reflexivity. }
  destruct Suf as (suf & CVq & SufT & SufF).
  destruct (Lexem_wrap H (S (S (S f))) nm h p s q' suf Hlevel)
    as (q & EL & WF & WP).
  - now rewrite Hdefs.
  - rewrite Hdefs. exact E.
  - exact CVq.
  - destruct (has s eOk).
    + destruct (SufT eq_refl) as [-> _]. rewrite length_seq. lia.
    + rewrite (SufF eq_refl). simpl. lia.
  - exists s, q. split; [exact EL|]. split; [exact A|]. split.
    + intros Ok. destruct (SufT Ok) as [Es Bk].
      rewrite <- Bq, <- Bk. apply WF; [exact Ok|].
      rewrite Es. destruct k; [lia | discriminate].
    + intros Ok. apply WP. now left.
Qed.

Lemma Action_in_a_lexem_sees_the_last_byte_witness :
  exists s q,
    parse (host_base_with
             (fun _ => _And [mk_Cycle 1 (Token_s "0123456789") 1024 1024;
                             Action (fun _ b len =>
                                       (b =? 2)%nat && (len =? 1))])
             "532;") 4
      (Lexem "Number" (Some 0%nat)) (start (host_base "532;"))
    = Some (s, q) /\
    has s eOk = true /\ cntxV q = [0; 0; 0; 3]%nat.
Proof.
  destruct (Action_in_a_lexem_sees_the_last_byte
              (host_base_with
                 (fun _ => _And [mk_Cycle 1 (Token_s "0123456789") 1024 1024;
                                 Action (fun _ b len =>
                                           (b =? 2)%nat && (len =? 1))])
                 "532;")
              "Number" "0123456789" (sample_set "0123456789")
              (1 mod 2 ^ 32) (1024 mod 2 ^ 32) eOver
              (fun _ b len => (b =? 2)%nat && (len =? 1)) 0 0
              (start (host_base "532;")) eq_refl eq_refl)
    as (s & q & E & A & T & _).
  - vm_compute. split; [discriminate | reflexivity].
  - reflexivity.
  - reflexivity.
  - vm_compute. lia.
  - vm_compute. discriminate.
  - exists s, q. split; [exact E|].
    assert (Ok : has s eOk = true) by (rewrite A; reflexivity).
    split; [exact Ok|]. destruct (T Ok) as [CV _]. exact CV.
Defined.

(** ** [Try()] and the choice among alternatives *)

Lemma parse_Or H f use p :
  parse H (S f) (_Or use) p
  = or_loop H (parse H f) (back p) (List.length (cntxV p)) use 0 0 (-1) p.
Proof. reflexivity. Qed.

Lemma and_loop_keeps_Try H rec size use :
  forall stat save p s q,
    has stat eTry = true ->
    and_loop H rec size use stat save p = Some (s, q) ->
    has s eOk = true -> has s eRet = true.
Proof.
  induction use as [|t use IH]; intros stat save p s q T; cbn [and_loop].
  - intros [= <- _] _. rewrite T, !has_lor.
    change (has eRet eRet) with true. reflexivity.
  - destruct (rec t p) as [[r p1]|]; [|discriminate].
    destruct (Z.land (stat ||| r) (eOk ||| eError) =? eOk).
    + apply IH. rewrite clr_other by reflexivity.
      now rewrite has_lor, T.
    + intros [= <- _] Ok. exfalso.
      rewrite has_lor, clr_sub in Ok by reflexivity.
      rewrite orb_false_r in Ok.
      match type of Ok with has (if ?c then _ else _) _ = _ =>
        destruct c end; discriminate Ok.
Qed.

(** X21.  [Try()] commits its alternative.  A sequence that starts with
    [Try()] and succeeds returns [eRet] beside [eOk]; so an alternation
    whose first alternative is such a sequence, when that alternative
    succeeds and advances the cursor, returns at once with the cursors
    of that alternative, whatever the alternatives after it are: they are
    not evaluated, and longest match does not apply. *)
Theorem Try_commits_the_alternative (H : Host) (f : nat)
    (xs ys : list Tie) (p : Parser) (s1 : Z) (q1 : Parser)
    (E1 : parse H (S (S f)) (_And (Try :: xs)) p = Some (s1, q1))
    (Hok : has s1 eOk = true) (Hadv : (back p < back q1)%nat) :
  has s1 eRet = true /\
  parse H (S (S (S f))) (_Or (_And (Try :: xs) :: ys)) p
  = Some (or_ret s1 (Z.of_nat (back q1) - Z.of_nat (back p))
            (Z.of_nat (back q1) - Z.of_nat (back p)), q1) /\
  has (or_ret s1 (Z.of_nat (back q1) - Z.of_nat (back p))
         (Z.of_nat (back q1) - Z.of_nat (back p))) eOk = true.
Proof.
  assert (R : has s1 eRet = true).
  { rewrite parse_And in E1. cbn [and_loop] in E1.
    unfold Try in E1. rewrite parse_Ctrl in E1.
    replace (Z.land (0 ||| (eOk ||| eTry)) (eOk ||| eError) =? eOk)
      with true in E1 by reflexivity.
    change (0 =? 0)%nat with true in E1. cbv iota in E1.
    refine (and_loop_keeps_Try H _ _ xs _ _ _ _ _ _ E1 Hok).
    reflexivity. }
  split; [exact R|]. split.
  - rewrite parse_Or. cbn [or_loop]. rewrite Nat.ltb_irrefl.
    rewrite E1. rewrite !Z.lor_0_l.
    rewrite (has_lor_r s1 eOk eError), Hok. cbn [orb andb].
    replace (Z.of_nat (back q1) - Z.of_nat (back p) >? 0) with true
      by (symmetry; apply Z.gtb_lt; lia).
    cbn [orb].
    rewrite (has_lor_r s1 (eRet ||| e1st) eError), (has_lor_r s1 eRet e1st), R.
    reflexivity.
  - apply or_ret_Ok. left. lia.
Qed.

Lemma Try_commits_the_alternative_witness :
  parse (host_base "ab") 3
    (_Or [_And [Try; Token_s "a"]; _And [Token_s "a"; Token_s "b"]])
    (start (host_base "ab"))
  = Some (eOk, mkParser [0; 0; 0; 1]%nat 1 None 0).
Proof.
  destruct (Try_commits_the_alternative (host_base "ab") 0
              [Token_s "a"] [_And [Token_s "a"; Token_s "b"]]
              (start (host_base "ab")) (eRet ||| eOk)
              (mkParser [0; 0; 0; 1]%nat 1 None 0))
    as (_ & E & _).
  - reflexivity.
  - reflexivity.
  - vm_compute. lia.
  - rewrite E. reflexivity.
Defined.

(** ** Default names *)

Lemma undigits_digits n :
  forall i, 0 <= i < 10 ^ Z.of_nat n -> undigits (digits_loop n i) = i.
Proof.
  induction n as [|n IH]; intros i R.
  - change (10 ^ Z.of_nat 0) with 1 in R. cbn [digits_loop undigits]. lia.
  - cbn [digits_loop]. destruct (Z.eqb_spec i 0) as [->|NZ]; [reflexivity|].
    rewrite Nat2Z.inj_succ, Z.pow_succ_r in R by lia.
    rewrite Z.quot_div_nonneg by lia.
    pose proof (Z.div_mod i 10 ltac:(lia)) as DM.
    pose proof (Z.mod_pos_bound i 10 ltac:(lia)) as MB.
    cbn [undigits]. rewrite IH.
    + rewrite N_ascii_embedding.
      * rewrite uchar_small by lia. lia.
      * unfold uchar. pose proof (Z.mod_pos_bound (48 + i - i / 10 * 10) 256
                                    ltac:(lia)). lia.
    + split; [apply Z.div_pos; lia|]. apply Z.div_lt_upper_bound; lia.
Qed.

Lemma string_app_inv_head (a b c : string) :
  (a ++ b)%string = (a ++ c)%string -> b = c.
Proof.
  induction a as [|x a IH]; cbn [String.append]; [easy|].
  intros [= E]. now apply IH.
Qed.

(** X22.  Default names are distinct within a class.  [_setname] without
    a name gives the node the type name of its class followed by the
    decimal digits of the advanced counter, the least significant first
    (the twelfth node of a class ends in [21]); the counter can be read
    back from the suffix, so two nodes of one class never get the same
    default name. *)
Theorem default_names_are_distinct (tid : string) (cnt cnt' : Z)
    (Hcnt : 0 <= cnt < 2 ^ 31 - 1) (Hcnt' : 0 <= cnt' < 2 ^ 31 - 1) :
  snd (_setname tid cnt None) = cnt + 1 /\
  (exists d, fst (_setname tid cnt None) = (tid ++ d)%string /\
             undigits d = cnt + 1) /\
  (cnt <> cnt' ->
   fst (_setname tid cnt None) <> fst (_setname tid cnt' None)).
Proof.
  assert (U : forall c, 0 <= c < 2 ^ 31 - 1 ->
                        undigits (digits_loop 10 (c + 1)) = c + 1).
  { intros c R. apply undigits_digits.
    change (10 ^ Z.of_nat 10) with 10000000000. lia. }
  cbn [_setname fst snd]. split; [reflexivity|]. split.
  - exists (digits_loop 10 (cnt + 1)). split; [reflexivity | now apply U].
  - intros NE Eq. apply string_app_inv_head in Eq.
    apply (f_equal undigits) in Eq. rewrite !U in Eq by assumption. lia.
Qed.

Lemma default_names_are_distinct_witness :
  fst (_setname "5Lexem" 11 None) = "5Lexem21"%string /\
  fst (_setname "5Lexem" 11 None) <> fst (_setname "5Lexem" 20 None).
Proof.
  split; [reflexivity|].
  apply (default_names_are_distinct "5Lexem" 11 20); lia.
Defined.

(** ** Joining values *)

Lemma chain_last a v vals :
  chain a (v :: vals) ->
  (a <= Ifc.text (last vals v))%nat /\
  (Ifc.text v <= Ifc.text (last vals v))%nat /\
  0 <= Ifc.length (last vals v).
Proof.
  revert a v. induction vals as [|w vals IH]; intros a v; cbn [chain].
  - intros (A & B & _). cbn [last]. repeat split; [exact A | lia | exact B].
  - intros (A & B & C). destruct (IH _ w C) as (D & _ & F).
    rewrite last_cons_default.
    assert (Sv : (Ifc.text v <= span_end v)%nat) by (unfold span_end; lia).
    repeat split; [lia | lia | exact F].
Qed.

(** X23.  Joining the first and the last value gives the span of the
    rule.  For values that follow one another in the text, as a callback
    receives them, [Interface(front, back)] of the first and the last
    starts where the first starts and ends where the last ends, with a
    length that does not wrap: the span that the library itself gives to
    the value of the rule. *)
Theorem join_of_first_and_last_is_the_span (a : nat) (v : Interface)
    (vals : list Interface) (nm : string)
    (Hchain : chain a (v :: vals))
    (Hfit : Z.of_nat (span_end (last vals v)) < 2 ^ 64) :
  let j := Interface_join v (last vals v) nm in
  Ifc.text j = Ifc.text v /\
  span_end j = span_end (last vals v) /\
  Ifc.length j
  = Z.of_nat (span_end (last vals v)) - Z.of_nat (Ifc.text v) /\
  0 <= Ifc.length j.
Proof.
  cbv zeta. destruct (chain_last a v vals Hchain) as (_ & Le & Ln).
  set (w := last vals v) in *.
  assert (E : Z.of_nat (span_end w)
              = Z.of_nat (Ifc.text w) + Ifc.length w)
    by (unfold span_end; lia).
  unfold Interface_join, span_end at 1.
  cbn [Ifc.text Ifc.length]. rewrite Z.mod_small by lia.
  split; [reflexivity|]. split; [|split]; lia.
Qed.

Lemma join_of_first_and_last_is_the_span_witness :
  Ifc.length (Interface_join (Interface_stub 1 1 "Left")
                (Interface_stub 9 2 "Right") "") = 10.
Proof.
  destruct (join_of_first_and_last_is_the_span 0
              (Interface_stub 1 1 "Left")
              [Interface_stub 3 5 "Name"; Interface_stub 9 2 "Right"] "")
    as (_ & _ & L & _).
  - cbn [chain]. unfold span_end, Interface_stub.
    cbn [Ifc.text Ifc.length]. repeat split; lia.
  - vm_compute. reflexivity.
  - exact L.
Defined.

(** ** [AcceptFirst()] *)

(** X24.  After [AcceptFirst()] the first match wins.  In an alternation
    whose first element is [AcceptFirst()], the next alternative, when it
    returns [eOk] and advances the cursor, is taken at once, with its
    cursors, whatever the alternatives after it are: they are not
    evaluated, and a longer match among them is not looked for. *)
Theorem AcceptFirst_takes_the_first_match (H : Host) (f : nat) (x : Tie)
    (ys : list Tie) (p : Parser) (r : Z) (q1 : Parser)
    (Hx : parse H (S f) x p = Some (r, q1))
    (Hok : has r eOk = true) (Hadv : (back p < back q1)%nat) :
  parse H (S (S f)) (_Or (AcceptFirst :: x :: ys)) p
  = Some (or_ret (e1st ||| r) (Z.of_nat (back q1) - Z.of_nat (back p))
            (Z.of_nat (back q1) - Z.of_nat (back p)), q1) /\
  has (or_ret (e1st ||| r) (Z.of_nat (back q1) - Z.of_nat (back p))
         (Z.of_nat (back q1) - Z.of_nat (back p))) eOk = true /\
  has (or_ret (e1st ||| r) (Z.of_nat (back q1) - Z.of_nat (back p))
         (Z.of_nat (back q1) - Z.of_nat (back p))) e1st = false.
Proof.
  split; [|split].
  - rewrite parse_Or. cbn [or_loop]. rewrite Nat.ltb_irrefl.
    unfold AcceptFirst. rewrite parse_Ctrl. rewrite !Z.lor_0_l.
    change (has e1st (eOk ||| eError)) with false. cbn [andb].
    rewrite Nat.ltb_irrefl.
    change (clr e1st (eOk ||| eRet ||| eError)) with e1st.
    rewrite Nat.ltb_irrefl, Hx.
    rewrite (has_lor_r (e1st ||| r) eOk eError), (has_lor e1st r eOk), Hok.
    rewrite orb_true_r. cbn [orb andb].
    replace (Z.of_nat (back q1) - Z.of_nat (back p) >? 0) with true
      by (symmetry; apply Z.gtb_lt; lia).
    cbn [orb].
    rewrite (has_lor_r (e1st ||| r) (eRet ||| e1st) eError),
            (has_lor_r (e1st ||| r) eRet e1st), (has_lor e1st r e1st).
    change (has e1st e1st) with true. cbn [orb].
    rewrite orb_true_r. reflexivity.
  - apply or_ret_Ok. left. lia.
  - unfold or_ret. apply clr_sub. reflexivity.
Qed.

Lemma AcceptFirst_takes_the_first_match_witness :
  parse (host_base "ab") 3
    (_Or [AcceptFirst; Token_s "a"; _And [Token_s "a"; Token_s "b"]])
    (start (host_base "ab"))
  = Some (eOk, mkParser [0; 0; 0; 1]%nat 1 None 0).
Proof.
  destruct (AcceptFirst_takes_the_first_match (host_base "ab") 1
              (Token_s "a") [_And [Token_s "a"; Token_s "b"]]
              (start (host_base "ab")) eOk
              (mkParser [0; 0; 0; 1]%nat 1 None 0))
    as (E & _).
  - reflexivity.
  - reflexivity.
  - vm_compute. lia.
  - rewrite E. reflexivity.
Defined.
